(** * Morphological reconstruction (cucim.skimage.morphology.grayreconstruct)

    A shallow embedding of [reconstruction] and of the stages the function
    runs through: argument validation, the padded two-channel buffer, the
    rank transform, the sorted traversal list, the propagation loop and the
    extraction of the result.

    Modelling conventions.
    - An n-dimensional array is a record of an element type tag, a shape and
      the row-major (C order) list of its samples.  Samples are integers; a
      value of an element type is a sample that the conversion to the type
      leaves as it is ([holds]).  What the source does in an element type
      is done in that type here: the conversion of a sample on assignment
      into a buffer ([cast]: wrap-around for the integer types, rounding to
      the significand for the floating-point types), the comparison of two
      arrays in their promoted type, and the unary minus ([negative]), which
      wraps for the integer types.
    - Buffer positions and links are [Z]; [-1] is the list terminator, as in
      the source.  The width that the source selects for them is the subject
      of [signed_int_dtype].
    - The caller's arrays that the function may alias (the footprint) live in
      a store of objects; the function is a computation over that store. *)

From stdpp Require Import gmap strings list sorting.
From Stdlib Require Import ZArith Lia.

Local Open Scope Z_scope.
Local Open Scope nat_scope.

(** ** Element types *)

Inductive dtype : Set :=
| bool_
| int8 | int16 | int32 | int64
| uint8 | uint16 | uint32 | uint64
| float16 | float32 | float64
| object_.

#[global] Instance dtype_eq_dec : EqDecision dtype.
Proof. solve_decision. Defined.

(** ** Samples of an element type *)

(** Storing an integer in an integer type of [w] bits keeps it modulo
    [2 ^ w]. *)
Definition wrap_unsigned (w v : Z) : Z := (v mod 2 ^ w)%Z.
Definition wrap_signed (w v : Z) : Z :=
  ((v + 2 ^ (w - 1)) mod 2 ^ w - 2 ^ (w - 1))%Z.

(** Storing an integer in a floating-point type with a significand of [p]
    bits rounds it to the nearest value of the type, ties to the even
    significand.  The exponent range is not modelled: no integer that the
    types of the model convert from reaches it. *)
Definition round_float (p v : Z) : Z :=
  let a := Z.abs v in
  if (a <? 2 ^ p)%Z then v
  else
    let e := (Z.log2 a + 1 - p)%Z in
    let q := (a / 2 ^ e)%Z in
    let r := (a mod 2 ^ e)%Z in
    let h := (2 ^ (e - 1))%Z in
    let q' := if (r <? h)%Z then q
              else if (h <? r)%Z then (q + 1)%Z
              else if Z.even q then q else (q + 1)%Z in
    (Z.sgn v * (q' * 2 ^ e))%Z.

(** The conversion of a sample to an element type: what [astype], an
    assignment into an array of the type, and [cp.full(..., dtype=...)] do
    to it. *)
Definition cast (t : dtype) (v : Z) : Z :=
  match t with
  | bool_ => if (v =? 0)%Z then 0%Z else 1%Z
  | int8 => wrap_signed 8 v
  | int16 => wrap_signed 16 v
  | int32 => wrap_signed 32 v
  | int64 => wrap_signed 64 v
  | uint8 => wrap_unsigned 8 v
  | uint16 => wrap_unsigned 16 v
  | uint32 => wrap_unsigned 32 v
  | uint64 => wrap_unsigned 64 v
  | float16 => round_float 11 v
  | float32 => round_float 24 v
  | float64 => round_float 53 v
  | object_ => v
  end.

(** The unary minus of an array of an element type, sample by sample: the
    negated value stored in the type, so that it wraps for the integer
    types ([-0 = 0] and [-3 = 253] for [uint8], [-(-128) = -128] for
    [int8]).  For booleans it is the logical not, as in the releases of cupy
    of the time of the source; numpy and later releases of cupy reject the
    operator for booleans. *)
Definition negative (t : dtype) (v : Z) : Z :=
  match t with
  | bool_ => if (v =? 0)%Z then 1%Z else 0%Z
  | _ => cast t (- v)
  end.

(** ** Arrays *)

Record ndarray : Set := NdArray {
  arr_dtype : dtype;
  arr_shape : list nat;
  arr_data : list Z
}.

#[global] Instance ndarray_eq_dec : EqDecision ndarray.
Proof. solve_decision. Defined.

(** [a.size] *)
Definition size_of (shape : list nat) : nat := foldr Nat.mul 1 shape.

Definition ndim (a : ndarray) : nat := length (arr_shape a).

(** An array record is well formed when it holds one sample per cell. *)
Definition wf_array (a : ndarray) : Prop :=
  length (arr_data a) = size_of (arr_shape a).

(** All multi-indices of a shape, in row-major order. *)
Fixpoint indices (shape : list nat) : list (list nat) :=
  match shape with
  | [] => [[]]
  | d :: ds => i ← seq 0 d; (cons i) <$> indices ds
  end.

(** ** Errors and results *)

Inductive offset_fault : Set :=
| NdimMismatch   (* "Offset and footprint ndims must be equal." *)
| OutsideFootprint. (* "Offset must be included inside footprint" *)

Inductive error : Set :=
| ShapeMismatch                      (* the assertion on the two shapes *)
| InvalidSeedMask                    (* seed above / below the mask *)
| InvalidFootprint                   (* "Footprint dimensions must all be odd" *)
| InvalidOffset (why : offset_fault)
| InvalidMethod                      (* neither 'dilation' nor 'erosion' *)
| EmptyReduction                     (* min / max of an array without samples *)
| Unsupported                        (* argument ranks outside the documented
                                        interface, or a dangling reference *)
| LoopFatal                          (* the loop left the buffer *)
| LoopDiverged.                      (* the loop exhausted its step budget *)

Inductive result (A : Type) : Type :=
| Ok (a : A)
| Err (e : error).
Arguments Ok {A} a.
Arguments Err {A} e.

(** ** The object store *)

Definition loc : Set := positive.

(** A computation reads and updates the store of array objects and either
    returns a value or raises. *)
Definition comp (A : Type) : Type :=
  gmap loc ndarray → gmap loc ndarray * result A.

Definition ret {A} (a : A) : comp A := λ h, (h, Ok a).
Definition raise {A} (e : error) : comp A := λ h, (h, Err e).
Definition bind {A B} (m : comp A) (k : A → comp B) : comp B :=
  λ h, match m h with
       | (h', Ok a) => k a h'
       | (h', Err e) => (h', Err e)
       end.
Definition lift {A} (r : result A) : comp A := λ h, (h, r).

(** A new object: its reference is fresh for the store. *)
Definition alloc (a : ndarray) : comp loc :=
  λ h, let l := fresh (dom h) in (<[l := a]> h, Ok l).
Definition load (l : loc) : comp ndarray :=
  λ h, match h !! l with
       | Some a => (h, Ok a)
       | None => (h, Err Unsupported)
       end.
Definition write (l : loc) (a : ndarray) : comp unit :=
  λ h, (<[l := a]> h, Ok tt).
Definition guard (b : bool) (e : error) : comp unit :=
  if b then ret tt else raise e.

Notation "'let*' x ':=' m 'in' k" := (bind m (λ x, k))
  (at level 10, x name, m at level 100, k at level 200).
Notation "m ';;' k" := (bind m (λ _, k))
  (at level 100, k at level 200, right associativity).

(** ** Argument validation *)

(** [np.promote_types] on the element types of the model. *)
Definition promote_types (a b : dtype) : dtype :=
  let int_of (w : nat) := match w with 8 => int8 | 16 => int16 | 32 => int32 | _ => int64 end in
  let uint_of (w : nat) := match w with 8 => uint8 | 16 => uint16 | 32 => uint32 | _ => uint64 end in
  let float_of (w : nat) := match w with 16 => float16 | 32 => float32 | _ => float64 end in
  let kind (t : dtype) : nat * nat :=   (* 0 bool, 1 unsigned, 2 signed, 3 float, 4 object *)
    match t with
    | bool_ => (0, 1)
    | uint8 => (1, 8) | uint16 => (1, 16) | uint32 => (1, 32) | uint64 => (1, 64)
    | int8 => (2, 8) | int16 => (2, 16) | int32 => (2, 32) | int64 => (2, 64)
    | float16 => (3, 16) | float32 => (3, 32) | float64 => (3, 64)
    | object_ => (4, 0)
    end in
  let float_for (w : nat) := if w <=? 8 then 16 else if w <=? 16 then 32 else 64 in
  match kind a, kind b with
  | (4, _), _ | _, (4, _) => object_
  | (0, _), _ => b
  | _, (0, _) => a
  | (1, x), (1, y) => uint_of (x `max` y)
  | (2, x), (2, y) => int_of (x `max` y)
  | (1, u), (2, s) | (2, s), (1, u) =>
      if u <? s then int_of s else if u <? 64 then int_of (2 * u) else float64
  | (3, x), (3, y) => float_of (x `max` y)
  | (3, f), (_, w) | (_, w), (3, f) => float_of (f `max` float_for w)
  | _, _ => object_
  end.

(** [cp.any(seed > mask)] and [cp.any(seed < mask)], on equal shapes: the
    two arrays are compared in their promoted element type. *)
Definition any_gt (a b : ndarray) : bool :=
  let t := promote_types (arr_dtype a) (arr_dtype b) in
  existsb (λ p, (cast t p.2 <? cast t p.1)%Z) (zip (arr_data a) (arr_data b)).
Definition any_lt (a b : ndarray) : bool :=
  let t := promote_types (arr_dtype a) (arr_dtype b) in
  existsb (λ p, (cast t p.1 <? cast t p.2)%Z) (zip (arr_data a) (arr_data b)).

(** [np.ones([3] * seed.ndim, dtype=bool)] *)
Definition default_footprint (n : nat) : ndarray :=
  let shape := replicate n 3 in
  NdArray bool_ shape (replicate (size_of shape) 1%Z).

(** [footprint.astype(bool, copy=True)] *)
Definition astype_bool (a : ndarray) : ndarray :=
  NdArray bool_ (arr_shape a)
          ((λ v, if (v =? 0)%Z then 0%Z else 1%Z) <$> arr_data a).

(** The local [footprint]: always an object of its own. *)
Definition own_footprint (seed : ndarray) (footprint : option loc) : comp loc :=
  match footprint with
  | None => alloc (default_footprint (ndim seed))
  | Some l => let* a := load l in alloc (astype_bool a)
  end.

(** [all([d % 2 == 1 for d in footprint.shape])] *)
Definition all_odd (shape : list nat) : bool :=
  forallb (λ d, d mod 2 =? 1) shape.

(** [all([(0 <= o < d) for o, d in zip(offset, footprint.shape)])],
    for an offset that is a vector of coordinates. *)
Definition offset_inside (o : list Z) (shape : list nat) : bool :=
  forallb (λ p, (0 <=? p.1)%Z && (p.1 <? Z.of_nat p.2)%Z) (zip o shape).

(** The offset stage.  Iterating an offset array of another rank than one
    does not produce coordinates; such a call is outside the model. *)
Definition resolve_offset (fshape : list nat) (offset : option ndarray)
  : comp (list nat) :=
  match offset with
  | None =>
      guard (all_odd fshape) InvalidFootprint;;
      ret ((λ d, d / 2) <$> fshape)
  | Some o =>
      guard (bool_decide (ndim o = length fshape)) (InvalidOffset NdimMismatch);;
      guard (bool_decide (ndim o = 1)) Unsupported;;
      guard (offset_inside (arr_data o) fshape) (InvalidOffset OutsideFootprint);;
      ret (Z.to_nat <$> arr_data o)
  end.

(** [footprint[tuple(slice(d, d + 1) for d in offset)] = False]: a tuple
    shorter than the rank selects whole axes after it, a longer one is
    rejected by the indexing. *)
Fixpoint in_slices (off : list nat) (idx : list nat) : bool :=
  match off, idx with
  | [], _ => true
  | o :: off', i :: idx' => (i =? o) && in_slices off' idx'
  | _ :: _, [] => false
  end.

Definition clear_center (off : list nat) (fp : ndarray) : ndarray :=
  NdArray (arr_dtype fp) (arr_shape fp)
    (zip_with (λ idx v, if in_slices off idx then 0%Z else v)
              (indices (arr_shape fp)) (arr_data fp)).

Definition cross_out (l : loc) (off : list nat) : comp ndarray :=
  let* fp := load l in
  guard (bool_decide (length off ≤ ndim fp)) Unsupported;;
  let cleared := clear_center off fp in
  write l cleared;;
  ret cleared.

(** ** Layout Builder *)

(** Index of a multi-index in the row-major buffer of a shape. *)
Fixpoint ravel (shape idx : list nat) : nat :=
  match shape, idx with
  | _ :: ds, i :: idx' => i * size_of ds + ravel ds idx'
  | _, _ => 0
  end.

(** [a.strides // a.itemsize] *)
Fixpoint strides (shape : list nat) : list nat :=
  match shape with
  | [] => []
  | _ :: ds => size_of ds :: strides ds
  end.

(** [tuple(s1 + s2 - 1 for s1, s2 in zip(seed.shape, footprint.shape))] *)
Definition padded_shape (sshape fshape : list nat) : list nat :=
  zip_with (λ s1 s2, s1 + s2 - 1) sshape fshape.

(** Membership of a padded multi-index in
    [tuple(slice(o, o + s) for o, s in zip(offset, seed.shape))]. *)
Fixpoint inside (off sshape idx : list nat) : bool :=
  match off, sshape, idx with
  | o :: off', s :: sshape', i :: idx' =>
      (o <=? i) && (i <? o + s) && inside off' sshape' idx'
  | _, _, _ => true
  end.

(** One channel of [images], a buffer of the element type [t]: the array
    written at [inside_slices] into a buffer filled with the pad value.  The
    fill and the write both convert to [t]. *)
Definition embed (t : dtype) (pad : Z) (off : list nat) (a : ndarray)
  (pshape : list nat) : list Z :=
  (λ idx, cast t (if inside off (arr_shape a) idx
                  then default pad
                         (arr_data a
                            !! ravel (arr_shape a) (zip_with Nat.sub idx off))
                  else pad)) <$> indices pshape.

(** [cp.min(seed).item()] and [cp.max(seed).item()] *)
Definition array_min (a : ndarray) : result Z :=
  match arr_data a with
  | [] => Err EmptyReduction
  | v :: vs => Ok (foldr Z.min v vs)
  end.
Definition array_max (a : ndarray) : result Z :=
  match arr_data a with
  | [] => Err EmptyReduction
  | v :: vs => Ok (foldr Z.max v vs)
  end.

Inductive method_kind : Set := Dilation | Erosion.

Definition parse_method (method : string) : result method_kind :=
  if String.eqb method "dilation" then Ok Dilation
  else if String.eqb method "erosion" then Ok Erosion
  else Err InvalidMethod.

Definition pad_value (m : method_kind) (seed : ndarray) : result Z :=
  match m with
  | Dilation => array_min seed
  | Erosion => array_max seed
  end.

(** The neighbor offsets: one flat delta per footprint cell left set. *)
Definition footprint_offsets (fp : ndarray) (off : list nat) : list (list Z) :=
  (λ c, zip_with (λ i o, Z.of_nat i - Z.of_nat o)%Z c.1 off)
    <$> filter (λ c, c.2 ≠ 0%Z) (zip (indices (arr_shape fp)) (arr_data fp)).

(** [np.sum(value_stride * footprint_offset)] *)
Definition stride_sum (value_stride : list nat) (delta : list Z) : Z :=
  foldr Z.add 0%Z (zip_with (λ s d, Z.of_nat s * d)%Z value_stride delta).

Definition nb_strides (pshape : list nat) (fp : ndarray) (off : list nat)
  : list Z :=
  stride_sum (strides pshape) <$> footprint_offsets fp off.

(** ** Index width *)

(** The least and greatest integer of a signed type; [object_] holds every
    Python integer. *)
Definition int_bits (t : dtype) : option Z :=
  match t with
  | int8 => Some 8%Z | int16 => Some 16%Z | int32 => Some 32%Z
  | int64 => Some 64%Z
  | _ => None
  end.

Definition representable (t : dtype) (z : Z) : Prop :=
  match t with
  | object_ => True
  | _ => match int_bits t with
         | Some w => (- 2 ^ (w - 1) ≤ z < 2 ^ (w - 1))%Z
         | None => False
         end
  end.

(** [np.min_scalar_type(z)] for a Python integer [z <= 0]: zero gets the
    narrowest unsigned type, a negative number the narrowest signed type
    that holds it. *)
Definition min_scalar_type (z : Z) : dtype :=
  if (z =? 0)%Z then uint8
  else if (- 2 ^ 7 <=? z)%Z then int8
  else if (- 2 ^ 15 <=? z)%Z then int16
  else if (- 2 ^ 31 <=? z)%Z then int32
  else if (- 2 ^ 63 <=? z)%Z then int64
  else object_.

(** The type of [prev], [next], [nb_strides] and [index_sorted]. *)
Definition signed_int_dtype (old_reconstruction_pyx : bool) (isize : nat)
  : dtype :=
  if old_reconstruction_pyx then int32
  else promote_types (min_scalar_type (- Z.of_nat isize)) int32.

(** [np.dtype(signed_int_dtype.char.upper())] *)
Definition unsigned_int_dtype (old_reconstruction_pyx : bool) (isize : nat)
  : dtype :=
  match signed_int_dtype old_reconstruction_pyx isize with
  | int8 => uint8 | int16 => uint16 | int32 => uint32 | int64 => uint64
  | t => t
  end.

(** ** Rank Transform *)

(** Modelled from the spec: the insertion that builds the value map of
    [rank_order] (section 4.2: an ordered sequence of distinct values). *)
Fixpoint insert_distinct (v : Z) (l : list Z) : list Z :=
  match l with
  | [] => [v]
  | u :: t => if (v <? u)%Z then v :: l
              else if (v =? u)%Z then l
              else u :: insert_distinct v t
  end.

(** Modelled from the spec: the value map of [rank_order], the ordered
    sequence of the distinct values of the buffer. *)
Definition distinct_sorted (buf : list Z) : list Z :=
  foldr insert_distinct [] buf.

(** Modelled from the spec: the rank of a sample, the position of its value
    in the value map (the number of distinct values below it). *)
Definition rank_of (value_map : list Z) (v : Z) : nat :=
  length (filter (λ u, (u < v)%Z) value_map).

(** Modelled from the spec: [rank_order] of
    [cucim.skimage.filters._rank_order], which is not among the sources at
    hand.  Section 4.2: from a flat buffer, the array of dense integer ranks
    and the value map with [value_map[rank[i]]] the value at [i]. *)
Definition rank_order (buf : list Z) : list nat * list Z :=
  let value_map := distinct_sorted buf in
  (rank_of value_map <$> buf, value_map).

(** The ranks and the value map that [reconstruction] hands to its loop,
    for the buffer [images] of the element type [t]: for erosion the buffer
    is negated before it is ranked and the value map is negated back, both
    in [t]. *)
Definition method_ranks (m : method_kind) (t : dtype) (images : list Z)
  : list nat * list Z :=
  match m with
  | Dilation => rank_order images
  | Erosion =>
      let (value_rank, value_map) := rank_order (negative t <$> images) in
      (value_rank, negative t <$> value_map)
  end.

(** ** Order Index *)

(** Arrays indexed by a signed position. *)
Definition getZ {A} (l : list A) (i : Z) : option A :=
  if (i <? 0)%Z then None else l !! Z.to_nat i.
Definition setZ {A} (l : list A) (i : Z) (v : A) : list A :=
  if (i <? 0)%Z then l else <[Z.to_nat i := v]> l.

(** [dest[where] = vals] for an index array. *)
Definition scatter (dest : list Z) (where_ : list nat) (vals : list nat)
  : list Z :=
  foldl (λ acc p, <[p.1 := Z.of_nat p.2]> acc) dest (zip where_ vals).

(** [a[:-1]] and [a[1:]] *)
Definition but_last {A} (l : list A) : list A := take (length l - 1) l.

Definition make_prev (isize : nat) (index_sorted : list nat) : list Z :=
  scatter (replicate isize (-1)%Z) (tail index_sorted) (but_last index_sorted).
Definition make_next (isize : nat) (index_sorted : list nat) : list Z :=
  scatter (replicate isize (-1)%Z) (but_last index_sorted) (tail index_sorted).

(** ** Propagation Engine *)

Record arena : Set := Arena {
  ranks : list nat;
  prev : list Z;
  next : list Z
}.

(** Modelled from the spec: removal of [p] from the traversal list
    (sections 3 and 4.4, "remove from current slot"); the list ends carry the
    terminator and have no cell to update. *)
Definition unlink (p : Z) (a : arena) : option arena :=
  nprev ← getZ (prev a) p;
  nnext ← getZ (next a) p;
  let next' := if (nprev =? -1)%Z then next a else setZ (next a) nprev nnext in
  let prev' := if (nnext =? -1)%Z then prev a else setZ (prev a) nnext nprev in
  Some (Arena (ranks a) prev' next').

(** Modelled from the spec: insertion of [p] right after [link] (section
    4.4, "reinsert adjacent to the position whose rank now matches"). *)
Definition insert_after (link p : Z) (a : arena) : option arena :=
  nnext ← getZ (next a) link;
  let next' := setZ (setZ (next a) p nnext) link p in
  let prev' := setZ (prev a) p link in
  let prev'' := if (nnext =? -1)%Z then prev' else setZ prev' nnext p in
  Some (Arena (ranks a) prev'' next').

(** Modelled from the spec: one neighbor of one visited position in the
    propagation loop (section 4.4, steps 1 and 2).  For the seed-channel
    position [p] and the neighbor offset [d], with [q = p + d]: when the rank
    of [q] exceeds the rank of [p], the candidate is
    [min(rank[q], rank[p + image_stride])]; a candidate above the rank of [p]
    is stored and [p] is relinked next to the position whose rank it now
    matches ([q], or the mask cell of [p]).  The clause on the mask cap is
    read as the test that [p] is strictly below its own cap, made before the
    neighbor is looked at.  Leaving the buffer is fatal ([None]). *)
Definition pull (image_stride p d : Z) (a : arena) : option arena :=
  r ← getZ (ranks a) p;
  cap ← getZ (ranks a) (p + image_stride);
  if r <? cap then
    rq ← getZ (ranks a) (p + d);
    if r <? rq then
      let cand := rq `min` cap in
      if r <? cand then
        let link := if rq <=? cap then (p + d)%Z else (p + image_stride)%Z in
        a1 ← unlink p (Arena (setZ (ranks a) p cand) (prev a) (next a));
        insert_after link p a1
      else Some a
    else Some a
  else Some a.

(** Modelled from the spec: the neighbors of a visited position, in the
    order of the Neighbor Offset Set. *)
Fixpoint visit (image_stride : Z) (nb : list Z) (p : Z) (a : arena)
  : option arena :=
  match nb with
  | [] => Some a
  | d :: nb' => a' ← pull image_stride p d a; visit image_stride nb' p a'
  end.

(** Modelled from the spec: the walk from [p] along [next] (section 4.4).
    Positions of the mask channel are passed over; the walk ends at the
    position whose [next] is the terminator (step 3).  [fuel] bounds the
    number of positions visited. *)
Fixpoint walk (fuel : nat) (image_stride : Z) (nb : list Z) (p : Z) (a : arena)
  : result arena :=
  match fuel with
  | 0 => Err LoopDiverged
  | S fuel' =>
      match (if (p <? image_stride)%Z then visit image_stride nb p a
             else Some a) with
      | None => Err LoopFatal
      | Some a' =>
          match getZ (next a') p with
          | None => Err LoopFatal
          | Some nx => if (nx =? -1)%Z then Ok a'
                       else walk fuel' image_stride nb nx a'
          end
      end
  end.

(** Modelled from the spec: the bound of section 4.4 on the work of the
    loop, as a number of visits: every position can be raised at most once
    per rank, and between two raises the walk only advances. *)
Definition budget (image_stride : nat) (a : arena) : nat :=
  (image_stride * S (max_list (ranks a)) + 1) * S (length (ranks a)).

(** Modelled from the spec: [reconstruction_loop], the Propagation Engine
    of section 4.4.  The source imports it from the compiled module
    [skimage.morphology._grayreconstruct], which is not among the sources at
    hand, and calls it on the rank buffer, the two link arrays, the neighbor
    offsets, the head of the list and the channel stride; the ranks it
    leaves are its result. *)
Definition reconstruction_loop (value_rank : list nat) (prev next nb : list Z)
  (start : Z) (image_stride : nat) : result (list nat) :=
  let a := Arena value_rank prev next in
  match walk (budget image_stride a) (Z.of_nat image_stride) nb start a with
  | Ok a' => Ok (ranks a')
  | Err e => Err e
  end.

(** ** Result Extractor *)

(** Length of [slice(o, o + s)] on an axis of extent [d]. *)
Definition slice_length (o s d : nat) : nat := (o + s) `min` d - o `min` d.

(** [rec_img[inside_slices]] for the buffer [rec_img] of shape [pshape]. *)
Definition crop (dt : dtype) (off sshape pshape : list nat) (rec_img : list Z)
  : ndarray :=
  let shape :=
    zip_with (λ os d, slice_length os.1 os.2 d) (zip off sshape) pshape in
  NdArray dt shape
    ((λ idx, default 0%Z (rec_img !! ravel pshape (zip_with Nat.add idx off)))
       <$> indices shape).

(** ** The public operation *)

Section Reconstruction.

(** [cp.argsort] is a library routine: any function that returns a
    permutation of the positions along which the samples ascend. *)
Variable argsort : list Z → list nat.

(** What the Layout Builder, the Rank Transform and the Order Index hand to
    the loop. *)
Record layout : Set := Layout {
  lay_shape : list nat;        (* [dims[1:]] *)
  lay_images : list Z;         (* [images.ravel()] *)
  lay_stride : nat;            (* [image_stride] *)
  lay_nb : list Z;             (* [nb_strides] *)
  lay_index : list nat;        (* [index_sorted] *)
  lay_prev : list Z;
  lay_next : list Z;
  lay_rank : list nat;         (* [value_rank] *)
  lay_map : list Z             (* [value_map] *)
}.

Definition build (seed mask : ndarray) (m : method_kind) (pad : Z)
  (fp : ndarray) (off : list nat) : layout :=
  let pshape := padded_shape (arr_shape seed) (arr_shape fp) in
  let images_dtype := promote_types (arr_dtype seed) (arr_dtype mask) in
  let images :=
    embed images_dtype pad off seed pshape
    ++ embed images_dtype pad off mask pshape in
  let isize := length images in
  let index_sorted :=
    match m with
    | Dilation => reverse (argsort images)
    | Erosion => argsort images
    end in
  let (value_rank, value_map) := method_ranks m images_dtype images in
  Layout pshape images (size_of pshape) (nb_strides pshape fp off)
         index_sorted (make_prev isize index_sorted)
         (make_next isize index_sorted) value_rank value_map.

(** The call of the loop on a layout. *)
Definition run_loop (L : layout) : result (list nat) :=
  match lay_index L !! 0 with
  | None => Err Unsupported
  | Some start =>
      reconstruction_loop (lay_rank L) (lay_prev L) (lay_next L) (lay_nb L)
                          (Z.of_nat start) (lay_stride L)
  end.

(** Everything after the arguments are accepted: the buffer, the traversal
    list, the loop and the extraction. *)
Definition propagate (seed mask : ndarray) (m : method_kind) (pad : Z)
  (fp : ndarray) (off : list nat) : result ndarray :=
  let L := build seed mask m pad fp off in
  let images_dtype := promote_types (arr_dtype seed) (arr_dtype mask) in
  match run_loop L with
  | Err e => Err e
  | Ok value_rank' =>
      let rec_img :=
        (λ r, default 0%Z (lay_map L !! r))
          <$> take (lay_stride L) value_rank' in
      Ok (crop images_dtype off (arr_shape seed) (lay_shape L) rec_img)
  end.

(** [reconstruction].  The import of the loop is taken to succeed: the
    module itself imports scikit-image. *)
Definition reconstruction (seed mask : ndarray) (method : string)
  (footprint : option loc) (offset : option ndarray) : comp ndarray :=
  guard (bool_decide (arr_shape seed = arr_shape mask)) ShapeMismatch;;
  guard (negb (String.eqb method "dilation" && any_gt seed mask))
        InvalidSeedMask;;
  guard (negb (String.eqb method "erosion" && any_lt seed mask))
        InvalidSeedMask;;
  let* l := own_footprint seed footprint in
  let* fp0 := load l in
  let* off := resolve_offset (arr_shape fp0) offset in
  let* fp := cross_out l off in
  let* m := lift (parse_method method) in
  let* pad := lift (pad_value m seed) in
  guard (bool_decide (ndim fp = ndim seed ∧ length off = ndim seed))
        Unsupported;;
  lift (propagate seed mask m pad fp off).

End Reconstruction.

(** An instance of [argsort]: a stable merge sort of the positions. *)
Definition key_le (a b : Z * nat) : Prop := (a.1 ≤ b.1)%Z.

#[global] Instance key_le_dec : RelDecision key_le.
Proof. intros a b. unfold key_le. apply _. Defined.

Definition argsort_stable (l : list Z) : list nat :=
  snd <$> merge_sort key_le (zip l (seq 0 (length l))).

(** * Vocabulary of the statements *)

(** [post m h Q]: the outcome of [m] from the store [h] satisfies [Q]. *)
Definition post {A} (m : comp A) (h : gmap loc ndarray)
  (Q : gmap loc ndarray → result A → Prop) : Prop :=
  Q (m h).1 (m h).2.

(** The shape of the local footprint of a call. *)
Definition footprint_shape (h : gmap loc ndarray) (seed : ndarray)
  (footprint : option loc) : option (list nat) :=
  match footprint with
  | None => Some (replicate (ndim seed) 3)
  | Some l => arr_shape <$> h !! l
  end.

(** The two ordering tests of the source, as the call goes through them. *)
Definition ordering_ok (seed mask : ndarray) (method : string) : bool :=
  negb (String.eqb method "dilation" && any_gt seed mask)
  && negb (String.eqb method "erosion" && any_lt seed mask).

(** The local footprint before its center is crossed out. *)
Definition local_footprint (h : gmap loc ndarray) (seed : ndarray)
  (footprint : option loc) : option ndarray :=
  match footprint with
  | None => Some (default_footprint (ndim seed))
  | Some l => astype_bool <$> h !! l
  end.

(** The outcome of the offset stage does not depend on the store. *)
Definition offset_result (fshape : list nat) (offset : option ndarray)
  : result (list nat) :=
  (resolve_offset fshape offset ∅).2.

(** The stages of an accepted call that follow the offset stage. *)
Definition after_offset (argsort : list Z → list nat) (seed mask : ndarray)
  (method : string) (fp0 : ndarray) (off : list nat) : result ndarray :=
  if bool_decide (length off ≤ ndim fp0) then
    match parse_method method with
    | Err e => Err e
    | Ok m =>
        match pad_value m seed with
        | Err e => Err e
        | Ok pad =>
            if bool_decide (ndim fp0 = ndim seed ∧ length off = ndim seed)
            then propagate argsort seed mask m pad (clear_center off fp0) off
            else Err Unsupported
        end
    end
  else Err Unsupported.

(** The offset lies inside the footprint on every axis. *)
Definition offset_within (o : list Z) (fshape : list nat) : Prop :=
  ∀ k c d, o !! k = Some c → fshape !! k = Some d → (0 ≤ c < Z.of_nat d)%Z.

(** Arrays of example calls. *)
Definition ex_seed : ndarray := NdArray int64 [3] [0; 2; 0]%Z.
Definition ex_mask : ndarray := NdArray int64 [3] [1; 3; 1]%Z.
Definition ex_footprint : ndarray := NdArray float64 [3] [1; 1; 1]%Z.
Definition ex_store : gmap loc ndarray := {[ 1%positive := ex_footprint ]}.

(** A list ascends strictly. *)
Definition ascending (l : list Z) : Prop := StronglySorted Z.lt l.

(** A value of an element type: a sample that the conversion to the type
    leaves as it is. *)
Definition holds (t : dtype) (v : Z) : Prop := cast t v = v.

(** The order of a method on the samples: [key m a <= key m b] reads
    [a <= b] for dilation and [b <= a] for erosion. *)
Definition key (m : method_kind) (v : Z) : Z :=
  match m with
  | Dilation => v
  | Erosion => (- v)%Z
  end.

(** What the ranks of a method are taken on: the samples for dilation, the
    samples negated in the element type of the buffer for erosion. *)
Definition ikey (m : method_kind) (t : dtype) (v : Z) : Z :=
  match m with
  | Dilation => v
  | Erosion => negative t v
  end.

(** The least value of an integer type: the value that its unary minus
    leaves in place. *)
Definition least_of (t : dtype) : option Z :=
  match t with
  | int8 => Some (- 2 ^ 7)%Z
  | int16 => Some (- 2 ^ 15)%Z
  | int32 => Some (- 2 ^ 31)%Z
  | int64 => Some (- 2 ^ 63)%Z
  | uint8 | uint16 | uint32 | uint64 => Some 0%Z
  | _ => None
  end.

(** The sample on which the negation of erosion wraps. *)
Definition wrapped (m : method_kind) (t : dtype) (v : Z) : Prop :=
  m = Erosion ∧ least_of t = Some v.

Definition head_or (l : list Z) (d : Z) : Z :=
  match l with
  | [] => d
  | x :: _ => x
  end.

Definition last_or (l : list Z) (d : Z) : Z := default d (last l).

(** The cells of [l] are linked in this order between [before] and
    [after]. *)
Fixpoint chain (pv nx : list Z) (before : Z) (l : list Z) (after : Z) : Prop :=
  match l with
  | [] => True
  | x :: t => getZ pv x = Some before ∧ getZ nx x = Some (head_or t after)
              ∧ chain pv nx x t after
  end.

(** The traversal list [l] over an arena of [n] cells. *)
Record listed (n : nat) (a : arena) (l : list Z) : Prop := Listed {
  listed_ranks : length (ranks a) = n;
  listed_prev : length (prev a) = n;
  listed_next : length (next a) = n;
  listed_nodup : NoDup l;
  listed_range : ∀ x, x ∈ l → (0 ≤ x < Z.of_nat n)%Z;
  listed_chain : chain (prev a) (next a) (-1) l (-1)
}.

(** The neighbor [p + d] can no longer raise [p]. *)
Definition settled (image_stride : Z) (rk : list nat) (p d : Z) : Prop :=
  ∀ r cap rq, getZ rk p = Some r →
              getZ rk (p + image_stride) = Some cap →
              getZ rk (p + d) = Some rq →
              (rq `min` cap) ≤ r.

(** The step from [a] with list [l] to [a'] with list [l'] raised [p]. *)
Definition raised (nb : list Z) (image_stride : Z) (p : Z)
  (a : arena) (l : list Z) (a' : arena) (l' : list Z) : Prop :=
  ∃ r cap cand link l1 l2 k1 k2,
    getZ (ranks a) p = Some r
    ∧ getZ (ranks a) (p + image_stride) = Some cap
    ∧ getZ (ranks a) link = Some cand
    ∧ r < cand ≤ cap
    ∧ link ≠ p
    ∧ ranks a' = setZ (ranks a) p cand
    ∧ l = l1 ++ p :: l2
    ∧ l1 ++ l2 = k1 ++ link :: k2
    ∧ l' = k1 ++ link :: p :: k2
    ∧ ∃ d rq, d ∈ nb ∧ getZ (ranks a) (p + d) = Some rq
              ∧ cand = rq `min` cap.

(** Cells strictly below their cap only have neighbors inside the buffer. *)
Definition safe (image_stride : nat) (nb : list Z) (rk : list nat) : Prop :=
  ∀ p r cap d,
    (0 ≤ p < Z.of_nat image_stride)%Z →
    getZ rk p = Some r → getZ rk (p + Z.of_nat image_stride) = Some cap →
    r < cap → d ∈ nb →
    (0 ≤ p + d < 2 * Z.of_nat image_stride)%Z.

(** Sum of the seed-channel ranks: the quantity that every raise
    increases. *)
Definition total (s : nat) (a : arena) : nat := sum_list (take s (ranks a)).

Record engine (s : nat) (nb : list Z) (M : nat) (a : arena) (l : list Z)
  : Prop := Engine {
  engine_listed : listed (2 * s) a l;
  engine_complete : ∀ x, (0 ≤ x < 2 * Z.of_nat s)%Z → x ∈ l;
  engine_safe : safe s nb (ranks a);
  engine_bounded : Forall (λ r, r < M) (ranks a)
}.

(** No neighbor can raise the seed-channel position [p] any more. *)
Definition stable_at (s : nat) (nb : list Z) (a : arena) (p : Z) : Prop :=
  (0 ≤ p < Z.of_nat s)%Z → ∀ d, d ∈ nb → settled (Z.of_nat s) (ranks a) p d.

(** A multi-index within the extents of a shape. *)
Definition valid_index (shape idx : list nat) : Prop := Forall2 lt idx shape.

(** The contract of [argsort]: a permutation of the positions ... *)
Definition argsort_permutes (argsort : list Z → list nat) : Prop :=
  ∀ l, argsort l ≡ₚ seq 0 (length l).

(** ... along which the samples ascend. *)
Definition argsort_ascends (argsort : list Z → list nat) : Prop :=
  ∀ l i j x y vx vy,
    i ≤ j → argsort l !! i = Some x → argsort l !! j = Some y →
    l !! x = Some vx → l !! y = Some vy → (vx ≤ vy)%Z.

(** What the validation leaves of its arguments for the later stages. *)
Record accepted (seed mask fp : ndarray) (off : list nat) : Prop := Accepted {
  acc_shape : arr_shape seed = arr_shape mask;
  acc_seed : wf_array seed;
  acc_mask : wf_array mask;
  acc_nonempty : arr_data seed ≠ [];
  acc_ndim : ndim fp = ndim seed;
  acc_offset : Forall2 lt off (arr_shape fp)
}.

(** The ranks only grow, the mask channel keeps its ranks, and a rank that
    has grown is at most the cap of its position. *)
Definition grows (s : nat) (rk0 rk : list nat) : Prop :=
  length rk = length rk0
  ∧ ∀ x r0 r, rk0 !! x = Some r0 → rk !! x = Some r →
              r0 ≤ r ∧ (s ≤ x → r = r0)
              ∧ (∀ cap, rk0 !! (x + s) = Some cap → r = r0 ∨ r ≤ cap).

(** The call passes every guard of the validation: the shapes agree, the
    ordering tests and the method are fine, the footprint has the rank of
    the seed and the offset stage returns [off].  The arrays hold one sample
    per cell and the seed holds at least one. *)
Record accepts (h : gmap loc ndarray) (seed mask : ndarray) (method : string)
  (footprint : option loc) (offset : option ndarray)
  (m : method_kind) (fp0 : ndarray) (off : list nat) : Prop := Accepts {
  call_shape : arr_shape seed = arr_shape mask;
  call_seed : wf_array seed;
  call_mask : wf_array mask;
  call_nonempty : arr_data seed ≠ [];
  call_order : ordering_ok seed mask method = true;
  call_method : parse_method method = Ok m;
  call_footprint : local_footprint h seed footprint = Some fp0;
  call_ndim : ndim fp0 = ndim seed;
  call_offset : offset_result (arr_shape fp0) offset = Ok off;
  call_off_ndim : length off = ndim seed
}.

Definition rk_at (rk : list nat) (x : Z) : nat := default 0 (getZ rk x).

(** A position of rank zero whose cap, if it has one, is zero as well: it
    is never raised and raises no other position. *)
Definition frozen (s : nat) (rk : list nat) (x : Z) : Prop :=
  rk_at rk x = 0
  ∧ ((0 ≤ x < Z.of_nat s)%Z → rk_at rk (x + Z.of_nat s) = 0).

(** The ranks do not increase along the list, frozen positions apart. *)
Definition descending (s : nat) (rk : list nat) (l : list Z) : Prop :=
  StronglySorted (λ x y, rk_at rk y ≤ rk_at rk x ∨ frozen s rk x) l.

(** Every position that precedes [p] in the list is stable. *)
Definition prefix_stable (s : nat) (nb : list Z) (rk : list nat)
  (l : list Z) (p : Z) : Prop :=
  ∀ l1 l2 x, l = l1 ++ p :: l2 → x ∈ l1 →
             (0 ≤ x < Z.of_nat s)%Z → ∀ d, d ∈ nb → settled (Z.of_nat s) rk x d.

(** No seed-channel position can be raised any more. *)
Definition all_stable (s : nat) (nb : list Z) (rk : list nat) : Prop :=
  ∀ x, (0 ≤ x < Z.of_nat s)%Z → ∀ d, d ∈ nb → settled (Z.of_nat s) rk x d.

(** Some sample of [a] exceeds the sample of [b] at the same position, the
    two compared in the promoted element type of the arrays. *)
Definition exceeds (a b : ndarray) : Prop :=
  ∃ i x y, arr_data a !! i = Some x ∧ arr_data b !! i = Some y
           ∧ (cast (promote_types (arr_dtype a) (arr_dtype b)) y
              < cast (promote_types (arr_dtype a) (arr_dtype b)) x)%Z.

(** The displacement of the footprint cell [c] from the center [off]: a row
    of [footprint_mgrid]. *)
Definition displacement (off : list nat) (c : list nat) : list Z :=
  zip_with (λ i o, Z.of_nat i - Z.of_nat o)%Z c off.

(** The cells of a footprint that are set, in row-major order. *)
Definition set_cells (fp : ndarray) : list (list nat) :=
  fst <$> filter (λ c : list nat * Z, c.2 ≠ 0%Z)
            (zip (indices (arr_shape fp)) (arr_data fp)).

(** Arrays and the layout of further example calls. *)
Definition ex_seed2 : ndarray := NdArray int64 [2; 2] [0; 2; 0; 1]%Z.
Definition ex_mask2 : ndarray := NdArray int64 [2; 2] [1; 3; 1; 1]%Z.
Definition ex_layout : layout :=
  build argsort_stable ex_seed ex_mask Dilation 0
        (clear_center [1] (default_footprint 1)) [1].

(** * Properties *)

(** ** Samples of an element type *)

Local Open Scope Z_scope.

Lemma round_float_opp p v : round_float p (- v) = - round_float p v.
Proof.
  unfold round_float. rewrite Z.abs_opp, Z.sgn_opp.
  destruct (Z.abs v <? 2 ^ p); lia.
Qed.

(** A significand of [p] bits at an exponent is a fixed point of the
    rounding. *)
Lemma round_float_fix p s q e :
  0 < p → s = 1 ∨ s = -1 → 1 ≤ e → 2 ^ (p - 1) ≤ q ≤ 2 ^ p →
  round_float p (s * (q * 2 ^ e)) = s * (q * 2 ^ e).
Proof.
  intros Hp Hs He Hq.
  assert (0 < 2 ^ p) as Hpp by (apply Z.pow_pos_nonneg; lia).
  assert (0 < 2 ^ (p - 1)) as Hpp1 by (apply Z.pow_pos_nonneg; lia).
  assert (0 < 2 ^ e) as Hpe by (apply Z.pow_pos_nonneg; lia).
  assert (0 < 2 ^ (e - 1)) as Hpe1 by (apply Z.pow_pos_nonneg; lia).
  assert (2 ^ p = 2 * 2 ^ (p - 1)) as Hp2.
  { rewrite <-Z.pow_succ_r by lia. f_equal. lia. }
  assert (2 ^ e = 2 * 2 ^ (e - 1)) as He2.
  { rewrite <-Z.pow_succ_r by lia. f_equal. lia. }
  assert (0 < q * 2 ^ e) as Ha by (apply Z.mul_pos_pos; lia).
  assert (2 ^ p ≤ q * 2 ^ e) as Hbig.
  { rewrite Hp2, He2.
    assert (2 ^ (p - 1) * 2 ^ (e - 1) ≤ q * 2 ^ (e - 1))
      by (apply Z.mul_le_mono_nonneg_r; lia).
    assert (0 < 2 ^ (p - 1) * 2 ^ (e - 1)) by (apply Z.mul_pos_pos; lia).
    assert (1 * 2 ^ (p - 1) ≤ 2 ^ (e - 1) * 2 ^ (p - 1))
      by (apply Z.mul_le_mono_nonneg_r; lia).
    generalize dependent (2 ^ (p - 1)). generalize dependent (2 ^ (e - 1)).
    intros. nia. }
  remember (q * 2 ^ e) as a eqn:Hadef.
  assert (Z.abs (s * a) = a) as Habs by (destruct Hs as [-> | ->]; lia).
  assert (Z.sgn (s * a) = s) as Hsgn.
  { destruct Hs as [-> | ->]; [apply Z.sgn_pos|apply Z.sgn_neg]; lia. }
  unfold round_float. rewrite Habs, Hsgn.
  rewrite (proj2 (Z.ltb_ge _ _) Hbig). f_equal.
  destruct (decide (q < 2 ^ p)) as [Hlt|Hge].
  - assert (Z.log2 a = p - 1 + e) as ->.
    { apply Z.log2_unique; [lia|].
      replace (Z.succ (p - 1 + e)) with (p + e) by lia.
      rewrite !Z.pow_add_r by lia. rewrite Hadef.
      split; [apply Z.mul_le_mono_nonneg_r; lia|apply Zmult_lt_compat_r; lia]. }
    replace (p - 1 + e + 1 - p) with e by lia.
    assert (a / 2 ^ e = q) as -> by (rewrite Hadef; apply Z.div_mul; lia).
    assert (a mod 2 ^ e = 0) as -> by (rewrite Hadef; apply Z.mod_mul; lia).
    by rewrite (proj2 (Z.ltb_lt _ _)) by lia.
  - assert (q = 2 ^ p) as Hqp by lia.
    assert (a = 2 ^ (p + e)) as Ha'.
    { rewrite Hadef, Hqp. by rewrite <-Z.pow_add_r by lia. }
    assert (Z.log2 a = p + e) as ->.
    { rewrite Ha'. apply Z.log2_pow2. lia. }
    replace (p + e + 1 - p) with (e + 1) by lia.
    assert (a = 2 ^ (p - 1) * 2 ^ (e + 1)) as Ha''.
    { rewrite Ha', <-Z.pow_add_r by lia. f_equal. lia. }
    assert (0 < 2 ^ (e + 1)) by (apply Z.pow_pos_nonneg; lia).
    assert (a / 2 ^ (e + 1) = 2 ^ (p - 1)) as ->
      by (rewrite Ha''; apply Z.div_mul; lia).
    assert (a mod 2 ^ (e + 1) = 0) as ->
      by (rewrite Ha''; apply Z.mod_mul; lia).
    replace (e + 1 - 1) with e by lia.
    rewrite (proj2 (Z.ltb_lt _ _)) by lia.
    rewrite Ha''. lia.
Qed.

Lemma round_float_idem p v :
  0 < p → round_float p (round_float p v) = round_float p v.
Proof.
  intros Hp. unfold round_float at 2 3.
  destruct (Z.abs v <? 2 ^ p) eqn:Hsmall.
  { unfold round_float. by rewrite Hsmall. }
  apply Z.ltb_ge in Hsmall.
  set (a := Z.abs v) in *.
  assert (0 < 2 ^ p) as Hpp by (apply Z.pow_pos_nonneg; lia).
  assert (0 < a) as Ha by lia.
  pose proof (Z.log2_spec a Ha) as [Hlo Hhi].
  set (k := Z.log2 a) in *.
  assert (p ≤ k) as Hpk.
  { destruct (decide (p ≤ k)) as [|Hn]; [done|]. exfalso.
    assert (2 ^ (Z.succ k) ≤ 2 ^ p) by (apply Z.pow_le_mono_r; lia). lia. }
  set (e := k + 1 - p).
  assert (1 ≤ e) as He by (unfold e; lia).
  assert (0 < 2 ^ e) as Hpe by (apply Z.pow_pos_nonneg; lia).
  assert (2 ^ k = 2 ^ (p - 1) * 2 ^ e) as Hk.
  { rewrite <-Z.pow_add_r by lia. f_equal. unfold e. lia. }
  assert (2 ^ Z.succ k = 2 ^ p * 2 ^ e) as Hk1.
  { rewrite <-Z.pow_add_r by lia. f_equal. unfold e. lia. }
  assert (0 < 2 ^ (p - 1)) as Hpp1 by (apply Z.pow_pos_nonneg; lia).
  set (q := a / 2 ^ e). set (r := a mod 2 ^ e).
  assert (a = 2 ^ e * q + r ∧ 0 ≤ r < 2 ^ e) as [Hdiv Hr].
  { split; [apply Z.div_mod; lia|apply Z.mod_pos_bound; lia]. }
  assert (2 ^ (p - 1) ≤ q < 2 ^ p) as Hq by nia.
  set (q' := if r <? 2 ^ (e - 1) then q
             else if 2 ^ (e - 1) <? r then q + 1
             else if Z.even q then q else q + 1).
  assert (q' = q ∨ q' = q + 1) as Hq'.
  { unfold q'. repeat case_match; auto. }
  apply round_float_fix; [done| |done|lia].
  unfold a in Ha. destruct v; simpl in *; lia.
Qed.

Ltac dtype_arith :=
  unfold wrap_signed, wrap_unsigned in *;
  change (2 ^ 8) with 256 in *; change (2 ^ (8 - 1)) with 128 in *;
  change (2 ^ 7) with 128 in *;
  change (2 ^ 16) with 65536 in *; change (2 ^ (16 - 1)) with 32768 in *;
  change (2 ^ 15) with 32768 in *;
  change (2 ^ 32) with 4294967296 in *;
  change (2 ^ (32 - 1)) with 2147483648 in *;
  change (2 ^ 31) with 2147483648 in *;
  change (2 ^ 64) with 18446744073709551616 in *;
  change (2 ^ (64 - 1)) with 9223372036854775808 in *;
  change (2 ^ 63) with 9223372036854775808 in *;
  Z.div_mod_to_equations; lia.

Lemma cast_idem t v : cast t (cast t v) = cast t v.
Proof.
  destruct t; simpl; try (by apply round_float_idem); try done;
    try dtype_arith.
  by repeat case_match.
Qed.

Lemma holds_cast t v : holds t (cast t v).
Proof. apply cast_idem. Qed.

Lemma negative_holds t v : holds t v → holds t (negative t v).
Proof.
  unfold holds. intros _.
  destruct t; try apply (cast_idem _ (- v)). simpl. by repeat case_match.
Qed.

Lemma negative_involutive t v : holds t v → negative t (negative t v) = v.
Proof.
  unfold holds.
  destruct t; simpl; intros Hv;
    try (by rewrite (round_float_opp _ v), Hv, Z.opp_involutive);
    try dtype_arith.
  destruct (Z.eqb_spec v 0); simpl in *; lia.
Qed.

Lemma ikey_holds m t v : holds t v → holds t (ikey m t v).
Proof. destruct m; [done|apply negative_holds]. Qed.

Lemma ikey_involutive m t v : holds t v → ikey m t (ikey m t v) = v.
Proof. destruct m; [done|apply negative_involutive]. Qed.

Lemma ikey_order m t a b :
  holds t a → holds t b → (key m a ≤ key m b) →
  ikey m t a ≤ ikey m t b ∨ wrapped m t b.
Proof.
  unfold wrapped, holds. destruct m; simpl; [by left|].
  intros Ha Hb Hab.
  destruct t; simpl in *;
    try (left; rewrite !round_float_opp, Ha, Hb; lia);
    try (left; lia).
  - left. destruct (Z.eqb_spec a 0), (Z.eqb_spec b 0); lia.
  - destruct (decide (b = - 2 ^ 7)) as [->|]; [by right|left]. dtype_arith.
  - destruct (decide (b = - 2 ^ 15)) as [->|]; [by right|left]. dtype_arith.
  - destruct (decide (b = - 2 ^ 31)) as [->|]; [by right|left]. dtype_arith.
  - destruct (decide (b = - 2 ^ 63)) as [->|]; [by right|left]. dtype_arith.
  - destruct (decide (b = 0)) as [->|]; [by right|left]. dtype_arith.
  - destruct (decide (b = 0)) as [->|]; [by right|left]. dtype_arith.
  - destruct (decide (b = 0)) as [->|]; [by right|left]. dtype_arith.
  - destruct (decide (b = 0)) as [->|]; [by right|left]. dtype_arith.
Qed.

Lemma wrapped_least m t b c :
  wrapped m t b → holds t c → ikey m t b ≤ ikey m t c.
Proof.
  unfold wrapped, holds. intros [-> Hb] Hc. simpl.
  destruct t; simpl in *; simplify_eq; dtype_arith.
Qed.

Lemma wrapped_top m t b c :
  wrapped m t b → holds t c → key m c ≤ key m b.
Proof.
  unfold wrapped, holds. intros [-> Hb] Hc. simpl.
  destruct t; simpl in *; simplify_eq; dtype_arith.
Qed.

Local Open Scope nat_scope.

(** ** Reasoning about computations *)

Lemma post_bind {A B} (m : comp A) (k : A → comp B) h Q :
  post m h (λ h1 r, match r with
                    | Ok a => post (k a) h1 Q
                    | Err e => Q h1 (Err e)
                    end) →
  post (bind m k) h Q.
Proof. unfold post, bind. by destruct (m h) as [h1 [a|e]]. Qed.

Lemma post_ret {A} (a : A) h (Q : _ → result A → Prop) :
  Q h (Ok a) → post (ret a) h Q.
Proof. done. Qed.

Lemma post_lift {A} (r : result A) h (Q : _ → result A → Prop) :
  Q h r → post (lift r) h Q.
Proof. done. Qed.

Lemma post_guard b e h (Q : _ → result unit → Prop) :
  (b = true → Q h (Ok tt)) → (b = false → Q h (Err e)) →
  post (guard b e) h Q.
Proof. destruct b; unfold post; simpl; auto. Qed.

Lemma post_load l h (Q : _ → result ndarray → Prop) :
  match h !! l with
  | Some a => Q h (Ok a)
  | None => Q h (Err Unsupported)
  end →
  post (load l) h Q.
Proof. unfold post, load. by destruct (h !! l). Qed.

Lemma post_alloc a h (Q : _ → result loc → Prop) :
  Q (<[fresh (dom h) := a]> h) (Ok (fresh (dom h))) → post (alloc a) h Q.
Proof. done. Qed.

Lemma post_write l a h (Q : _ → result unit → Prop) :
  Q (<[l := a]> h) (Ok tt) → post (write l a) h Q.
Proof. done. Qed.

Lemma post_mono {A} (m : comp A) h (Q Q' : _ → result A → Prop) :
  post m h Q → (∀ h' r, Q h' r → Q' h' r) → post m h Q'.
Proof. unfold post. auto. Qed.

Ltac post_step :=
  lazymatch goal with
  | |- post (bind _ _) _ _ => apply post_bind
  | |- post (guard _ _) _ _ => apply post_guard; intros ?
  | |- post (ret _) _ _ => apply post_ret
  | |- post (lift _) _ _ => apply post_lift
  | |- post (load _) _ _ => apply post_load
  | |- post (alloc _) _ _ => apply post_alloc
  | |- post (write _ _) _ _ => apply post_write
  end.

(** ** Validation *)

(** The offset stage leaves the store alone. *)
Lemma post_resolve_offset fshape offset h (Q : _ → result (list nat) → Prop) :
  (∀ r, (resolve_offset fshape offset h).2 = r → Q h r) →
  post (resolve_offset fshape offset) h Q.
Proof.
  intros HQ. unfold post.
  assert ((resolve_offset fshape offset h).1 = h) as ->; [|by apply HQ].
  unfold resolve_offset. destruct offset as [o|].
  - unfold bind, guard.
    repeat (case_bool_decide; simpl; [|done]).
    by destruct (offset_inside _ _).
  - unfold bind, guard. by destruct (all_odd _).
Qed.

(** What the call does to the store: nothing, or it adds the local
    footprint under a fresh reference. *)
Lemma reconstruction_store argsort seed mask method footprint offset h :
  post (reconstruction argsort seed mask method footprint offset) h
       (λ h' _, h' = h ∨ ∃ a, h' = <[fresh (dom h) := a]> h).
Proof.
  unfold reconstruction.
  do 3 (post_step; post_step; [|by left]).
  post_step.
  assert (post (own_footprint seed footprint) h
            (λ h1 r, match r with
                     | Ok l => l = fresh (dom h) ∧ ∃ a, h1 = <[l := a]> h
                     | Err _ => h1 = h
                     end)) as Hown.
  { unfold own_footprint. destruct footprint as [l|].
    - post_step. post_step. destruct (h !! l); [|done].
      post_step. eauto.
    - post_step. eauto. }
  eapply post_mono; [exact Hown|]. clear Hown.
  intros h1 [l|e]; [|by left]. intros [-> [a ->]].
  post_step. post_step. rewrite lookup_insert_eq.
  post_step. apply post_resolve_offset. intros [off|e] _; [|by eauto].
  post_step. unfold cross_out.
  post_step. post_step. rewrite lookup_insert_eq.
  post_step. post_step; [|by eauto].
  post_step. post_step. rewrite insert_insert_eq.
  post_step.
  post_step. post_step. destruct (parse_method method); [|by eauto].
  post_step. post_step. destruct (pad_value _ _); [|by eauto].
  post_step. post_step; [|by eauto].
  post_step. eauto.
Qed.

Lemma local_footprint_shape h seed footprint :
  footprint_shape h seed footprint = arr_shape <$> local_footprint h seed footprint.
Proof.
  destruct footprint as [l|]; simpl; [|done]. by destruct (h !! l).
Qed.

Lemma resolve_offset_eq fshape offset h :
  resolve_offset fshape offset h = (h, offset_result fshape offset).
Proof.
  unfold offset_result, resolve_offset. destruct offset as [o|].
  - unfold bind, guard.
    repeat (case_bool_decide; simpl; [|done]).
    by destruct (offset_inside _ _).
  - unfold bind, guard. by destruct (all_odd _).
Qed.

(** The result of a call whose shapes agree and whose seed and mask pass
    the ordering tests. *)
Lemma reconstruction_result argsort seed mask method footprint offset h fp0 :
  arr_shape seed = arr_shape mask →
  ordering_ok seed mask method = true →
  local_footprint h seed footprint = Some fp0 →
  (reconstruction argsort seed mask method footprint offset h).2 =
  match offset_result (arr_shape fp0) offset with
  | Err e => Err e
  | Ok off => after_offset argsort seed mask method fp0 off
  end.
Proof.
  intros Hshape Hord Hfp.
  apply andb_true_iff in Hord as [Hd He].
  unfold reconstruction, bind at 1, guard at 1.
  rewrite bool_decide_eq_true_2 by done. simpl.
  unfold bind at 1, guard at 1. rewrite Hd. simpl.
  unfold bind at 1, guard at 1. rewrite He. simpl.
  unfold bind at 1.
  assert (own_footprint seed footprint h
          = (<[fresh (dom h) := fp0]> h, Ok (fresh (dom h)))) as ->.
  { destruct footprint as [l|]; simpl in *.
    - unfold bind, load, alloc. destruct (h !! l); by simplify_eq/=.
    - by simplify_eq. }
  unfold bind at 1, load at 1. rewrite lookup_insert_eq.
  unfold bind at 1. rewrite resolve_offset_eq.
  destruct (offset_result _ _) as [off|e]; [|done].
  unfold after_offset, cross_out.
  unfold bind at 1, bind at 1, load at 1. rewrite lookup_insert_eq.
  unfold bind at 1, guard at 1, ndim.
  case_bool_decide; simpl; [|done].
  unfold bind at 1, lift at 1.
  destruct (parse_method method); [|done].
  unfold bind at 1, lift at 1. destruct (pad_value _ _); [|done].
  unfold bind at 1, guard at 1. simpl.
  case_bool_decide; simpl; done.
Qed.

(** The errors of the later stages. *)
Lemma walk_errors fuel image_stride nb p a e :
  walk fuel image_stride nb p a = Err e → e = LoopFatal ∨ e = LoopDiverged.
Proof.
  revert p a. induction fuel as [|fuel IH]; intros p a; simpl.
  - intros [= <-]. by right.
  - destruct (if (p <? image_stride)%Z then _ else _) as [a'|];
      [|intros [= <-]; by left].
    destruct (getZ (next a') p) as [nx|]; [|intros [= <-]; by left].
    destruct (nx =? -1)%Z; [done|]. apply IH.
Qed.

Lemma propagate_errors argsort seed mask m pad fp off e :
  propagate argsort seed mask m pad fp off = Err e →
  e = Unsupported ∨ e = LoopFatal ∨ e = LoopDiverged.
Proof.
  unfold propagate, run_loop.
  destruct (_ !! 0); [|intros [= <-]; by left].
  unfold reconstruction_loop.
  destruct (walk _ _ _ _ _) as [a'|e'] eqn:Hw; [done|].
  intros [= <-]. right. by eapply walk_errors.
Qed.

Lemma after_offset_errors argsort seed mask method fp0 off e :
  after_offset argsort seed mask method fp0 off = Err e →
  e = InvalidMethod ∨ e = EmptyReduction ∨ e = Unsupported
  ∨ e = LoopFatal ∨ e = LoopDiverged.
Proof.
  unfold after_offset. case_bool_decide; [|intros [= <-]; tauto].
  unfold parse_method.
  assert (∀ m, match pad_value m seed with
               | Ok pad =>
                   if bool_decide (ndim fp0 = ndim seed ∧ length off = ndim seed)
                   then propagate argsort seed mask m pad (clear_center off fp0) off
                   else Err Unsupported
               | Err e => Err e
               end = Err e →
               e = InvalidMethod ∨ e = EmptyReduction ∨ e = Unsupported
               ∨ e = LoopFatal ∨ e = LoopDiverged) as Hrest.
  { intros m. destruct (pad_value m seed) as [pad|e'] eqn:Hpad.
    - case_bool_decide; [|intros [= <-]; tauto].
      intros Hp%propagate_errors. tauto.
    - intros [= <-]. destruct m; unfold pad_value, array_min, array_max in Hpad;
        destruct (arr_data seed); simplify_eq; tauto. }
  destruct (String.eqb method "dilation"); [apply Hrest|].
  destruct (String.eqb method "erosion"); [apply Hrest|].
  intros [= <-]. tauto.
Qed.

Lemma offset_result_errors fshape offset e :
  offset_result fshape offset = Err e →
  e = InvalidFootprint ∨ e = Unsupported ∨ ∃ w, e = InvalidOffset w.
Proof.
  unfold offset_result, resolve_offset. destruct offset as [o|];
    unfold bind, guard.
  - case_bool_decide; simpl; [|intros [= <-]; eauto].
    case_bool_decide; simpl; [|intros [= <-]; eauto].
    destruct (offset_inside _ _); simpl; [done|intros [= <-]; eauto].
  - destruct (all_odd _); simpl; [done|intros [= <-]; eauto].
Qed.

Lemma post_own_footprint seed footprint h (Q : _ → result loc → Prop) :
  match local_footprint h seed footprint with
  | Some fp0 => Q (<[fresh (dom h) := fp0]> h) (Ok (fresh (dom h)))
  | None => Q h (Err Unsupported)
  end →
  post (own_footprint seed footprint) h Q.
Proof.
  unfold post, own_footprint, local_footprint.
  destruct footprint as [l|]; [|done].
  unfold bind, load, alloc. by destruct (h !! l).
Qed.

(** The errors a call can end in once the shapes agree. *)
Lemma reconstruction_errors argsort seed mask method footprint offset h :
  arr_shape seed = arr_shape mask →
  post (reconstruction argsort seed mask method footprint offset) h
       (λ _ r, ∀ e, r = Err e → e ≠ ShapeMismatch).
Proof.
  intros Hshape. unfold reconstruction.
  post_step. post_step; [|by rewrite bool_decide_eq_true_2 in *].
  do 2 (post_step; post_step; [|by intros ? [= <-]]).
  post_step. apply post_own_footprint.
  destruct (local_footprint _ _ _) as [fp0|]; [|by intros ? [= <-]].
  post_step. post_step. rewrite lookup_insert_eq.
  post_step. apply post_resolve_offset. intros r Hr.
  rewrite resolve_offset_eq in Hr. simpl in Hr. subst r.
  destruct (offset_result _ _) as [off|e] eqn:Hoff.
  2:{ intros ? [= <-]. apply offset_result_errors in Hoff.
      destruct Hoff as [->|[->|[w ->]]]; done. }
  post_step.
  unfold cross_out. post_step. post_step. rewrite lookup_insert_eq.
  post_step. post_step; [|by intros ? [= <-]].
  post_step. post_step. post_step.
  post_step. post_step.
  destruct (parse_method method) as [m|e] eqn:Hm.
  2:{ intros ? [= <-]. unfold parse_method in Hm.
      repeat case_match; by simplify_eq. }
  post_step. post_step.
  destruct (pad_value m seed) as [pad|e] eqn:Hpad.
  2:{ intros ? [= <-]. destruct m; unfold pad_value, array_min, array_max in Hpad;
        destruct (arr_data seed); by simplify_eq. }
  post_step. post_step; [|by intros ? [= <-]].
  post_step. intros e Hp%propagate_errors. by destruct Hp as [->|[->| ->]].
Qed.

(** C7: when the shapes of seed and mask differ, the call fails with the
    shape error and has touched nothing; when they agree, the call never
    ends in the shape error. *)
Theorem shape_mismatch_first argsort seed mask method footprint offset h :
  (arr_shape seed ≠ arr_shape mask →
   reconstruction argsort seed mask method footprint offset h
   = (h, Err ShapeMismatch))
  ∧ (arr_shape seed = arr_shape mask →
     (reconstruction argsort seed mask method footprint offset h).2
     ≠ Err ShapeMismatch).
Proof.
  split.
  - intros Hne. unfold reconstruction, bind at 1, guard at 1.
    by rewrite bool_decide_eq_false_2.
  - intros Heq Hr.
    by apply (reconstruction_errors argsort seed mask method footprint offset h
                Heq ShapeMismatch).
Qed.

(** The objects that the store holds before the call are the same after
    it. *)
Lemma reconstruction_preserves argsort seed mask method footprint offset h l a :
  h !! l = Some a →
  (reconstruction argsort seed mask method footprint offset h).1 !! l = Some a.
Proof.
  intros Hl.
  destruct (reconstruction_store argsort seed mask method footprint offset h)
    as [->|[a' ->]]; [done|].
  rewrite lookup_insert_ne; [done|].
  intros <-. pose proof (is_fresh (dom h)) as Hfresh.
  apply Hfresh, elem_of_dom. eauto.
Qed.

(** C10: the footprint array that the caller passes is the same object with
    the same content after the call, whatever the outcome. *)
Theorem footprint_unchanged argsort seed mask method l offset h fp :
  h !! l = Some fp →
  (reconstruction argsort seed mask method (Some l) offset h).1 !! l = Some fp.
Proof. apply reconstruction_preserves. Qed.

Lemma offset_inside_spec o fshape :
  offset_inside o fshape = true ↔ offset_within o fshape.
Proof.
  unfold offset_inside, offset_within. revert fshape.
  induction o as [|c o IH]; intros [|d fshape]; simpl; try done.
  rewrite !andb_true_iff, IH, Z.leb_le, Z.ltb_lt. split.
  - intros [Hc Ho] [|k] c' d' ??; simplify_eq/=; [done|eauto].
  - intros H. split; [by apply (H 0)|].
    intros k c' d' ??. by apply (H (S k)).
Qed.

Lemma all_odd_spec shape : all_odd shape = true ↔ Forall Nat.Odd shape.
Proof.
  unfold all_odd. rewrite forallb_forall, Forall_forall.
  split; intros H d Hd.
  - apply list_elem_of_In, H, Nat.eqb_eq in Hd.
    exists (d / 2). rewrite (Nat.div_mod_eq d 2) at 1. lia.
  - apply Nat.eqb_eq. apply list_elem_of_In, H in Hd as [k ->].
    rewrite Nat.add_comm, Nat.mul_comm, Nat.Div0.mod_add. done.
Qed.

(** C8: in a call that reaches the footprint stage, an explicit offset (a
    vector of coordinates) that does not lie inside the footprint on every
    axis makes the call fail with the offset error; without an offset the
    call fails with the footprint error exactly when some extent of the
    footprint is not odd. *)
Theorem footprint_offset_validation argsort seed mask method footprint h fshape :
  arr_shape seed = arr_shape mask →
  ordering_ok seed mask method = true →
  footprint_shape h seed footprint = Some fshape →
  (∀ o, ndim o = 1 → ¬ offset_within (arr_data o) fshape →
        ∃ w, (reconstruction argsort seed mask method footprint (Some o) h).2
             = Err (InvalidOffset w))
  ∧ ((reconstruction argsort seed mask method footprint None h).2
       = Err InvalidFootprint
     ↔ ¬ Forall Nat.Odd fshape).
Proof.
  intros Hshape Hord Hfs. rewrite local_footprint_shape in Hfs.
  destruct (local_footprint h seed footprint) as [fp0|] eqn:Hfp; [|done].
  simpl in Hfs. simplify_eq. split.
  - intros o Ho Hout. rewrite <-offset_inside_spec in Hout.
    apply not_true_is_false in Hout.
    rewrite (reconstruction_result _ _ _ _ _ _ _ _ Hshape Hord Hfp).
    unfold offset_result, resolve_offset, bind, guard.
    case_bool_decide; simpl; [|eauto].
    rewrite bool_decide_eq_true_2 by done. simpl. rewrite Hout. simpl. eauto.
  - rewrite (reconstruction_result _ _ _ _ _ _ _ _ Hshape Hord Hfp).
    rewrite <-all_odd_spec.
    unfold offset_result, resolve_offset, bind, guard.
    destruct (all_odd _); simpl.
    + split; [|done]. intros He%after_offset_errors.
      destruct He as [?|[?|[?|[?|?]]]]; done.
    + split; [|done]. by intros _ ?.
Qed.

(** C9: with a method that is neither 'dilation' nor 'erosion' the call
    never ends in the ordering error, whatever seed and mask hold; without an
    offset it fails with the footprint error when an extent of the footprint
    is even, and with the method error only when all of them are odd. *)
Theorem unknown_method_order argsort seed mask method footprint offset h fshape :
  method ≠ "dilation" → method ≠ "erosion" →
  arr_shape seed = arr_shape mask →
  footprint_shape h seed footprint = Some fshape →
  (reconstruction argsort seed mask method footprint offset h).2
    ≠ Err InvalidSeedMask
  ∧ (¬ Forall Nat.Odd fshape →
     (reconstruction argsort seed mask method footprint None h).2
     = Err InvalidFootprint)
  ∧ (Forall Nat.Odd fshape →
     (reconstruction argsort seed mask method footprint None h).2
     = Err InvalidMethod).
Proof.
  intros Hd%String.eqb_neq He%String.eqb_neq Hshape Hfs.
  assert (ordering_ok seed mask method = true) as Hord.
  { unfold ordering_ok. by rewrite Hd, He. }
  rewrite local_footprint_shape in Hfs.
  destruct (local_footprint h seed footprint) as [fp0|] eqn:Hfp; [|done].
  simpl in Hfs. simplify_eq.
  rewrite !(reconstruction_result _ _ _ _ _ _ _ _ Hshape Hord Hfp).
  split_and!.
  - destruct (offset_result _ _) as [off|e] eqn:Hoff.
    + intros Hr%after_offset_errors.
      destruct Hr as [?|[?|[?|[?|?]]]]; done.
    + intros [= ->]. apply offset_result_errors in Hoff.
      destruct Hoff as [?|[?|[w ?]]]; done.
  - rewrite <-all_odd_spec. intros Hodd%not_true_is_false.
    unfold offset_result, resolve_offset, bind, guard. by rewrite Hodd.
  - rewrite <-all_odd_spec. intros Hodd.
    unfold offset_result, resolve_offset, bind, guard. rewrite Hodd. simpl.
    unfold after_offset. rewrite length_fmap.
    rewrite bool_decide_eq_true_2 by done.
    unfold parse_method. by rewrite Hd, He.
Qed.

(** ** Index width *)

(** C6, as the code has it: with the loop of scikit-image 0.20 or later
    ([old_reconstruction_pyx] false) the selected type is a signed type (or
    the type of unbounded Python integers) that holds [-isize]; with the
    older loop the type is [int32] whatever the size, which holds [-isize]
    only up to [2^31] samples. *)
Theorem signed_int_dtype_holds_isize (isize : nat) :
  representable (signed_int_dtype false isize) (- Z.of_nat isize)
  ∧ signed_int_dtype true isize = int32
  ∧ (representable (signed_int_dtype true isize) (- Z.of_nat isize)
     ↔ (Z.of_nat isize ≤ 2 ^ 31)%Z).
Proof.
  split_and!; [|done|simpl; lia].
  unfold signed_int_dtype, min_scalar_type.
  repeat case_match; simpl; rewrite ?Z.eqb_eq, ?Z.eqb_neq, ?Z.leb_le,
    ?Z.leb_gt in *; lia.
Qed.

(** With the older loop the type is [int32] whatever the size of the
    buffer, and a buffer of [2^31 + 2] samples no longer fits. *)
Lemma signed_int_dtype_old_overflow :
  ¬ representable (signed_int_dtype true (Z.to_nat (2 ^ 31 + 2)))
                  (- Z.of_nat (Z.to_nat (2 ^ 31 + 2))).
Proof. rewrite Z2Nat.id by lia. simpl. lia. Qed.

(** ** Examples of calls *)

Lemma shape_mismatch_first_witness :
  reconstruction argsort_stable ex_seed (NdArray int64 [2] [1; 3]%Z)
                 "dilation" None None ∅
  = (∅, Err ShapeMismatch).
Proof.
  apply (shape_mismatch_first argsort_stable ex_seed (NdArray int64 [2] [1; 3]%Z)
           "dilation" None None ∅).
  simpl. congruence.
Defined.

Lemma footprint_unchanged_witness :
  (reconstruction argsort_stable ex_seed ex_mask "dilation"
                  (Some 1%positive) None ex_store).1 !! 1%positive
  = Some ex_footprint.
Proof.
  apply (footprint_unchanged argsort_stable ex_seed ex_mask "dilation"
           1%positive None ex_store ex_footprint).
  reflexivity.
Defined.

Lemma footprint_offset_validation_witness :
  (∀ o, ndim o = 1 → ¬ offset_within (arr_data o) [4] →
        ∃ w, (reconstruction argsort_stable ex_seed ex_mask "dilation"
                (Some 1%positive) (Some o)
                {[ 1%positive := NdArray bool_ [4] [1; 1; 1; 1]%Z ]}).2
             = Err (InvalidOffset w))
  ∧ ((reconstruction argsort_stable ex_seed ex_mask "dilation"
        (Some 1%positive) None
        {[ 1%positive := NdArray bool_ [4] [1; 1; 1; 1]%Z ]}).2
       = Err InvalidFootprint
     ↔ ¬ Forall Nat.Odd [4]).
Proof.
  apply (footprint_offset_validation argsort_stable ex_seed ex_mask "dilation"
           (Some 1%positive)
           {[ 1%positive := NdArray bool_ [4] [1; 1; 1; 1]%Z ]} [4]);
    reflexivity.
Defined.

Lemma unknown_method_order_witness :
  (reconstruction argsort_stable ex_mask ex_seed "closing"
     (Some 1%positive) None
     {[ 1%positive := NdArray bool_ [4] [1; 1; 1; 1]%Z ]}).2
    ≠ Err InvalidSeedMask
  ∧ (¬ Forall Nat.Odd [4] →
     (reconstruction argsort_stable ex_mask ex_seed "closing"
        (Some 1%positive) None
        {[ 1%positive := NdArray bool_ [4] [1; 1; 1; 1]%Z ]}).2
     = Err InvalidFootprint)
  ∧ (Forall Nat.Odd [4] →
     (reconstruction argsort_stable ex_mask ex_seed "closing"
        (Some 1%positive) None
        {[ 1%positive := NdArray bool_ [4] [1; 1; 1; 1]%Z ]}).2
     = Err InvalidMethod).
Proof.
  apply (unknown_method_order argsort_stable ex_mask ex_seed "closing"
           (Some 1%positive) None
           {[ 1%positive := NdArray bool_ [4] [1; 1; 1; 1]%Z ]} [4]);
    [discriminate | discriminate | reflexivity | reflexivity].
Defined.

(** ** Rank Transform *)

Lemma elem_of_insert_distinct v u l :
  u ∈ insert_distinct v l ↔ u = v ∨ u ∈ l.
Proof.
  induction l as [|w l IH]; simpl.
  - rewrite list_elem_of_singleton, elem_of_nil. tauto.
  - destruct (v <? w)%Z eqn:E1; [by rewrite elem_of_cons|].
    destruct (v =? w)%Z eqn:E2.
    + apply Z.eqb_eq in E2 as ->. rewrite elem_of_cons. tauto.
    + rewrite !elem_of_cons, IH. tauto.
Qed.

Lemma elem_of_distinct_sorted v buf : v ∈ distinct_sorted buf ↔ v ∈ buf.
Proof.
  induction buf as [|u buf IH]; simpl; [done|].
  rewrite elem_of_insert_distinct, elem_of_cons, IH. done.
Qed.

Lemma insert_distinct_ascending v l :
  ascending l → ascending (insert_distinct v l).
Proof.
  unfold ascending. induction 1 as [|w l Hl IH Hw]; simpl.
  - repeat constructor.
  - destruct (v <? w)%Z eqn:E1.
    + apply Z.ltb_lt in E1. constructor; [by constructor|].
      constructor; [done|]. eapply Forall_impl; [exact Hw|]. simpl. lia.
    + destruct (v =? w)%Z eqn:E2; [by constructor|].
      apply Z.ltb_ge in E1. apply Z.eqb_neq in E2.
      constructor; [done|]. apply Forall_forall. intros x.
      rewrite elem_of_insert_distinct. intros [->|Hx]; [lia|].
      by eapply Forall_forall in Hw.
Qed.

Lemma distinct_sorted_ascending buf : ascending (distinct_sorted buf).
Proof.
  induction buf as [|u buf IH]; simpl; [constructor|].
  by apply insert_distinct_ascending.
Qed.

Lemma rank_of_cons u l v :
  rank_of (u :: l) v = (if bool_decide (u < v)%Z then 1 else 0) + rank_of l v.
Proof.
  unfold rank_of. rewrite filter_cons. by repeat case_decide; case_bool_decide.
Qed.

Lemma rank_of_le l a b : (a ≤ b)%Z → rank_of l a ≤ rank_of l b.
Proof.
  intros Hab. induction l as [|u l IH]; [done|].
  rewrite !rank_of_cons. repeat case_bool_decide; lia.
Qed.

Lemma rank_of_lt l a b : a ∈ l → (a < b)%Z → rank_of l a < rank_of l b.
Proof.
  intros Ha Hab. induction l as [|u l IH]; [by apply elem_of_nil in Ha|].
  rewrite !rank_of_cons. apply elem_of_cons in Ha as [->|Ha].
  - pose proof (rank_of_le l u b). repeat case_bool_decide; lia.
  - specialize (IH Ha). repeat case_bool_decide; lia.
Qed.

Lemma rank_of_small l v : Forall (Z.lt v) l → rank_of l v = 0.
Proof.
  induction 1 as [|u l Hu _ IH]; [done|].
  rewrite rank_of_cons, IH. case_bool_decide; lia.
Qed.

(** The value map gives back, at the rank of a value it holds, that value. *)
Lemma lookup_rank_of l v : ascending l → v ∈ l → l !! rank_of l v = Some v.
Proof.
  unfold ascending. induction 1 as [|u l Hl IH Hu]; [by intros ?%elem_of_nil|].
  rewrite rank_of_cons. intros [->|Hv]%elem_of_cons.
  - rewrite rank_of_small by done. by rewrite bool_decide_eq_false_2 by lia.
  - eapply Forall_forall in Hu as Huv; [|done].
    rewrite bool_decide_eq_true_2 by done. simpl. auto.
Qed.

Lemma rank_of_bound l v : v ∈ l → rank_of l v < length l.
Proof.
  intros Hv. induction l as [|u l IH]; [by apply elem_of_nil in Hv|].
  rewrite rank_of_cons. simpl. apply elem_of_cons in Hv as [->|Hv].
  - rewrite bool_decide_eq_false_2 by lia.
    unfold rank_of. pose proof (length_filter (λ x, (x < u)%Z) l). simpl. lia.
  - specialize (IH Hv). case_bool_decide; lia.
Qed.

Lemma method_ranks_eq m t buf :
  method_ranks m t buf
  = (rank_of (distinct_sorted (ikey m t <$> buf)) <$> (ikey m t <$> buf),
     ikey m t <$> distinct_sorted (ikey m t <$> buf)).
Proof.
  destruct m; unfold method_ranks, rank_order; simpl.
  - by rewrite !list_fmap_id.
  - done.
Qed.

Lemma rank_of_least l u : (∀ w, w ∈ l → (u ≤ w)%Z) → rank_of l u = 0.
Proof.
  intros H. induction l as [|w l IH]; [done|].
  rewrite rank_of_cons, IH by (intros; apply H; by right).
  rewrite bool_decide_eq_false_2; [done|].
  specialize (H w ltac:(by left)). lia.
Qed.

(** The order of the negated samples: reversed, except that the least value
    of an integer type stays the least. *)
Lemma negative_order t a b :
  holds t a → holds t b → (a < b)%Z →
  if decide (least_of t = Some a)
  then (negative t a < negative t b)%Z
  else (negative t b < negative t a)%Z.
Proof.
  unfold holds. intros Ha Hb Hab.
  destruct t; simpl in *;
    try (rewrite !round_float_opp, Ha, Hb; lia); try lia;
    try (case_decide as Hd;
         [injection Hd as <-
         |match type of Hd with Some ?x ≠ _ =>
            assert (a ≠ x) by congruence end];
         dtype_arith).
  destruct (Z.eqb_spec a 0), (Z.eqb_spec b 0); simpl in *; lia.
Qed.




(** ** Arrays indexed by a signed position *)

Lemma getZ_Some {A} (l : list A) i v :
  getZ l i = Some v ↔ (0 ≤ i)%Z ∧ l !! Z.to_nat i = Some v.
Proof.
  unfold getZ. destruct (i <? 0)%Z eqn:E.
  - apply Z.ltb_lt in E. split; [done|lia].
  - apply Z.ltb_ge in E. tauto.
Qed.

Lemma getZ_is_Some {A} (l : list A) i :
  is_Some (getZ l i) ↔ (0 ≤ i < Z.of_nat (length l))%Z.
Proof.
  unfold is_Some. setoid_rewrite getZ_Some. split.
  - intros (v & ? & Hv%lookup_lt_Some). lia.
  - intros [? ?]. destruct (lookup_lt_is_Some_2 l (Z.to_nat i)) as [v Hv]; [lia|].
    eauto.
Qed.

Lemma length_setZ {A} (l : list A) i v : length (setZ l i v) = length l.
Proof. unfold setZ. destruct (i <? 0)%Z; [done|]. apply length_insert. Qed.

Lemma getZ_setZ_eq {A} (l : list A) i v :
  (0 ≤ i < Z.of_nat (length l))%Z → getZ (setZ l i v) i = Some v.
Proof.
  intros Hi. unfold getZ, setZ.
  destruct (i <? 0)%Z eqn:E; [apply Z.ltb_lt in E; lia|].
  apply list_lookup_insert_eq. lia.
Qed.

Lemma getZ_setZ_ne {A} (l : list A) i j v :
  i ≠ j → getZ (setZ l i v) j = getZ l j.
Proof.
  intros Hij. unfold getZ, setZ.
  destruct (j <? 0)%Z eqn:Ej; [done|].
  destruct (i <? 0)%Z eqn:Ei; [done|].
  apply Z.ltb_ge in Ei, Ej. apply list_lookup_insert_ne. lia.
Qed.

(** ** The traversal list as a chain of links *)

Lemma last_or_cons x l d : last_or (x :: l) d = last_or l x.
Proof.
  unfold last_or. revert x d. induction l as [|y l IH]; intros x d; [done|].
  by rewrite last_cons_cons, !IH.
Qed.

Lemma last_or_snoc l x d : last_or (l ++ [x]) d = x.
Proof. unfold last_or. by rewrite last_snoc. Qed.

Lemma chain_app pv nx b l1 l2 a :
  chain pv nx b (l1 ++ l2) a
  ↔ chain pv nx b l1 (head_or l2 a) ∧ chain pv nx (last_or l1 b) l2 a.
Proof.
  revert b. induction l1 as [|x l1 IH]; intros b; simpl.
  - unfold last_or. simpl. tauto.
  - rewrite IH, last_or_cons.
    assert (head_or (l1 ++ l2) a = head_or l1 (head_or l2 a)) as ->
      by by destruct l1.
    tauto.
Qed.

Lemma chain_ext pv nx pv' nx' b l a :
  (∀ x, x ∈ l → getZ pv' x = getZ pv x ∧ getZ nx' x = getZ nx x) →
  chain pv nx b l a → chain pv' nx' b l a.
Proof.
  revert b. induction l as [|x l IH]; intros b Hext; simpl; [done|].
  intros (Hp & Hn & Hc).
  destruct (Hext x) as [-> ->]; [left|].
  split_and!; [done..|]. apply IH; [|done].
  intros y Hy. apply Hext. by right.
Qed.

(** Removal of a cell of the list. *)
Lemma unlink_listed n a l1 p l2 :
  listed n a (l1 ++ p :: l2) →
  ∃ a', unlink p a = Some a' ∧ ranks a' = ranks a ∧ listed n a' (l1 ++ l2).
Proof.
  intros [Hr Hp Hn Hnd Hrg Hch].
  apply chain_app in Hch as [Hc1 Hc2]. simpl in Hc1, Hc2.
  destruct Hc2 as (Hpp & Hnp & Hc2).
  unfold unlink. rewrite Hpp, Hnp. simpl. eexists. split; [done|].
  split; [done|].
  apply NoDup_app in Hnd as (Hnd1 & Hnd12 & Hnd2).
  apply NoDup_cons in Hnd2 as [Hp2 Hnd2].
  assert (∀ x, x ∈ l1 → x ≠ p) as Hp1.
  { intros x Hx ->. apply (Hnd12 p Hx). left. }
  assert (∀ x, x ∈ l1 → x ∉ l2) as H12.
  { intros x Hx Hx2. apply (Hnd12 x Hx). by right. }
  constructor; simpl.
  - done.
  - destruct (_ =? _)%Z; [done|]. by rewrite length_setZ.
  - destruct (_ =? _)%Z; [done|]. by rewrite length_setZ.
  - apply NoDup_app. split_and!; [done| |done]. apply H12.
  - intros x Hx. apply Hrg. rewrite elem_of_app, elem_of_cons.
    apply elem_of_app in Hx. tauto.
  - apply chain_app. split.
    + (* the cells before [p] *)
      destruct l1 as [|y l1 _] using rev_ind; [done|].
      rewrite last_or_snoc in *.
      apply chain_app in Hc1 as [Hc1 Hy]. simpl in Hy.
      destruct Hy as (Hpy & Hny & _).
      assert (0 ≤ y < Z.of_nat n)%Z as Hyr.
      { apply Hrg. rewrite !elem_of_app, list_elem_of_singleton. tauto. }
      apply NoDup_app in Hnd1 as (_ & Hnd1 & _).
      assert (y ≠ -1)%Z as ->%Z.eqb_neq by lia.
      apply chain_app. split.
      * eapply chain_ext; [|exact Hc1]. intros x Hx.
        assert (x ≠ y).
        { intros ->. apply (Hnd1 y Hx). left. }
        assert (x ∉ l2) as Hx2.
        { apply H12. apply elem_of_app. by left. }
        split.
        -- destruct (_ =? _)%Z eqn:E; [done|]. apply getZ_setZ_ne.
           intros Heq. apply Z.eqb_neq in E. destruct l2 as [|z l2]; [done|].
           simpl in *. subst z. apply Hx2. left.
        -- by apply getZ_setZ_ne.
      * simpl. split_and!; [|by rewrite getZ_setZ_eq by lia|done].
        destruct (_ =? _)%Z eqn:E; [done|]. rewrite getZ_setZ_ne; [done|].
        intros Heq. apply Z.eqb_neq in E. destruct l2 as [|z l2]; [done|].
        simpl in *. subst z. apply (H12 y); [|left].
        apply elem_of_app. right. left.
    + (* the cells after [p] *)
      destruct l2 as [|z l2]; [done|]. simpl in *.
      destruct Hc2 as (Hpz & Hnz & Hc2).
      assert (0 ≤ z < Z.of_nat n)%Z as Hzr.
      { apply Hrg. rewrite !elem_of_app, !elem_of_cons. tauto. }
      assert (z ≠ -1)%Z as ->%Z.eqb_neq by lia.
      apply NoDup_cons in Hnd2 as [Hz2 Hnd2].
      split_and!.
      * by rewrite getZ_setZ_eq by lia.
      * destruct (_ =? _)%Z eqn:E; [done|]. rewrite getZ_setZ_ne; [done|].
        intros Heq. apply Z.eqb_neq in E.
        destruct l1 as [|y l1 _] using rev_ind; [done|].
        rewrite last_or_snoc in *. subst z.
        apply (H12 y); [|left]. apply elem_of_app. right. left.
      * eapply chain_ext; [|exact Hc2]. intros x Hx.
        assert (x ≠ z) by (by intros ->).
        split; [by apply getZ_setZ_ne|].
        destruct (_ =? _)%Z eqn:E; [done|]. apply getZ_setZ_ne.
        intros Heq. apply Z.eqb_neq in E.
        destruct l1 as [|y l1 _] using rev_ind; [done|].
        rewrite last_or_snoc in *. subst x.
        apply (H12 y); [|by right]. apply elem_of_app. right. left.
Qed.

(** Insertion of a cell that is not in the list. *)
Lemma insert_after_listed n a k1 link k2 p :
  listed n a (k1 ++ link :: k2) →
  p ∉ k1 ++ link :: k2 → (0 ≤ p < Z.of_nat n)%Z →
  ∃ a', insert_after link p a = Some a' ∧ ranks a' = ranks a
        ∧ listed n a' (k1 ++ link :: p :: k2).
Proof.
  intros [Hr Hp Hn Hnd Hrg Hch] Hpl Hpr.
  apply chain_app in Hch as [Hc1 Hc2]. simpl in Hc1, Hc2.
  destruct Hc2 as (Hpk & Hnk & Hc2).
  unfold insert_after. rewrite Hnk. simpl. eexists. split; [done|].
  split; [done|].
  rewrite elem_of_app, elem_of_cons in Hpl.
  assert (p ≠ link) as Hplink by tauto.
  assert (p ∉ k1) as Hpk1 by tauto. assert (p ∉ k2) as Hpk2 by tauto.
  apply NoDup_app in Hnd as (Hnd1 & Hnd12 & Hnd2).
  apply NoDup_cons in Hnd2 as [Hlk2 Hnd2].
  assert (0 ≤ link < Z.of_nat n)%Z as Hlr.
  { apply Hrg. rewrite elem_of_app, elem_of_cons. tauto. }
  assert (∀ x, x ∈ k1 → x ≠ link ∧ x ∉ k2) as H12.
  { intros x Hx. split.
    - intros ->. apply (Hnd12 link Hx). left.
    - intros Hx2. apply (Hnd12 x Hx). by right. }
  constructor; simpl.
  - done.
  - destruct (_ =? _)%Z; by rewrite !length_setZ.
  - by rewrite !length_setZ.
  - apply NoDup_app. split_and!; [done| |].
    + intros x Hx. rewrite !elem_of_cons. destruct (H12 x Hx).
      intros [->|[->|?]]; done.
    + apply NoDup_cons. split; [|by apply NoDup_cons].
      rewrite elem_of_cons. intros [?|?]; done.
  - intros x. rewrite elem_of_app, !elem_of_cons.
    intros [?|[->|[->|?]]]; [|done|done|];
      apply Hrg; rewrite elem_of_app, elem_of_cons; tauto.
  - apply chain_app. simpl. split_and!.
    + eapply chain_ext; [|exact Hc1]. intros x Hx. destruct (H12 x Hx).
      assert (x ≠ p) by (by intros ->).
      split.
      * destruct (_ =? _)%Z eqn:E.
        -- by rewrite getZ_setZ_ne.
        -- rewrite !getZ_setZ_ne; [done..|].
           intros Heq. destruct k2 as [|z k2]; simpl in *; [done|].
           subst z. apply H0. left.
      * by rewrite !getZ_setZ_ne.
    + destruct (_ =? _)%Z eqn:E.
      * by rewrite getZ_setZ_ne.
      * rewrite !getZ_setZ_ne; [done..|].
        intros Heq. destruct k2 as [|z k2]; simpl in *; [done|].
        subst z. apply Hlk2. left.
    + rewrite getZ_setZ_eq; [done|]. rewrite length_setZ. lia.
    + destruct (_ =? _)%Z eqn:E.
      * rewrite getZ_setZ_eq; [done|lia].
      * rewrite getZ_setZ_ne, getZ_setZ_eq; [done|lia|].
        intros Heq. destruct k2 as [|z k2]; simpl in *; [done|].
        subst z. apply Hpk2. left.
    + rewrite getZ_setZ_ne, getZ_setZ_eq; [|lia|done].
      by destruct k2.
    + destruct k2 as [|z k2]; [done|]. simpl in *.
      destruct Hc2 as (Hpz & Hnz & Hc2).
      assert (0 ≤ z < Z.of_nat n)%Z as Hzr.
      { apply Hrg. rewrite elem_of_app, !elem_of_cons. tauto. }
      assert (z ≠ -1)%Z as ->%Z.eqb_neq by lia.
      apply NoDup_cons in Hnd2 as [Hz2 Hnd2].
      rewrite not_elem_of_cons in Hlk2, Hpk2.
      split_and!.
      * rewrite getZ_setZ_eq; [done|]. rewrite length_setZ. lia.
      * rewrite !getZ_setZ_ne; [done|intros ->; tauto..].
      * eapply chain_ext; [|exact Hc2]. intros x Hx.
        assert (x ≠ z) by (by intros ->).
        assert (x ≠ p) by (intros ->; tauto).
        assert (x ≠ link) by (intros ->; tauto).
        by rewrite !getZ_setZ_ne.
Qed.

(** ** One propagation step *)

Lemma elem_of_split_Z (x : Z) l : x ∈ l → ∃ l1 l2, l = l1 ++ x :: l2.
Proof. apply list_elem_of_split. Qed.

Lemma pull_step (s : nat) nb a l p d :
  listed (2 * s) a l →
  (∀ x, (0 ≤ x < 2 * Z.of_nat s)%Z → x ∈ l) →
  safe s nb (ranks a) →
  (0 ≤ p < Z.of_nat s)%Z → d ∈ nb →
  ∃ a' l', pull (Z.of_nat s) p d a = Some a'
           ∧ listed (2 * s) a' l'
           ∧ settled (Z.of_nat s) (ranks a') p d
           ∧ ((a' = a ∧ l' = l) ∨ raised nb (Z.of_nat s) p a l a' l').
Proof.
  intros Hl Hall Hsafe Hp Hd.
  pose proof (listed_ranks _ _ _ Hl) as Hlen.
  destruct (getZ_is_Some (ranks a) p) as [_ [r Hr]]; [lia|].
  destruct (getZ_is_Some (ranks a) (p + Z.of_nat s)) as [_ [cap Hcap]]; [lia|].
  unfold pull. rewrite Hr, Hcap. simpl.
  destruct (r <? cap) eqn:Ercap.
  2:{ apply Nat.ltb_ge in Ercap. exists a, l. split_and!; [done|done| |by left].
      intros r' cap' rq. rewrite Hr, Hcap. intros [= <-] [= <-] _. lia. }
  apply Nat.ltb_lt in Ercap.
  pose proof (Hsafe p r cap d Hp Hr Hcap Ercap Hd) as Hq.
  destruct (getZ_is_Some (ranks a) (p + d)) as [_ [rq Hrq]]; [lia|].
  rewrite Hrq. simpl.
  destruct (r <? rq) eqn:Errq.
  2:{ apply Nat.ltb_ge in Errq. exists a, l. split_and!; [done|done| |by left].
      intros r' cap' rq'. rewrite Hr, Hcap, Hrq. intros [= <-] [= <-] [= <-]. lia. }
  apply Nat.ltb_lt in Errq.
  assert ((r <? (rq `min` cap)) = true) as -> by (apply Nat.ltb_lt; lia).
  set (cand := rq `min` cap).
  set (link := if rq <=? cap then (p + d)%Z else (p + Z.of_nat s)%Z).
  assert (getZ (ranks a) link = Some cand ∧ link ≠ p
          ∧ (0 ≤ link < 2 * Z.of_nat s)%Z) as (Hlink & Hlp & Hlr).
  { unfold link, cand. destruct (rq <=? cap) eqn:E.
    - apply Nat.leb_le in E. rewrite Nat.min_l by done.
      split; [done|]. split; [|lia]. intros Heq. rewrite Heq, Hr in Hrq.
      simplify_eq. lia.
    - apply Nat.leb_gt in E. rewrite Nat.min_r by lia.
      split; [done|]. lia. }
  destruct (elem_of_split_Z p l) as (l1 & l2 & ->); [apply Hall; lia|].
  set (a0 := Arena (setZ (ranks a) p cand) (prev a) (next a)).
  assert (listed (2 * s) a0 (l1 ++ p :: l2)) as Hl0.
  { destruct Hl. constructor; simpl; [by rewrite length_setZ|done..]. }
  destruct (unlink_listed _ _ _ _ _ Hl0) as (a1 & -> & Hr1 & Hl1). simpl.
  assert (link ∈ l1 ++ l2) as Hlin.
  { assert (link ∈ l1 ++ p :: l2) as Hin by (apply Hall; lia).
    rewrite elem_of_app, elem_of_cons in Hin. rewrite elem_of_app. tauto. }
  destruct (elem_of_split_Z _ _ Hlin) as (k1 & k2 & Hk).
  rewrite Hk in Hl1.
  destruct (insert_after_listed _ _ _ _ _ p Hl1) as (a2 & -> & Hr2 & Hl2).
  { rewrite <-Hk. pose proof (listed_nodup _ _ _ Hl) as Hnd.
    apply NoDup_app in Hnd as (_ & Hnd1 & Hnd2%NoDup_cons).
    rewrite elem_of_app. intros [?|?]; [|tauto]. eapply Hnd1; [done|left]. }
  { lia. }
  exists a2, (k1 ++ link :: p :: k2). split_and!; [done|done| |].
  - intros r' cap' rq'. rewrite Hr2, Hr1. simpl.
    rewrite getZ_setZ_eq by lia.
    rewrite (getZ_setZ_ne _ p (p + Z.of_nat s)%Z), Hcap by lia.
    assert (p ≠ p + d)%Z as Hpd.
    { intros Heq. rewrite <-Heq, Hr in Hrq. simplify_eq. lia. }
    rewrite (getZ_setZ_ne _ p (p + d)%Z), Hrq by done.
    intros [= <-] [= <-] [= <-]. done.
  - right. exists r, cap, cand, link, l1, l2, k1, k2.
    rewrite Hr2, Hr1. simpl. split_and!; try done; [unfold cand; lia..|].
    by exists d, rq.
Qed.

(** ** The invariant of the walk *)

Lemma sum_list_insert (l : list nat) i x y :
  l !! i = Some x → sum_list (<[i := y]> l) + x = sum_list l + y.
Proof.
  revert i. induction l as [|z l IH]; intros [|i]; simpl; try done.
  - intros [= ->]. lia.
  - intros Hi. specialize (IH i Hi). lia.
Qed.

Lemma sum_list_bound (l : list nat) M :
  Forall (λ r, r < M) l → sum_list l ≤ length l * M.
Proof. induction 1; simpl; lia. Qed.

Lemma total_bound s nb M a l : engine s nb M a l → total s a ≤ s * M.
Proof.
  intros [Hl _ _ Hb]. unfold total.
  etrans; [apply sum_list_bound, Forall_take, Hb|].
  rewrite length_take. apply Nat.mul_le_mono_r. lia.
Qed.

Lemma raised_total nb s p a l a' l' :
  length (ranks a) = 2 * s → (0 ≤ p < Z.of_nat s)%Z →
  raised nb (Z.of_nat s) p a l a' l' → total s a < total s a'.
Proof.
  intros Hlen Hp (r & cap & cand & link & l1 & l2 & k1 & k2 & Hr & Hcap
                  & Hlink & Hcand & Hlp & Hranks & _).
  unfold total. rewrite Hranks. unfold setZ.
  destruct (p <? 0)%Z eqn:E; [apply Z.ltb_lt in E; lia|].
  apply getZ_Some in Hr as [_ Hr].
  rewrite take_insert_lt by lia.
  pose proof (sum_list_insert (take s (ranks a)) (Z.to_nat p) r cand) as Hsum.
  rewrite lookup_take_lt in Hsum by lia. specialize (Hsum Hr). lia.
Qed.

Lemma raised_engine s nb M p a l a' l' :
  engine s nb M a l → listed (2 * s) a' l' → (0 ≤ p < Z.of_nat s)%Z →
  raised nb (Z.of_nat s) p a l a' l' → engine s nb M a' l'.
Proof.
  intros [Hl Hall Hsafe Hb] Hl' Hp
    (r & cap & cand & link & l1 & l2 & k1 & k2 & Hr & Hcap
     & Hlink & Hcand & Hlp & Hranks & -> & Hk & -> & _).
  pose proof (listed_ranks _ _ _ Hl) as Hlen.
  constructor; [done| | |].
  - intros x Hx. specialize (Hall x Hx).
    rewrite elem_of_app, elem_of_cons in Hall.
    destruct Hall as [Hx1|[->|Hx2]].
    + assert (x ∈ k1 ++ link :: k2) as Hin
        by (rewrite <-Hk, elem_of_app; tauto).
      rewrite elem_of_app, !elem_of_cons in *. tauto.
    + rewrite elem_of_app, !elem_of_cons. tauto.
    + assert (x ∈ k1 ++ link :: k2) as Hin
        by (rewrite <-Hk, elem_of_app; tauto).
      rewrite elem_of_app, !elem_of_cons in *. tauto.
  - rewrite Hranks. intros p0 r0 cap0 d Hp0 Hr0 Hcap0 Hlt Hd.
    rewrite getZ_setZ_ne in Hcap0 by lia.
    destruct (decide (p0 = p)) as [->|Hne].
    + rewrite getZ_setZ_eq in Hr0 by lia. simplify_eq.
      eapply (Hsafe p r); [done|done|done|lia|done].
    + rewrite getZ_setZ_ne in Hr0 by done.
      by eapply (Hsafe p0 r0 cap0).
  - rewrite Hranks. unfold setZ. destruct (p <? 0)%Z; [done|].
    apply Forall_insert; [done|].
    apply getZ_Some in Hlink as [_ Hlink].
    by eapply Forall_lookup_1 in Hb.
Qed.

Lemma raised_settled nb s p a l a' l' d :
  length (ranks a) = 2 * s → (0 ≤ p < Z.of_nat s)%Z →
  raised nb (Z.of_nat s) p a l a' l' →
  settled (Z.of_nat s) (ranks a) p d → settled (Z.of_nat s) (ranks a') p d.
Proof.
  intros Hlen Hp (r & cap & cand & link & l1 & l2 & k1 & k2 & Hr & Hcap
                  & Hlink & Hcand & Hlp & Hranks & _) Hs r' cap' rq'.
  rewrite Hranks, getZ_setZ_eq by lia.
  rewrite (getZ_setZ_ne _ p (p + Z.of_nat s)%Z) by lia.
  intros [= <-] Hcap'.
  destruct (decide (p = p + d)%Z) as [<-|Hne].
  - rewrite getZ_setZ_eq by lia. intros [= <-]. lia.
  - rewrite getZ_setZ_ne by done. intros Hrq.
    specialize (Hs r cap' rq' Hr Hcap' Hrq). lia.
Qed.

Lemma listed_length n a l : listed n a l → length l ≤ n.
Proof.
  intros [_ _ _ Hnd Hrg _].
  assert (l ⊆+ Z.of_nat <$> seq 0 n) as Hsub.
  { apply NoDup_submseteq; [done|]. intros x Hx%Hrg.
    apply list_elem_of_fmap. exists (Z.to_nat x). split; [lia|].
    apply elem_of_seq. lia. }
  apply submseteq_length in Hsub. by rewrite length_fmap, length_seq in Hsub.
Qed.

Lemma listed_next_of n a l1 p l2 :
  listed n a (l1 ++ p :: l2) → getZ (next a) p = Some (head_or l2 (-1)%Z).
Proof.
  intros [_ _ _ _ _ Hch]. apply chain_app in Hch as [_ Hch]. simpl in Hch.
  tauto.
Qed.

Section Walk.

Context (s : nat) (nb : list Z) (M : nat).

(** A property of the arena, its list and the position of the walk that
    raises of the current position preserve and that moves on to the
    successor once the current position is stable. *)
Variable I : arena → list Z → Z → Prop.

Hypothesis I_raised : ∀ a l a' l' p,
  engine s nb M a l → engine s nb M a' l' → (0 ≤ p < Z.of_nat s)%Z →
  raised nb (Z.of_nat s) p a l a' l' → I a l p → I a' l' p.

Hypothesis I_advance : ∀ a l1 p nx l2,
  engine s nb M a (l1 ++ p :: nx :: l2) → stable_at s nb a p →
  I a (l1 ++ p :: nx :: l2) p → I a (l1 ++ p :: nx :: l2) nx.

Lemma visit_inv nb' p :
  (0 ≤ p < Z.of_nat s)%Z → (∀ d, d ∈ nb' → d ∈ nb) →
  ∀ a l, engine s nb M a l → I a l p →
  ∃ a' l', visit (Z.of_nat s) nb' p a = Some a'
           ∧ engine s nb M a' l' ∧ I a' l' p
           ∧ (∀ d, d ∈ nb' → settled (Z.of_nat s) (ranks a') p d)
           ∧ (∀ d, settled (Z.of_nat s) (ranks a) p d → settled (Z.of_nat s) (ranks a') p d)
           ∧ ((a' = a ∧ l' = l) ∨ total s a < total s a').
Proof.
  intros Hp. induction nb' as [|d nb' IH]; intros Hsub a l He HI; simpl.
  - exists a, l. split_and!; [done|done|done| |done|by left].
    by intros d ?%elem_of_nil.
  - destruct (pull_step s nb a l p d) as (a1 & l1 & -> & Hl1 & Hset & Hcase);
      [apply He..|done|apply Hsub; left|].
    simpl.
    assert (engine s nb M a1 l1 ∧ I a1 l1 p
            ∧ (∀ d', settled (Z.of_nat s) (ranks a) p d' → settled (Z.of_nat s) (ranks a1) p d')
            ∧ ((a1 = a ∧ l1 = l) ∨ total s a < total s a1))
      as (He1 & HI1 & Hmono1 & Hcase1).
    { destruct Hcase as [[-> ->]|Hraised]; [split_and!; auto|].
      pose proof (listed_ranks _ _ _ (engine_listed _ _ _ _ _ He)) as Hlen.
      assert (engine s nb M a1 l1) as He1
        by exact (raised_engine s nb M p a l a1 l1 He Hl1 Hp Hraised).
      split_and!; [done|exact (I_raised a l a1 l1 p He He1 Hp Hraised HI)|
                   |right; exact (raised_total nb s p a l a1 l1 Hlen Hp Hraised)].
      intros d'. exact (raised_settled nb s p a l a1 l1 d' Hlen Hp Hraised). }
    destruct (IH (λ d' Hd', Hsub d' (list_elem_of_further _ _ _ Hd')) a1 l1 He1 HI1)
      as (a2 & l2 & -> & He2 & HI2 & Hset2 & Hmono2 & Hcase2).
    exists a2, l2. split_and!; [done|done|done| | |].
    + intros d' [->|Hd']%elem_of_cons; [by apply Hmono2|by apply Hset2].
    + intros d' Hd'. by apply Hmono2, Hmono1.
    + destruct Hcase1 as [[-> ->]|Hlt1]; [done|].
      right. destruct Hcase2 as [[-> ->]|Hlt2]; lia.
Qed.

Lemma walk_inv fuel :
  ∀ a l1 p l2,
    engine s nb M a (l1 ++ p :: l2) → I a (l1 ++ p :: l2) p →
    (s * M - total s a) * (2 * s + 1) + length l2 < fuel →
    ∃ a' l' p', walk fuel (Z.of_nat s) nb p a = Ok a'
                ∧ engine s nb M a' (l' ++ [p'])
                ∧ I a' (l' ++ [p']) p'
                ∧ stable_at s nb a' p'.
Proof.
  induction fuel as [|fuel IH]; intros a l1 p l2 He HI Hfuel;
    [by apply Nat.nlt_0_r in Hfuel|].
  simpl.
  assert (0 ≤ p < 2 * Z.of_nat s)%Z as Hpr.
  { pose proof (listed_range _ _ _ (engine_listed _ _ _ _ _ He) p) as Hr.
    rewrite elem_of_app, elem_of_cons in Hr. lia. }
  assert (∃ a1 l1' l2',
            (if (p <? Z.of_nat s)%Z then visit (Z.of_nat s) nb p a else Some a)
            = Some a1
            ∧ engine s nb M a1 (l1' ++ p :: l2')
            ∧ I a1 (l1' ++ p :: l2') p
            ∧ stable_at s nb a1 p
            ∧ (s * M - total s a1) * (2 * s + 1) + length l2'
              ≤ (s * M - total s a) * (2 * s + 1) + length l2)
    as (a1 & l1' & l2' & -> & He1 & HI1 & Hst1 & Hmu).
  { destruct (p <? Z.of_nat s)%Z eqn:E.
    - apply Z.ltb_lt in E.
      destruct (visit_inv nb p) with (a := a) (l := l1 ++ p :: l2)
        as (a1 & l' & Hv & He1 & HI1 & Hset & _ & Hcase); [lia|done..|].
      destruct Hcase as [[-> ->]|Hlt].
      + exists a, l1, l2. split_and!; [done..| |done]. intros _. exact Hset.
      + destruct (elem_of_split_Z p l') as (l1' & l2' & ->).
        { apply (engine_complete _ _ _ _ _ He1). lia. }
        exists a1, l1', l2'. split_and!; [done..|by intros _|].
        pose proof (total_bound _ _ _ _ _ He1).
        pose proof (listed_length _ _ _ (engine_listed _ _ _ _ _ He1)) as Hlen.
        rewrite length_app in Hlen. simpl in Hlen. nia.
    - apply Z.ltb_ge in E. exists a, l1, l2.
      split_and!; [done..| |done]. intros ?. lia. }
  rewrite (listed_next_of _ _ _ _ _ (engine_listed _ _ _ _ _ He1)).
  destruct l2' as [|nx l2']; simpl.
  - exists a1, l1', p. done.
  - assert (0 ≤ nx)%Z as Hnx.
    { pose proof (listed_range _ _ _ (engine_listed _ _ _ _ _ He1) nx) as Hr.
      rewrite elem_of_app, !elem_of_cons in Hr. lia. }
    assert ((nx =? -1)%Z = false) as -> by (apply Z.eqb_neq; lia).
    pose proof (I_advance _ _ _ _ _ He1 Hst1 HI1) as HI2.
    replace (l1' ++ p :: nx :: l2') with ((l1' ++ [p]) ++ nx :: l2') in *
      by by rewrite <-app_assoc.
    apply (IH a1 (l1' ++ [p]) nx l2' He1 HI2). simpl in Hmu. lia.
Qed.

End Walk.

(** ** The traversal list that the Order Index builds *)

Lemma length_scatter dest ws vs : length (scatter dest ws vs) = length dest.
Proof.
  unfold scatter. revert dest vs.
  induction ws as [|w ws IH]; intros dest [|v vs]; simpl; try done.
  by rewrite IH, length_insert.
Qed.

Lemma scatter_miss dest ws vs x :
  x ∉ ws → scatter dest ws vs !! x = dest !! x.
Proof.
  unfold scatter. revert dest vs.
  induction ws as [|w ws IH]; intros dest [|v vs] Hx; simpl; try done.
  apply not_elem_of_cons in Hx as [Hxw Hx].
  rewrite IH by done. by apply list_lookup_insert_ne.
Qed.

Lemma scatter_hit dest ws vs k w v :
  NoDup ws → ws !! k = Some w → vs !! k = Some v → w < length dest →
  scatter dest ws vs !! w = Some (Z.of_nat v).
Proof.
  revert dest vs k.
  induction ws as [|w0 ws IH]; intros dest [|v0 vs] k Hnd Hw Hv Hlen;
    try done.
  apply NoDup_cons in Hnd as [Hw0 Hnd].
  change (scatter dest (w0 :: ws) (v0 :: vs))
    with (scatter (<[w0 := Z.of_nat v0]> dest) ws vs).
  destruct k as [|k]; simpl in *; simplify_eq.
  - rewrite scatter_miss by done. by apply list_lookup_insert_eq.
  - eapply IH; [done..|]. by rewrite length_insert.
Qed.

Lemma chain_intro pv nx l : ∀ b a,
  (∀ k x, l !! k = Some x →
          getZ pv x = Some (match k with
                            | 0 => b
                            | S k' => default b (l !! k')
                            end)
          ∧ getZ nx x = Some (default a (l !! S k))) →
  chain pv nx b l a.
Proof.
  induction l as [|x l IH]; intros b a H; simpl; [done|].
  destruct (H 0 x eq_refl) as [Hp Hn]. split_and!; [done|by destruct l|].
  apply IH. intros k y Hy. destruct (H (S k) y Hy) as [Hp' Hn'].
  split; [|done]. rewrite Hp'. destruct k as [|k]; simpl; [done|].
  destruct (lookup_lt_is_Some_2 l k) as [z Hz];
    [apply lookup_lt_Some in Hy; lia|]. by rewrite Hz.
Qed.

Lemma lookup_but_last {A} (l : list A) k :
  S k < length l → but_last l !! k = l !! k.
Proof. intros Hk. unfold but_last. apply lookup_take_lt. lia. Qed.

Lemma initial_listed n rk idx :
  length rk = n → NoDup idx → (∀ x, x ∈ idx → x < n) →
  listed n (Arena rk (make_prev n idx) (make_next n idx)) (Z.of_nat <$> idx).
Proof.
  intros <- Hnd Hrange. set (n := length rk) in *.
  constructor; simpl.
  - done.
  - unfold make_prev. by rewrite length_scatter, length_replicate.
  - unfold make_next. by rewrite length_scatter, length_replicate.
  - apply NoDup_fmap_2; [|done]. intros ???. lia.
  - intros x (y & -> & Hy%Hrange)%list_elem_of_fmap. lia.
  - apply chain_intro. intros k x Hx.
    rewrite list_lookup_fmap in Hx.
    destruct (idx !! k) as [y|] eqn:Hy; [|done]. simpl in Hx.
    injection Hx as <-.
    assert (y < n) as Hyn by (apply Hrange; by eapply list_elem_of_lookup_2).
    pose proof (lookup_lt_Some _ _ _ Hy) as Hk.
    unfold getZ. assert ((Z.of_nat y <? 0)%Z = false) as -> by lia.
    rewrite Nat2Z.id. split.
    + unfold make_prev. destruct k as [|k].
      * rewrite scatter_miss, lookup_replicate_2; [done|done|].
        destruct idx as [|z idx]; simplify_eq/=.
        by apply NoDup_cons in Hnd as [? _].
      * destruct (lookup_lt_is_Some_2 idx k) as [z Hz]; [lia|].
        rewrite list_lookup_fmap, Hz. simpl.
        eapply (scatter_hit _ _ _ k).
        -- destruct idx; [done|]. by apply NoDup_cons in Hnd as [_ ?].
        -- by rewrite lookup_tail.
        -- rewrite lookup_but_last by lia. done.
        -- by rewrite length_replicate.
    + unfold make_next. rewrite list_lookup_fmap.
      destruct (idx !! S k) as [z|] eqn:Hz; simpl.
      * pose proof (lookup_lt_Some _ _ _ Hz).
        eapply (scatter_hit _ _ _ k).
        -- unfold but_last. eapply sublist_NoDup; [|apply sublist_take]. done.
        -- by rewrite lookup_but_last.
        -- by rewrite lookup_tail.
        -- by rewrite length_replicate.
      * rewrite scatter_miss, lookup_replicate_2; [done|done|].
        apply lookup_ge_None in Hz.
        intros (j & Hj)%list_elem_of_lookup_1.
        pose proof (lookup_lt_Some _ _ _ Hj) as Hjl.
        unfold but_last in Hj, Hjl. rewrite length_take in Hjl.
        rewrite lookup_take_lt in Hj by lia.
        pose proof (NoDup_lookup _ _ _ _ Hnd Hj Hy). lia.
Qed.

(** ** Geometry of the padded buffer *)

Lemma length_bind_uniform {A B} (f : A → list B) m (l : list A) :
  (∀ a, length (f a) = m) → length (l ≫= f) = length l * m.
Proof.
  intros Hf. induction l as [|a l IH]; [done|].
  rewrite bind_cons, length_app, IH, Hf. simpl. lia.
Qed.

Lemma lookup_bind_uniform {A B} (f : A → list B) m (l : list A) i j x :
  (∀ a, length (f a) = m) → l !! i = Some x → j < m →
  (l ≫= f) !! (i * m + j) = f x !! j.
Proof.
  intros Hf. revert i. induction l as [|a l IH]; intros [|i] Hi Hj;
    simplify_eq/=.
  - rewrite lookup_app_l; [done|]. by rewrite Hf.
  - rewrite lookup_app_r; rewrite Hf; [|lia].
    replace (m + i * m + j - m) with (i * m + j) by lia. by apply IH.
Qed.

Lemma length_indices shape : length (indices shape) = size_of shape.
Proof.
  induction shape as [|d ds IH]; [done|]. simpl.
  rewrite (length_bind_uniform _ (size_of ds)).
  - by rewrite length_seq.
  - intros i. by rewrite length_fmap.
Qed.

Lemma ravel_lt shape idx : valid_index shape idx → ravel shape idx < size_of shape.
Proof.
  unfold valid_index. intros H. induction H as [|i d idx ds Hi _ IH]; simpl.
  - lia.
  - nia.
Qed.

Lemma indices_lookup shape idx :
  valid_index shape idx → indices shape !! ravel shape idx = Some idx.
Proof.
  unfold valid_index. intros H. induction H as [|i d idx ds Hi Hv IH]; [done|].
  simpl. rewrite (lookup_bind_uniform _ (size_of ds) _ _ _ i).
  - by rewrite list_lookup_fmap, IH.
  - intros a. by rewrite length_fmap, length_indices.
  - by apply lookup_seq_lt.
  - by apply ravel_lt.
Qed.

Lemma indices_lookup_inv shape p idx :
  indices shape !! p = Some idx → valid_index shape idx ∧ ravel shape idx = p.
Proof.
  unfold valid_index. revert p idx.
  induction shape as [|d ds IH]; intros p idx Hp; simpl in *.
  - destruct p; simplify_eq/=. split; [constructor|done].
  - pose proof (lookup_lt_Some _ _ _ Hp) as Hlen.
    rewrite (length_bind_uniform _ (size_of ds)), length_seq in Hlen.
    2:{ intros a. by rewrite length_fmap, length_indices. }
    assert (0 < size_of ds) as Hpos by (destruct (size_of ds); lia).
    pose proof (Nat.div_mod_eq p (size_of ds)) as Hdm.
    pose proof (Nat.mod_upper_bound p (size_of ds)) as Hmod.
    assert (p / size_of ds < d) as Hdiv by (apply Nat.Div0.div_lt_upper_bound; lia).
    rewrite Hdm, (Nat.mul_comm (size_of ds)) in Hp.
    rewrite (lookup_bind_uniform _ (size_of ds) _ _ _ (p / size_of ds)) in Hp.
    + rewrite list_lookup_fmap in Hp.
      destruct (indices ds !! (p `mod` size_of ds)) as [idx'|] eqn:E;
        simplify_eq/=.
      destruct (IH _ _ E) as [Hv Hr]. split; [by constructor|].
      rewrite Hr. lia.
    + intros a. by rewrite length_fmap, length_indices.
    + by apply lookup_seq_lt.
    + lia.
Qed.

Lemma valid_index_length shape idx :
  valid_index shape idx → length idx = length shape.
Proof. apply Forall2_length. Qed.

(** The flat position as a sum over the strides. *)
Lemma ravel_stride_sum shape idx :
  length idx = length shape →
  Z.of_nat (ravel shape idx) = stride_sum (strides shape) (Z.of_nat <$> idx).
Proof.
  revert idx. induction shape as [|d ds IH]; intros [|i idx] Hlen;
    simplify_eq/=; [done|].
  unfold stride_sum in *. simpl. rewrite <-IH by done. lia.
Qed.

Lemma stride_sum_add st u v :
  length u = length v →
  stride_sum st (zip_with Z.add u v) = (stride_sum st u + stride_sum st v)%Z.
Proof.
  unfold stride_sum. revert u v.
  induction st as [|s st IH]; intros [|x u] [|y v] Hlen; simplify_eq/=;
    try done.
  rewrite IH by done. lia.
Qed.

Lemma length_embed t pad off a pshape :
  length (embed t pad off a pshape) = size_of pshape.
Proof. unfold embed. by rewrite length_fmap, length_indices. Qed.

Lemma embed_lookup t pad off a pshape p idx :
  indices pshape !! p = Some idx →
  embed t pad off a pshape !! p
  = Some (cast t (if inside off (arr_shape a) idx
                  then default pad
                         (arr_data a
                            !! ravel (arr_shape a) (zip_with Nat.sub idx off))
                  else pad)).
Proof. intros Hp. unfold embed. by rewrite list_lookup_fmap, Hp. Qed.

Section Layout.

Context (argsort : list Z → list nat).
Context (seed mask : ndarray) (m : method_kind) (pad : Z) (fp : ndarray)
        (off : list nat).

Let L := build argsort seed mask m pad fp off.
Let pshape := padded_shape (arr_shape seed) (arr_shape fp).
Let dt := promote_types (arr_dtype seed) (arr_dtype mask).

Lemma build_shape : lay_shape L = pshape.
Proof. unfold L, build. by destruct (method_ranks _ _). Qed.

Lemma build_stride : lay_stride L = size_of pshape.
Proof. unfold L, build. by destruct (method_ranks _ _). Qed.

Lemma build_images :
  lay_images L = embed dt pad off seed pshape ++ embed dt pad off mask pshape.
Proof. unfold L, build. by destruct (method_ranks _ _). Qed.

Lemma build_nb : lay_nb L = nb_strides pshape fp off.
Proof. unfold L, build. by destruct (method_ranks _ _). Qed.

Lemma build_index :
  lay_index L = match m with
                | Dilation => reverse (argsort (lay_images L))
                | Erosion => argsort (lay_images L)
                end.
Proof. unfold L, build. by destruct (method_ranks _ _). Qed.

Lemma build_prev :
  lay_prev L = make_prev (length (lay_images L)) (lay_index L).
Proof. unfold L, build. by destruct (method_ranks _ _). Qed.

Lemma build_next :
  lay_next L = make_next (length (lay_images L)) (lay_index L).
Proof. unfold L, build. by destruct (method_ranks _ _). Qed.

Lemma build_rank :
  lay_rank L = rank_of (distinct_sorted (ikey m dt <$> lay_images L))
                 <$> (ikey m dt <$> lay_images L).
Proof.
  unfold L, build. rewrite method_ranks_eq. done.
Qed.

Lemma build_map :
  lay_map L = ikey m dt <$> distinct_sorted (ikey m dt <$> lay_images L).
Proof. unfold L, build. rewrite method_ranks_eq. done. Qed.

Lemma length_build_images : length (lay_images L) = 2 * lay_stride L.
Proof.
  rewrite build_images, build_stride, length_app, !length_embed. lia.
Qed.

Lemma length_build_rank : length (lay_rank L) = 2 * lay_stride L.
Proof. by rewrite build_rank, !length_fmap, length_build_images. Qed.

(** The samples of the two channels at a position of the padded shape. *)
Lemma build_images_seed p idx :
  indices pshape !! p = Some idx →
  lay_images L !! p
  = Some (cast dt (if inside off (arr_shape seed) idx
                   then default pad (arr_data seed
                          !! ravel (arr_shape seed) (zip_with Nat.sub idx off))
                   else pad)).
Proof.
  intros Hp. rewrite build_images, lookup_app_l.
  - by apply embed_lookup.
  - rewrite length_embed, <-length_indices. by eapply lookup_lt_Some.
Qed.

Lemma build_images_mask p idx :
  indices pshape !! p = Some idx →
  lay_images L !! (p + lay_stride L)
  = Some (cast dt (if inside off (arr_shape mask) idx
                   then default pad (arr_data mask
                          !! ravel (arr_shape mask) (zip_with Nat.sub idx off))
                   else pad)).
Proof.
  intros Hp. rewrite build_images, build_stride, lookup_app_r.
  - rewrite length_embed. replace (p + size_of pshape - size_of pshape) with p by lia.
    by apply embed_lookup.
  - rewrite length_embed. lia.
Qed.

(** The buffer holds values of its element type. *)
Lemma build_images_hold p v : lay_images L !! p = Some v → holds dt v.
Proof.
  rewrite build_images. intros Hp.
  apply list_elem_of_lookup_2, elem_of_app in Hp as [Hp|Hp];
    apply list_elem_of_fmap in Hp as (idx & -> & _); apply holds_cast.
Qed.

Lemma build_rank_lookup p v :
  lay_images L !! p = Some v →
  lay_rank L !! p
  = Some (rank_of (distinct_sorted (ikey m dt <$> lay_images L))
                  (ikey m dt v)).
Proof. intros Hp. by rewrite build_rank, !list_lookup_fmap, Hp. Qed.

End Layout.

(** An inside cell moved by a footprint offset stays in the padded shape. *)
Lemma neighbor_index sshape : ∀ off fshape idx c,
  length off = length sshape → length fshape = length sshape →
  valid_index (padded_shape sshape fshape) idx →
  inside off sshape idx = true → valid_index fshape c →
  ∃ w, valid_index (padded_shape sshape fshape) w
       ∧ zip_with Z.add (Z.of_nat <$> idx)
           (zip_with (λ i o, Z.of_nat i - Z.of_nat o)%Z c off)
         = Z.of_nat <$> w.
Proof.
  unfold valid_index.
  induction sshape as [|s ss IH];
    intros [|o off] [|f fs] idx c Hlo Hlf Hv Hin Hc; simplify_eq/=.
  - inversion Hv; subst. exists []. split; [constructor|done].
  - inversion Hv as [|i d idx' ps Hi Hv']; subst.
    inversion Hc as [|c0 d c' fs' Hc0 Hc']; subst.
    simpl in Hin. apply andb_true_iff in Hin as [Hio Hin].
    apply andb_true_iff in Hio as [Hoi His].
    apply Nat.leb_le in Hoi. apply Nat.ltb_lt in His.
    destruct (IH off fs idx' c') as (w & Hw & Heq); [done..|].
    exists ((i + c0 - o) :: w). split.
    + constructor; [lia|done].
    + rewrite !fmap_cons. cbn [zip_with]. rewrite Heq. f_equal. lia.
Qed.

Lemma elem_of_footprint_offsets fp off δ :
  δ ∈ footprint_offsets fp off →
  ∃ c, valid_index (arr_shape fp) c
       ∧ δ = zip_with (λ i o, Z.of_nat i - Z.of_nat o)%Z c off.
Proof.
  unfold footprint_offsets.
  intros ([c v] & -> & Hc)%list_elem_of_fmap.
  apply list_elem_of_filter in Hc as [_ Hc].
  apply elem_of_zip_l in Hc. simpl in *.
  apply list_elem_of_lookup_1 in Hc as [k Hk].
  apply indices_lookup_inv in Hk as [Hv _]. eauto.
Qed.

Section Initial.

Context (argsort : list Z → list nat).
Context (seed mask : ndarray) (m : method_kind) (pad : Z) (fp : ndarray)
        (off : list nat).

Hypothesis shape_eq : arr_shape seed = arr_shape mask.
Hypothesis fp_ndim : ndim fp = ndim seed.
Hypothesis off_ndim : length off = ndim seed.

Let L := build argsort seed mask m pad fp off.

(** Where the two channels differ the position is an inside cell. *)
Lemma differ_inside p idx r cap :
  indices (lay_shape L) !! p = Some idx →
  lay_rank L !! p = Some r → lay_rank L !! (p + lay_stride L) = Some cap →
  r ≠ cap → inside off (arr_shape seed) idx = true.
Proof.
  unfold L. rewrite build_shape. intros Hidx Hr Hcap Hne.
  pose proof (build_images_seed argsort seed mask m pad fp off p idx Hidx) as H0.
  pose proof (build_images_mask argsort seed mask m pad fp off p idx Hidx) as H1.
  rewrite (build_rank_lookup _ _ _ _ _ _ _ _ _ H0) in Hr.
  rewrite (build_rank_lookup _ _ _ _ _ _ _ _ _ H1) in Hcap.
  rewrite <-shape_eq in Hcap.
  destruct (inside off (arr_shape seed) idx); [done|]. congruence.
Qed.

Lemma safe_initial : safe (lay_stride L) (lay_nb L) (lay_rank L).
Proof.
  intros p r cap d Hp [_ Hr]%getZ_Some [_ Hcap]%getZ_Some Hlt Hd.
  rewrite Z2Nat.inj_add, Nat2Z.id in Hcap by lia.
  pose proof (build_shape argsort seed mask m pad fp off) as Hsh.
  pose proof (build_stride argsort seed mask m pad fp off) as Hst.
  pose proof (build_nb argsort seed mask m pad fp off) as Hnb.
  fold L in Hsh, Hst, Hnb.
  destruct (lookup_lt_is_Some_2 (indices (lay_shape L)) (Z.to_nat p))
    as [idx Hidx].
  { rewrite length_indices, Hsh, <-Hst. lia. }
  assert (inside off (arr_shape seed) idx = true) as Hin.
  { eapply differ_inside; [done..|lia]. }
  rewrite Hsh in Hidx. rewrite Hnb in Hd. rewrite Hst in *.
  apply indices_lookup_inv in Hidx as [Hv Hrav].
  unfold nb_strides in Hd.
  apply list_elem_of_fmap in Hd as (δ & -> & Hδ).
  apply elem_of_footprint_offsets in Hδ as (c & Hc & ->).
  destruct (neighbor_index (arr_shape seed) off (arr_shape fp) idx c)
    as (w & Hw & Heq); [done..|].
  pose proof (ravel_lt _ _ Hw) as Hwlt.
  assert (p + stride_sum (strides (padded_shape (arr_shape seed) (arr_shape fp)))
                (zip_with (λ i o, Z.of_nat i - Z.of_nat o)%Z c off)
          = Z.of_nat (ravel (padded_shape (arr_shape seed) (arr_shape fp)) w))%Z
    as ->; [|lia].
  rewrite (ravel_stride_sum _ w) by by apply valid_index_length.
  rewrite <-Heq, stride_sum_add.
  - rewrite <-ravel_stride_sum by by apply valid_index_length.
    rewrite Hrav. lia.
  - rewrite length_fmap, length_zip_with.
    rewrite (valid_index_length _ _ Hv), (valid_index_length _ _ Hc).
    unfold padded_shape. rewrite length_zip_with. unfold ndim in *. lia.
Qed.

End Initial.

(** ** The loop on the layout of an accepted call *)

Lemma grows_refl s rk : grows s rk rk.
Proof.
  split; [done|]. intros x r0 r H0 H1. simplify_eq. split_and!; auto.
Qed.

Lemma grows_raised nb s rk0 p a l a' l' :
  length (ranks a) = 2 * s → (0 ≤ p < Z.of_nat s)%Z →
  raised nb (Z.of_nat s) p a l a' l' →
  grows s rk0 (ranks a) → grows s rk0 (ranks a').
Proof.
  intros Hlen Hp (r & cap & cand & link & l1 & l2 & k1 & k2 & Hr & Hcap
                  & Hlink & Hcand & Hlp & Hranks & _) [Hl Hg].
  rewrite Hranks. unfold setZ.
  assert ((p <? 0)%Z = false) as -> by lia.
  split; [by rewrite length_insert|].
  intros x r0 r' H0 H1.
  apply getZ_Some in Hr as [_ Hr]. apply getZ_Some in Hcap as [_ Hcap].
  rewrite Z2Nat.inj_add, Nat2Z.id in Hcap by lia.
  destruct (decide (x = Z.to_nat p)) as [->|Hne].
  - rewrite list_lookup_insert_eq in H1 by lia. simplify_eq.
    destruct (Hg _ _ _ H0 Hr) as (Hle & _ & Hc).
    split_and!; [lia|lia|].
    intros cap0 Hcap0. right.
    destruct (Hg _ _ _ Hcap0 Hcap) as (_ & Heq & _). rewrite <-Heq; lia.
  - rewrite list_lookup_insert_ne in H1 by done. by apply Hg.
Qed.

Lemma size_of_pos shape : Forall (lt 0) shape → 0 < size_of shape.
Proof. induction 1; simpl; nia. Qed.

Lemma size_of_pos_inv shape : 0 < size_of shape → Forall (lt 0) shape.
Proof.
  induction shape as [|d ds IH]; simpl; [constructor|].
  intros H. constructor; [nia|]. apply IH. nia.
Qed.

Lemma padded_shape_pos ss fs off :
  Forall (lt 0) ss → Forall2 lt off fs → length fs = length ss →
  Forall (lt 0) (padded_shape ss fs).
Proof.
  unfold padded_shape. intros Hs Ho. revert ss Hs.
  induction Ho as [|o f off' fs' Hof Ho IH]; intros [|s0 ss] Hs Hn;
    simplify_eq/=; constructor.
  - apply Forall_cons in Hs as [? _]. lia.
  - apply Forall_cons in Hs as [_ ?]. by apply IH.
Qed.

Section Loop.

Context (argsort : list Z → list nat).
Context (seed mask : ndarray) (m : method_kind) (pad : Z) (fp : ndarray)
        (off : list nat).

Hypothesis argsort_ok : argsort_permutes argsort.
Hypothesis Hacc : accepted seed mask fp off.

Let L := build argsort seed mask m pad fp off.
Let s := lay_stride L.
Let M := S (max_list (lay_rank L)).
Let a0 := Arena (lay_rank L) (lay_prev L) (lay_next L).
Let l0 := Z.of_nat <$> lay_index L.

Lemma lay_index_permutes : lay_index L ≡ₚ seq 0 (2 * s).
Proof.
  unfold s, L. rewrite build_index, <-length_build_images.
  destruct m; [rewrite reverse_Permutation|]; apply argsort_ok.
Qed.

Lemma off_ndim : length off = ndim seed.
Proof.
  destruct Hacc as [_ _ _ _ Hn Ho]. apply Forall2_length in Ho.
  unfold ndim in *. lia.
Qed.

Lemma stride_pos : 0 < s.
Proof.
  unfold s, L. rewrite build_stride.
  destruct Hacc as [_ Hwf _ Hne Hn Ho].
  apply size_of_pos. eapply padded_shape_pos; [|done..].
  apply size_of_pos_inv. unfold wf_array in Hwf. rewrite <-Hwf.
  destruct (arr_data seed); [done|simpl; lia].
Qed.

Lemma engine_initial : engine s (lay_nb L) M a0 l0.
Proof.
  pose proof lay_index_permutes as Hperm.
  pose proof off_ndim as Hoff.
  unfold a0, l0, M, s, L in *.
  constructor.
  - rewrite build_prev, build_next, length_build_images.
    apply initial_listed.
    + apply length_build_rank.
    + rewrite Hperm. apply NoDup_seq.
    + intros x. rewrite Hperm, elem_of_seq. lia.
  - intros x Hx. apply list_elem_of_fmap. exists (Z.to_nat x).
    split; [lia|]. rewrite Hperm, elem_of_seq. lia.
  - apply safe_initial; [apply Hacc..|done].
  - simpl. apply Forall_forall. intros r Hr%max_list_elem_of_le. lia.
Qed.

Lemma run_loop_inv (I : arena → list Z → Z → Prop) :
  (∀ a l a' l' p,
     engine s (lay_nb L) M a l → engine s (lay_nb L) M a' l' →
     (0 ≤ p < Z.of_nat s)%Z → raised (lay_nb L) (Z.of_nat s) p a l a' l' →
     I a l p → I a' l' p) →
  (∀ a l1 p nx l2,
     engine s (lay_nb L) M a (l1 ++ p :: nx :: l2) →
     stable_at s (lay_nb L) a p →
     I a (l1 ++ p :: nx :: l2) p → I a (l1 ++ p :: nx :: l2) nx) →
  (∀ start rest, l0 = start :: rest → I a0 l0 start) →
  ∃ a' l' p', run_loop L = Ok (ranks a')
              ∧ engine s (lay_nb L) M a' (l' ++ [p'])
              ∧ I a' (l' ++ [p']) p'
              ∧ stable_at s (lay_nb L) a' p'.
Proof.
  intros HIr HIa HI0.
  pose proof engine_initial as He. pose proof stride_pos as Hs.
  pose proof lay_index_permutes as Hperm.
  pose proof (Permutation_length Hperm) as Hlen. rewrite length_seq in Hlen.
  unfold run_loop.
  destruct (lay_index L) as [|start rest] eqn:Hidx; [simpl in Hlen; lia|].
  simpl. unfold reconstruction_loop. fold a0. fold s.
  assert (l0 = Z.of_nat start :: (Z.of_nat <$> rest)) as Hl0 by done.
  destruct (walk_inv s (lay_nb L) M I HIr HIa (budget s a0) a0 []
              (Z.of_nat start) (Z.of_nat <$> rest))
    as (a' & l' & p' & -> & He' & HI' & Hst').
  - simpl. by rewrite <-Hl0.
  - simpl. rewrite <-Hl0. by apply (HI0 _ _ Hl0).
  - unfold budget. simpl ranks.
    pose proof (total_bound _ _ _ _ _ He) as Ht.
    assert (length (lay_rank L) = 2 * s) as -> by apply length_build_rank.
    fold M. rewrite length_fmap. simpl in Hlen. nia.
  - exists a', l', p'. done.
Qed.

(** The loop of an accepted call ends at the list terminator, and its
    ranks have only grown below the caps. *)
Lemma run_loop_grows :
  ∃ rk, run_loop L = Ok rk ∧ grows s (lay_rank L) rk.
Proof.
  destruct (run_loop_inv (λ a _ _, grows s (lay_rank L) (ranks a)))
    as (a' & l' & p' & Hrun & He' & HI' & _).
  - intros a l a' l' p He _ Hp Hraised Hg.
    eapply grows_raised; [|done..].
    apply (listed_ranks _ _ _ (engine_listed _ _ _ _ _ He)).
  - done.
  - intros. apply grows_refl.
  - eauto.
Qed.

End Loop.

(** ** Accepted calls *)

Lemma offset_result_lt fshape offset off :
  offset_result fshape offset = Ok off → length off = length fshape →
  Forall2 lt off fshape.
Proof.
  unfold offset_result, resolve_offset. destruct offset as [o|];
    unfold bind, guard.
  - repeat (case_bool_decide; simpl; [|done]).
    destruct (offset_inside _ _) eqn:Hin; simpl; [|done].
    intros [= <-]. rewrite length_fmap. intros Hlen.
    apply offset_inside_spec in Hin.
    apply Forall2_same_length_lookup. split; [by rewrite length_fmap|].
    intros k c d Hc Hd. rewrite list_lookup_fmap in Hc.
    destruct (arr_data o !! k) as [z|] eqn:Hz; simplify_eq/=.
    specialize (Hin k z d Hz Hd). lia.
  - destruct (all_odd fshape) eqn:Hodd; cbn -[Nat.div]; [|done].
    intros [= <-] _. apply all_odd_spec in Hodd.
    apply Forall2_fmap_l, Forall_Forall2_diag.
    assert (∀ d, Nat.Odd d → d / 2 < d) as Hhalf.
    { intros d [k ->]. apply Nat.Div0.div_lt_upper_bound. lia. }
    eapply Forall_impl; [exact Hodd|]. intros d Hd. exact (Hhalf d Hd).
Qed.

Lemma pad_value_ok m seed :
  arr_data seed ≠ [] → ∃ pad, pad_value m seed = Ok pad.
Proof.
  intros Hne. destruct m; unfold pad_value, array_min, array_max;
    destruct (arr_data seed); [done|eauto|done|eauto].
Qed.

Lemma accepts_accepted h seed mask method footprint offset m fp0 off :
  accepts h seed mask method footprint offset m fp0 off →
  accepted seed mask (clear_center off fp0) off.
Proof.
  intros [? ? ? ? ? ? ? Hn Hoff Hlen]. constructor; try done.
  simpl. apply offset_result_lt in Hoff; [done|]. unfold ndim in *. lia.
Qed.

Lemma accepts_result argsort h seed mask method footprint offset m fp0 off pad :
  accepts h seed mask method footprint offset m fp0 off →
  pad_value m seed = Ok pad →
  (reconstruction argsort seed mask method footprint offset h).2
  = propagate argsort seed mask m pad (clear_center off fp0) off.
Proof.
  intros [Hsh _ _ _ Hord Hm Hfp Hn Hoff Hlen] Hpad.
  rewrite (reconstruction_result _ _ _ _ _ _ _ _ Hsh Hord Hfp), Hoff.
  unfold after_offset. rewrite Hm, Hpad.
  rewrite !bool_decide_eq_true_2; [done|done|]. unfold ndim in *. lia.
Qed.


(** ** The result of an accepted call *)

Lemma crop_shape dt off sshape fshape rec_img :
  Forall2 lt off fshape → length fshape = length sshape →
  arr_shape (crop dt off sshape (padded_shape sshape fshape) rec_img) = sshape.
Proof.
  unfold crop, padded_shape. simpl. intros Ho. revert sshape.
  induction Ho as [|o f off' fs Hof Ho IH]; intros [|s ss] Hlen;
    simplify_eq/=; [done|].
  rewrite IH by done. f_equal. unfold slice_length. lia.
Qed.

Lemma crop_lookup dt off sshape pshape rec_img shape i idx :
  arr_shape (crop dt off sshape pshape rec_img) = shape →
  indices shape !! i = Some idx →
  arr_data (crop dt off sshape pshape rec_img) !! i
  = Some (default 0%Z (rec_img !! ravel pshape (zip_with Nat.add idx off))).
Proof.
  intros <- Hi. unfold crop in *. simpl in *.
  by rewrite list_lookup_fmap, Hi.
Qed.

Lemma length_crop dt off sshape pshape rec_img :
  length (arr_data (crop dt off sshape pshape rec_img))
  = size_of (arr_shape (crop dt off sshape pshape rec_img)).
Proof. unfold crop. simpl. by rewrite length_fmap, length_indices. Qed.

(** A seed index moved by the offset is an inside cell of the padded
    shape. *)
Lemma shifted_index sshape : ∀ fshape off idx,
  Forall2 lt off fshape → length fshape = length sshape →
  valid_index sshape idx →
  valid_index (padded_shape sshape fshape) (zip_with Nat.add idx off)
  ∧ inside off sshape (zip_with Nat.add idx off) = true
  ∧ zip_with Nat.sub (zip_with Nat.add idx off) off = idx.
Proof.
  unfold valid_index, padded_shape.
  induction sshape as [|s ss IH]; intros fshape off idx Ho Hlen Hv.
  - inversion Hv; subst. destruct fshape; [|done]. inversion Ho; subst.
    split_and!; [constructor|done..].
  - inversion Hv as [|i ? idx' ? Hi Hv']; subst.
    destruct fshape as [|f fs]; [done|].
    inversion Ho as [|o ? off' ? Hof Ho']; subst.
    destruct (IH fs off' idx') as (H1 & H2 & H3); [done|by simplify_eq/=|done|].
    cbn [zip_with inside]. rewrite H2, H3. split_and!.
    + constructor; [lia|done].
    + rewrite andb_true_r. apply andb_true_iff.
      split; [apply Nat.leb_le|apply Nat.ltb_lt]; lia.
    + f_equal. lia.
Qed.

Lemma ascending_lookup_le l i j a b :
  ascending l → l !! i = Some a → l !! j = Some b → i ≤ j → (a ≤ b)%Z.
Proof.
  unfold ascending. intros Hl. revert i j.
  induction Hl as [|x l Hl IH Hx]; intros [|i] [|j] Ha Hb Hij;
    simplify_eq/=; try lia.
  - eapply Forall_lookup_1 in Hx; [|done]. lia.
  - eapply IH; [done..|lia].
Qed.

Lemma ascending_lookup_lt l i j a b :
  ascending l → l !! i = Some a → l !! j = Some b → i < j → (a < b)%Z.
Proof.
  unfold ascending. intros Hl. revert i j.
  induction Hl as [|x l Hl IH Hx]; intros [|i] [|j] Ha Hb Hij;
    simplify_eq/=; try lia.
  - eapply Forall_lookup_1 in Hx; [|done]. lia.
  - eapply IH; [done..|lia].
Qed.

Lemma any_gt_false a b i x y :
  any_gt a b = false → arr_data a !! i = Some x → arr_data b !! i = Some y →
  (cast (promote_types (arr_dtype a) (arr_dtype b)) x
   ≤ cast (promote_types (arr_dtype a) (arr_dtype b)) y)%Z.
Proof.
  unfold any_gt. intros Hany Hx Hy.
  set (t := promote_types (arr_dtype a) (arr_dtype b)) in *.
  destruct (decide (cast t x ≤ cast t y)%Z) as [|Hgt]; [done|].
  assert (existsb (λ p, (cast t p.2 <? cast t p.1)%Z)
            (zip (arr_data a) (arr_data b)) = true) as Ht; [|congruence].
  apply existsb_exists. exists (x, y). split; [|simpl; lia].
  apply list_elem_of_In. eapply list_elem_of_lookup_2.
  apply lookup_zip_Some. eauto.
Qed.

Lemma any_lt_false a b i x y :
  any_lt a b = false → arr_data a !! i = Some x → arr_data b !! i = Some y →
  (cast (promote_types (arr_dtype a) (arr_dtype b)) y
   ≤ cast (promote_types (arr_dtype a) (arr_dtype b)) x)%Z.
Proof.
  unfold any_lt. intros Hany Hx Hy.
  set (t := promote_types (arr_dtype a) (arr_dtype b)) in *.
  destruct (decide (cast t y ≤ cast t x)%Z) as [|Hgt]; [done|].
  assert (existsb (λ p, (cast t p.1 <? cast t p.2)%Z)
            (zip (arr_data a) (arr_data b)) = true) as Ht; [|congruence].
  apply existsb_exists. exists (x, y). split; [|simpl; lia].
  apply list_elem_of_In. eapply list_elem_of_lookup_2.
  apply lookup_zip_Some. eauto.
Qed.

(** The ordering precondition of the method, position by position, on the
    samples converted to the element type of the buffer. *)
Lemma ordering_pointwise seed mask method m i vs vm :
  ordering_ok seed mask method = true → parse_method method = Ok m →
  arr_data seed !! i = Some vs → arr_data mask !! i = Some vm →
  (key m (cast (promote_types (arr_dtype seed) (arr_dtype mask)) vs)
   ≤ key m (cast (promote_types (arr_dtype seed) (arr_dtype mask)) vm))%Z.
Proof.
  unfold ordering_ok, parse_method. intros Hord Hm Hs Hk.
  apply andb_true_iff in Hord as [Hd He].
  destruct (String.eqb method "dilation") eqn:Ed.
  - simplify_eq/=. apply negb_true_iff in Hd. by eapply any_gt_false.
  - destruct (String.eqb method "erosion") eqn:Ee; simplify_eq/=.
    apply negb_true_iff in He. pose proof (any_lt_false _ _ _ _ _ He Hs Hk). lia.
Qed.

Lemma key_inj m a b : key m a = key m b → a = b.
Proof. destruct m; simpl; lia. Qed.

Lemma ikey_inj m t a b :
  holds t a → holds t b → ikey m t a = ikey m t b → a = b.
Proof.
  intros Ha Hb Hab.
  by rewrite <-(ikey_involutive m t a), <-(ikey_involutive m t b), Hab.
Qed.

(** Between two values of the element type that are in the order of the
    method, what lies between them for the ranks, and is not the lower one,
    lies between them in the order of the method. *)
Lemma ikey_between m t lo v hi :
  holds t lo → holds t v → holds t hi →
  (key m lo ≤ key m hi)%Z →
  (ikey m t lo < ikey m t v)%Z → (ikey m t v ≤ ikey m t hi)%Z →
  (key m lo ≤ key m v ≤ key m hi)%Z.
Proof.
  intros Hlo Hv Hhi Hord Hl Hh. split.
  - destruct (decide (key m lo ≤ key m v)%Z) as [|Hn]; [done|].
    destruct (ikey_order m t v lo Hv Hlo) as [?|Hw]; [lia|lia|].
    pose proof (wrapped_top m t lo hi Hw Hhi).
    assert (hi = lo) as -> by (apply (key_inj m); lia). lia.
  - destruct (decide (key m v ≤ key m hi)%Z) as [|Hn]; [done|].
    destruct (ikey_order m t hi v Hhi Hv) as [?|Hw]; [lia| |].
    + assert (v = hi) as -> by (apply (ikey_inj m t); [done..|lia]). lia.
    + pose proof (wrapped_least m t v lo Hw Hlo). lia.
Qed.

Section Extraction.

Context (argsort : list Z → list nat).
Context (seed mask : ndarray) (m : method_kind) (pad : Z) (fp : ndarray)
        (off : list nat).

Hypothesis Hacc : accepted seed mask fp off.

Let L := build argsort seed mask m pad fp off.
Let s := lay_stride L.
Let dt := promote_types (arr_dtype seed) (arr_dtype mask).
Let V := distinct_sorted (ikey m dt <$> lay_images L).

(** The two samples and the two initial ranks of the cell of a seed
    index. *)
Lemma cell_layout i idx vs vm :
  indices (arr_shape seed) !! i = Some idx →
  arr_data seed !! i = Some vs → arr_data mask !! i = Some vm →
  let p := ravel (lay_shape L) (zip_with Nat.add idx off) in
  p < s
  ∧ lay_images L !! p = Some (cast dt vs)
  ∧ lay_images L !! (p + s) = Some (cast dt vm)
  ∧ lay_rank L !! p = Some (rank_of V (ikey m dt (cast dt vs)))
  ∧ lay_rank L !! (p + s) = Some (rank_of V (ikey m dt (cast dt vm))).
Proof.
  intros Hidx Hvs Hvm p.
  destruct Hacc as [Hsh Hwfs Hwfm Hne Hn Ho].
  apply indices_lookup_inv in Hidx as [Hv Hrav].
  destruct (shifted_index (arr_shape seed) (arr_shape fp) off idx)
    as (Hw & Hin & Hsub); [done..|].
  unfold p, s, V, L, dt in *. rewrite build_shape, build_stride.
  pose proof (indices_lookup _ _ Hw) as Hlook.
  pose proof (build_images_seed argsort seed mask m pad fp off _ _ Hlook) as H0.
  pose proof (build_images_mask argsort seed mask m pad fp off _ _ Hlook) as H1.
  rewrite <-Hsh, build_stride in H1.
  rewrite Hin, Hsub, Hrav in H0, H1. rewrite Hvs in H0. rewrite Hvm in H1.
  simpl in H0, H1.
  split_and!; [by apply ravel_lt|done|done|..].
  - by rewrite (build_rank_lookup _ _ _ _ _ _ _ _ _ H0).
  - by rewrite (build_rank_lookup _ _ _ _ _ _ _ _ _ H1).
Qed.

Lemma key_elem_of_V p v : lay_images L !! p = Some v → ikey m dt v ∈ V.
Proof.
  intros Hp. apply elem_of_distinct_sorted, list_elem_of_fmap.
  exists v. split; [done|]. by eapply list_elem_of_lookup_2.
Qed.

(** The value map holds samples of the buffer. *)
Lemma map_sample r vo :
  lay_map L !! r = Some vo →
  ∃ p, lay_images L !! p = Some vo ∧ V !! r = Some (ikey m dt vo).
Proof.
  unfold L. rewrite build_map, list_lookup_fmap. fold L dt V.
  intros Hr. destruct (V !! r) as [u|] eqn:Hu; simplify_eq/=.
  pose proof (list_elem_of_lookup_2 _ _ _ Hu) as Hin.
  apply elem_of_distinct_sorted, list_elem_of_fmap in Hin as (b & -> & Hb).
  apply list_elem_of_lookup_1 in Hb as [p Hp].
  pose proof (build_images_hold argsort seed mask m pad fp off p b Hp) as Hh.
  fold dt in Hh. rewrite (ikey_involutive m dt b Hh). eauto.
Qed.

(** The sample that the extraction returns for a cell is a value of the
    element type of the buffer and lies, in the order of the method, between
    the seed and the mask sample of the cell as the buffer holds them. *)
Lemma cell_bounds rk i idx vs vm :
  grows s (lay_rank L) rk →
  (key m (cast dt vs) ≤ key m (cast dt vm))%Z →
  indices (arr_shape seed) !! i = Some idx →
  arr_data seed !! i = Some vs → arr_data mask !! i = Some vm →
  ∃ r vo,
    rk !! ravel (lay_shape L) (zip_with Nat.add idx off) = Some r
    ∧ lay_map L !! r = Some vo
    ∧ holds dt vo
    ∧ (∃ q, lay_images L !! q = Some vo)
    ∧ (key m (cast dt vs) ≤ key m vo ≤ key m (cast dt vm))%Z.
Proof.
  intros [Hlen Hg] Hord Hidx Hvs Hvm.
  destruct (cell_layout i idx vs vm Hidx Hvs Hvm) as (Hp & H0 & H1 & Hr0 & Hc0).
  set (p := ravel (lay_shape L) (zip_with Nat.add idx off)) in *.
  destruct (lookup_lt_is_Some_2 rk p) as [r Hr].
  { rewrite Hlen. by eapply lookup_lt_Some. }
  destruct (Hg _ _ _ Hr0 Hr) as (Hle & _ & Hcap). specialize (Hcap _ Hc0).
  pose proof (distinct_sorted_ascending (ikey m dt <$> lay_images L)) as Hasc.
  fold V in Hasc.
  pose proof (lookup_rank_of V _ Hasc (key_elem_of_V _ _ H0)) as Hl0.
  pose proof (lookup_rank_of V _ Hasc (key_elem_of_V _ _ H1)) as Hl1.
  assert (lay_map L = ikey m dt <$> V) as Hmap by apply build_map.
  pose proof (holds_cast dt vs) as Hhs. pose proof (holds_cast dt vm) as Hhm.
  exists r.
  destruct (decide (r = rank_of V (ikey m dt (cast dt vs)))) as [->|Hne].
  - exists (cast dt vs). rewrite Hmap, list_lookup_fmap, Hl0. simpl.
    rewrite ikey_involutive by done. do 3 (split; [done|]).
    split; [eauto|lia].
  - assert (r ≤ rank_of V (ikey m dt (cast dt vm))) as Hrc
      by (destruct Hcap; [done|lia]).
    destruct (lookup_lt_is_Some_2 V r) as [u Hu].
    { apply lookup_lt_Some in Hl1. lia. }
    assert (lay_map L !! r = Some (ikey m dt u)) as Hv
      by (by rewrite Hmap, list_lookup_fmap, Hu).
    destruct (map_sample _ _ Hv) as (q & Hq & Hu').
    pose proof (build_images_hold argsort seed mask m pad fp off q _ Hq) as Hh.
    fold dt in Hh.
    exists (ikey m dt u). do 3 (split; [done|]). split; [eauto|].
    rewrite Hu in Hu'. injection Hu' as Hu'.
    apply (ikey_between m dt); [done..| |]; rewrite <-Hu'.
    + eapply (ascending_lookup_lt V _ r); [done..|lia].
    + by eapply (ascending_lookup_le V r).
Qed.

End Extraction.

Lemma propagate_ok argsort seed mask m pad fp off :
  argsort_permutes argsort → accepted seed mask fp off →
  ∃ rk, run_loop (build argsort seed mask m pad fp off) = Ok rk
        ∧ grows (lay_stride (build argsort seed mask m pad fp off))
                (lay_rank (build argsort seed mask m pad fp off)) rk
        ∧ propagate argsort seed mask m pad fp off
          = Ok (crop (promote_types (arr_dtype seed) (arr_dtype mask)) off
                  (arr_shape seed)
                  (padded_shape (arr_shape seed) (arr_shape fp))
                  ((λ r, default 0%Z
                           (lay_map (build argsort seed mask m pad fp off) !! r))
                     <$> take (lay_stride (build argsort seed mask m pad fp off))
                              rk)).
Proof.
  intros Hsort Hacc.
  destruct (run_loop_grows argsort seed mask m pad fp off Hsort Hacc)
    as (rk & Hrun & Hg).
  exists rk. split_and!; [done..|].
  unfold propagate. by rewrite Hrun, build_shape.
Qed.


(** The result of the later stages is bounded, position by position and in
    the order of the method, by the seed and the mask as the buffer holds
    them; its samples are samples of the buffer. *)
Lemma propagate_bounds argsort seed mask m pad fp off :
  argsort_permutes argsort → accepted seed mask fp off →
  (∀ i vs vm, arr_data seed !! i = Some vs → arr_data mask !! i = Some vm →
              (key m (cast (promote_types (arr_dtype seed) (arr_dtype mask)) vs)
               ≤ key m (cast (promote_types (arr_dtype seed) (arr_dtype mask)) vm))%Z) →
  ∃ out, propagate argsort seed mask m pad fp off = Ok out
         ∧ length (arr_data out) = length (arr_data seed)
         ∧ ∀ i vs vo vm,
             arr_data seed !! i = Some vs → arr_data out !! i = Some vo →
             arr_data mask !! i = Some vm →
             holds (promote_types (arr_dtype seed) (arr_dtype mask)) vo
             ∧ (key m (cast (promote_types (arr_dtype seed) (arr_dtype mask)) vs)
                ≤ key m vo
                ≤ key m (cast (promote_types (arr_dtype seed) (arr_dtype mask)) vm))%Z.
Proof.
  intros Hsort Hacc Hord.
  destruct (propagate_ok argsort seed mask m pad _ off Hsort Hacc)
    as (rk & _ & Hg & Hres).
  rewrite Hres. eexists. split; [done|].
  match goal with |- context [crop ?dt ?o ?ss ?ps ?ri] =>
    pose proof (crop_shape dt o ss (arr_shape fp) ri
                  (acc_offset _ _ _ _ Hacc) (acc_ndim _ _ _ _ Hacc)) as Hshape
  end.
  split.
  - rewrite length_crop, Hshape. symmetry. apply (acc_seed _ _ _ _ Hacc).
  - intros i vs vo vm Hvs Hvo Hvm.
    destruct (lookup_lt_is_Some_2 (indices (arr_shape seed)) i) as [idx Hidx].
    { rewrite length_indices, <-(acc_seed _ _ _ _ Hacc).
      by eapply lookup_lt_Some. }
    rewrite (crop_lookup _ _ _ _ _ _ _ _ Hshape Hidx) in Hvo.
    destruct (cell_bounds argsort seed mask m pad _ off Hacc rk i idx vs vm
                Hg (Hord _ _ _ Hvs Hvm) Hidx Hvs Hvm)
      as (r & u & Hr & Hu & Hh & _ & Hb).
    destruct (cell_layout argsort seed mask m pad _ off Hacc i idx vs vm
                Hidx Hvs Hvm) as (Hp & _).
    rewrite build_shape in Hr, Hp.
    rewrite list_lookup_fmap, lookup_take_lt, Hr in Hvo by done.
    simpl in Hvo. rewrite Hu in Hvo. simpl in Hvo. by simplify_eq.
Qed.



(** ** The order of the traversal list and the stability of what the walk
    has left behind *)

Lemma NoDup_split_unique (l1 l2 k1 k2 : list Z) p :
  NoDup (l1 ++ p :: l2) → l1 ++ p :: l2 = k1 ++ p :: k2 → l1 = k1 ∧ l2 = k2.
Proof.
  revert k1. induction l1 as [|x l1 IH]; intros [|y k1] Hnd Heq;
    simplify_eq/=.
  - done.
  - apply NoDup_cons in Hnd as [Hy _]. exfalso. apply Hy.
    apply elem_of_app. right. left.
  - apply NoDup_cons in Hnd as [Hx _]. exfalso. apply Hx.
    apply elem_of_app. right. left.
  - apply NoDup_cons in Hnd as [_ Hnd]. destruct (IH k1 Hnd) as [-> ->]; done.
Qed.

Lemma StronglySorted_ext_in {A} (R R' : A → A → Prop) l :
  (∀ x y, x ∈ l → y ∈ l → R x y → R' x y) →
  StronglySorted R l → StronglySorted R' l.
Proof.
  intros Hext Hl. induction Hl as [|x l Hl IH Hx]; constructor.
  - apply IH. intros y z Hy Hz. apply Hext; by right.
  - apply Forall_forall. intros y Hy. apply Hext; [left|by right|].
    by eapply Forall_forall in Hx.
Qed.

Lemma rk_at_setZ_eq rk p v :
  (0 ≤ p < Z.of_nat (length rk))%Z → rk_at (setZ rk p v) p = v.
Proof. intros Hp. unfold rk_at. by rewrite getZ_setZ_eq. Qed.

Lemma rk_at_setZ_ne rk p x v : p ≠ x → rk_at (setZ rk p v) x = rk_at rk x.
Proof. intros Hp. unfold rk_at. by rewrite getZ_setZ_ne. Qed.

Lemma rk_at_Some rk x r : getZ rk x = Some r → rk_at rk x = r.
Proof. unfold rk_at. by intros ->. Qed.

(** A raise leaves the other positions frozen. *)
Lemma frozen_setZ s rk p cand x :
  (0 ≤ p < Z.of_nat s)%Z → x ≠ p →
  frozen s rk x → frozen s (setZ rk p cand) x.
Proof.
  intros Hp Hx [H0 Hc]. split.
  - by rewrite rk_at_setZ_ne.
  - intros Hxs. rewrite rk_at_setZ_ne by lia. auto.
Qed.

Lemma descending_rel_setZ s rk p cand x y :
  (0 ≤ p < Z.of_nat s)%Z → x ≠ p → y ≠ p →
  rk_at rk y ≤ rk_at rk x ∨ frozen s rk x →
  rk_at (setZ rk p cand) y ≤ rk_at (setZ rk p cand) x
  ∨ frozen s (setZ rk p cand) x.
Proof.
  intros Hp Hx Hy [Hle|Hf].
  - left. by rewrite !rk_at_setZ_ne.
  - right. by apply frozen_setZ.
Qed.

(** Moving the raised position right after its link keeps the list in
    order. *)
Lemma descending_raise s rk p cand link l1 l2 k1 k2 :
  NoDup (l1 ++ p :: l2) → (0 ≤ p < Z.of_nat (length rk))%Z →
  (0 ≤ p < Z.of_nat s)%Z →
  rk_at rk link = cand → 0 < cand → link ≠ p →
  descending s rk (l1 ++ p :: l2) → l1 ++ l2 = k1 ++ link :: k2 →
  descending s (setZ rk p cand) (k1 ++ link :: p :: k2).
Proof.
  unfold descending. intros Hnd Hp Hps Hlink Hpos Hlp Hsort Hk.
  assert (p ∉ k1 ++ link :: k2) as Hpk.
  { rewrite <-Hk. apply NoDup_app in Hnd as (_ & Hnd1 & Hnd2%NoDup_cons).
    rewrite elem_of_app. intros [?|?]; [|tauto]. eapply Hnd1; [done|left]. }
  apply StronglySorted_app in Hsort as (H12 & Hs1 & Hs2).
  apply StronglySorted_cons in Hs2 as [_ Hs2].
  assert (StronglySorted (λ x y, rk_at rk y ≤ rk_at rk x ∨ frozen s rk x)
            (k1 ++ link :: k2)) as Hsk.
  { rewrite <-Hk. apply StronglySorted_app. split_and!; [|done..].
    intros x1 x2 ??. apply H12; [done|by right]. }
  apply StronglySorted_app in Hsk as (Hk12 & Hsk1 & Hsk2).
  apply StronglySorted_cons in Hsk2 as [Hlk2 Hsk2].
  rewrite elem_of_app, elem_of_cons in Hpk.
  assert (∀ x, x ∈ k1 → x ≠ p) as Hk1p by (intros x ? ->; tauto).
  assert (∀ x, x ∈ k2 → x ≠ p) as Hk2p by (intros x ? ->; tauto).
  apply StronglySorted_app. split_and!.
  - intros x1 x2 Hx1 Hx2.
    rewrite !elem_of_cons in Hx2. destruct Hx2 as [->|[->|Hx2]].
    + apply descending_rel_setZ; auto. apply Hk12; [done|left].
    + destruct (Hk12 x1 link Hx1 ltac:(left)) as [Hle|Hf].
      * left. rewrite rk_at_setZ_eq by done.
        rewrite rk_at_setZ_ne by (symmetry; auto). lia.
      * right. apply frozen_setZ; auto.
    + apply descending_rel_setZ; auto. apply Hk12; [done|by right].
  - eapply StronglySorted_ext_in; [|exact Hsk1]. intros x y Hx Hy.
    apply descending_rel_setZ; auto.
  - apply StronglySorted_cons. split.
    + apply Forall_cons. split.
      * left. rewrite rk_at_setZ_eq, rk_at_setZ_ne by done. lia.
      * apply Forall_forall. intros y Hy.
        apply descending_rel_setZ; auto.
        by eapply Forall_forall in Hlk2.
    + apply StronglySorted_cons. split.
      * apply Forall_forall. intros y Hy. left.
        rewrite rk_at_setZ_eq, rk_at_setZ_ne by (try done; symmetry; auto).
        eapply Forall_forall in Hlk2; [|done].
        destruct Hlk2 as [?|[Hf _]]; lia.
      * eapply StronglySorted_ext_in; [|exact Hsk2]. intros x y Hx Hy.
        apply descending_rel_setZ; auto.
Qed.

Lemma descending_remove s rk l1 p l2 :
  descending s rk (l1 ++ p :: l2) → descending s rk (l1 ++ l2).
Proof.
  unfold descending. intros Hsort.
  apply StronglySorted_app in Hsort as (H12 & Hs1 & Hs2).
  apply StronglySorted_cons in Hs2 as [_ Hs2].
  apply StronglySorted_app. split_and!; [|done..].
  intros x1 x2 ??. apply H12; [done|by right].
Qed.

(** What precedes the raised position after the move preceded it before,
    and stays stable. *)
Lemma prefix_stable_raise s nb rk p r cap cand link l1 l2 k1 k2 :
  NoDup (l1 ++ p :: l2) → NoDup (k1 ++ link :: p :: k2) →
  (0 ≤ p < Z.of_nat s)%Z → length rk = 2 * s →
  getZ rk p = Some r → getZ rk (p + Z.of_nat s) = Some cap →
  rk_at rk link = cand → r < cand → cand ≤ cap →
  descending s rk (l1 ++ p :: l2) → l1 ++ l2 = k1 ++ link :: k2 →
  prefix_stable s nb rk (l1 ++ p :: l2) p →
  prefix_stable s nb (setZ rk p cand) (k1 ++ link :: p :: k2) p.
Proof.
  intros Hnd Hnd' Hp Hlen Hr Hcap Hlink Hlt Hle Hsort Hk Hpre
    m1 m2 x Heq Hx Hxr d Hd.
  replace (k1 ++ link :: p :: k2) with ((k1 ++ [link]) ++ p :: k2) in Heq, Hnd'
    by by rewrite <-app_assoc.
  destruct (NoDup_split_unique _ _ _ _ _ Hnd' Heq) as [<- <-].
  pose proof (descending_remove _ _ _ _ _ Hsort) as Hsk. rewrite Hk in Hsk.
  assert (cand ≤ rk_at rk x ∨ frozen s rk x) as [Hcx|[_ Hfx]].
  { apply elem_of_app in Hx as [Hx|Hx%list_elem_of_singleton].
    - apply StronglySorted_app in Hsk as (Hk12 & _). rewrite <-Hlink.
      apply Hk12; [done|left].
    - subst x. left. lia. }
  - assert (x ∈ l1) as Hx1.
    { assert (x ∈ l1 ++ l2) as Hin.
      { rewrite Hk. rewrite elem_of_app, elem_of_cons.
        rewrite elem_of_app, list_elem_of_singleton in Hx. tauto. }
      apply elem_of_app in Hin as [?|Hx2]; [done|]. exfalso.
      apply StronglySorted_app in Hsort as (_ & _ & Hs2).
      apply StronglySorted_cons in Hs2 as [Hp2 _].
      eapply Forall_forall in Hp2; [|done]. simpl in Hp2.
      destruct Hp2 as [Hp2|[_ Hp2]].
      - rewrite (rk_at_Some _ _ _ Hr) in Hp2. lia.
      - specialize (Hp2 Hp). rewrite (rk_at_Some _ _ _ Hcap) in Hp2. lia. }
    assert (x ≠ p) as Hxp.
    { intros ->. apply NoDup_app in Hnd as (_ & Hnd1 & _).
      eapply Hnd1; [done|left]. }
    pose proof (Hpre l1 l2 x eq_refl Hx1 Hxr d Hd) as Hset.
    intros r' cap' rq'.
    rewrite (getZ_setZ_ne _ p x) by done.
    rewrite (getZ_setZ_ne _ p (x + Z.of_nat s)%Z) by lia.
    intros Hr' Hcap'.
    destruct (decide (p = x + d)%Z) as [Heqp|Hne].
    + rewrite <-Heqp, getZ_setZ_eq by lia. intros [= <-].
      rewrite (rk_at_Some _ _ _ Hr') in Hcx. lia.
    + rewrite getZ_setZ_ne by done. intros Hrq. by apply (Hset r' cap' rq').
  - specialize (Hfx Hxr).
    assert (x ≠ p) as Hxp.
    { intros ->. rewrite (rk_at_Some _ _ _ Hcap) in Hfx. lia. }
    intros r' cap' rq'.
    rewrite (getZ_setZ_ne _ p x) by done.
    rewrite (getZ_setZ_ne _ p (x + Z.of_nat s)%Z) by lia.
    intros _ Hcap' _. rewrite (rk_at_Some _ _ _ Hcap') in Hfx. lia.
Qed.

Lemma prefix_stable_advance s nb rk l1 p nx l2 :
  NoDup (l1 ++ p :: nx :: l2) →
  ((0 ≤ p < Z.of_nat s)%Z → ∀ d, d ∈ nb → settled (Z.of_nat s) rk p d) →
  prefix_stable s nb rk (l1 ++ p :: nx :: l2) p →
  prefix_stable s nb rk (l1 ++ p :: nx :: l2) nx.
Proof.
  intros Hnd Hst Hpre m1 m2 x Heq Hx Hxr d Hd.
  replace (l1 ++ p :: nx :: l2) with ((l1 ++ [p]) ++ nx :: l2) in Heq, Hnd
    by by rewrite <-app_assoc.
  destruct (NoDup_split_unique _ _ _ _ _ Hnd Heq) as [<- <-].
  apply elem_of_app in Hx as [Hx|Hx%list_elem_of_singleton].
  - by apply (Hpre l1 (nx :: l2) x).
  - subst x. by apply Hst.
Qed.

Lemma StronglySorted_lookup_intro {A} (R : A → A → Prop) (l : list A) :
  (∀ i j x y, i < j → l !! i = Some x → l !! j = Some y → R x y) →
  StronglySorted R l.
Proof.
  induction l as [|x l IH]; intros H; constructor.
  - apply IH. intros i j y z Hij Hy Hz. by apply (H (S i) (S j)); [lia|..].
  - apply Forall_lookup. intros j y Hy. by apply (H 0 (S j)); [lia|..].
Qed.

(** In the buffer of a call whose seed and mask are in the order of the
    method, each sample of the seed channel and the sample of the mask
    channel above it are in that order. *)
Lemma buffer_ordered argsort seed mask m pad fp off p v vc :
  accepted seed mask fp off →
  (∀ i vs vm, arr_data seed !! i = Some vs → arr_data mask !! i = Some vm →
              (key m (cast (promote_types (arr_dtype seed) (arr_dtype mask)) vs)
               ≤ key m (cast (promote_types (arr_dtype seed) (arr_dtype mask)) vm))%Z) →
  p < lay_stride (build argsort seed mask m pad fp off) →
  lay_images (build argsort seed mask m pad fp off) !! p = Some v →
  lay_images (build argsort seed mask m pad fp off)
    !! (p + lay_stride (build argsort seed mask m pad fp off)) = Some vc →
  (key m v ≤ key m vc)%Z.
Proof.
  intros Hacc Hord Hp Hv Hvc.
  destruct Hacc as [Hsh Hwfs Hwfm Hne Hn Ho].
  rewrite build_stride in Hp.
  destruct (lookup_lt_is_Some_2
              (indices (padded_shape (arr_shape seed) (arr_shape fp))) p)
    as [idx Hidx]; [by rewrite length_indices|].
  rewrite (build_images_seed _ _ _ _ _ _ _ _ _ Hidx) in Hv.
  rewrite (build_images_mask _ _ _ _ _ _ _ _ _ Hidx) in Hvc.
  rewrite <-Hsh in Hvc. simplify_eq.
  destruct (inside off (arr_shape seed) idx); [|lia].
  set (j := ravel (arr_shape seed) (zip_with Nat.sub idx off)).
  unfold wf_array in Hwfs, Hwfm.
  destruct (arr_data seed !! j) as [vs|] eqn:Es.
  - destruct (lookup_lt_is_Some_2 (arr_data mask) j) as [vm Em].
    { rewrite Hwfm, <-Hsh, <-Hwfs. by eapply lookup_lt_Some. }
    rewrite Em. simpl. by eapply Hord.
  - rewrite (lookup_ge_None_2 (arr_data mask) j); [simpl; lia|].
    apply lookup_ge_None_1 in Es. rewrite Hwfm, <-Hsh, <-Hwfs. done.
Qed.

Section Stable.

Context (argsort : list Z → list nat).
Context (seed mask : ndarray) (m : method_kind) (pad : Z) (fp : ndarray)
        (off : list nat).

Hypothesis argsort_ok : argsort_permutes argsort.
Hypothesis argsort_sorts : argsort_ascends argsort.
Hypothesis Hacc : accepted seed mask fp off.
Hypothesis Hord :
  ∀ i vs vm, arr_data seed !! i = Some vs → arr_data mask !! i = Some vm →
    (key m (cast (promote_types (arr_dtype seed) (arr_dtype mask)) vs)
     ≤ key m (cast (promote_types (arr_dtype seed) (arr_dtype mask)) vm))%Z.

Let L := build argsort seed mask m pad fp off.
Let s := lay_stride L.
Let dt := promote_types (arr_dtype seed) (arr_dtype mask).
Let V := distinct_sorted (ikey m dt <$> lay_images L).

(** The rank of the sample on which the negation wraps is zero. *)
Lemma wrapped_rank v : wrapped m dt v → rank_of V (ikey m dt v) = 0.
Proof.
  intros Hw. apply rank_of_least. intros w Hin.
  apply elem_of_distinct_sorted, list_elem_of_fmap in Hin as (b & -> & Hb).
  apply list_elem_of_lookup_1 in Hb as [q Hq].
  apply (wrapped_least m dt v b Hw).
  exact (build_images_hold argsort seed mask m pad fp off q b Hq).
Qed.

Lemma descending_initial :
  descending s (lay_rank L) (Z.of_nat <$> lay_index L).
Proof.
  pose proof (lay_index_permutes argsort seed mask m pad fp off argsort_ok)
    as Hperm.
  pose proof (length_build_images argsort seed mask m pad fp off) as Hlen.
  pose proof (build_index argsort seed mask m pad fp off) as Hidx.
  fold L in Hperm, Hlen, Hidx. fold s in Hperm, Hlen.
  assert (∀ z v, lay_images L !! z = Some v →
                 rk_at (lay_rank L) (Z.of_nat z) = rank_of V (ikey m dt v))
    as Hrkv.
  { intros z v Hv. unfold rk_at, getZ.
    assert ((Z.of_nat z <? 0)%Z = false) as -> by (apply Z.ltb_ge; lia).
    rewrite Nat2Z.id. unfold L in *.
    by rewrite (build_rank_lookup _ _ _ _ _ _ _ _ _ Hv). }
  apply StronglySorted_lookup_intro. intros i j x' y' Hij Hx Hy.
  rewrite list_lookup_fmap in Hx, Hy.
  destruct (lay_index L !! i) as [x|] eqn:Ex; [|done].
  destruct (lay_index L !! j) as [y|] eqn:Ey; [|done].
  simpl in Hx, Hy. simplify_eq.
  assert (∀ z k, lay_index L !! k = Some z →
                 ∃ v, lay_images L !! z = Some v) as Hrk.
  { intros z k Hz. apply lookup_lt_is_Some_2.
    rewrite Hlen. apply list_elem_of_lookup_2 in Hz.
    rewrite Hperm in Hz. apply elem_of_seq in Hz. lia. }
  destruct (Hrk x i Ex) as (vx & Hvx).
  destruct (Hrk y j Ey) as (vy & Hvy).
  rewrite (Hrkv _ _ Hvx), (Hrkv _ _ Hvy).
  pose proof (build_images_hold argsort seed mask m pad fp off _ _ Hvx) as Hhx.
  pose proof (build_images_hold argsort seed mask m pad fp off _ _ Hvy) as Hhy.
  fold dt in Hhx, Hhy.
  assert (key m vy ≤ key m vx)%Z as Hk.
  { pose proof (lookup_lt_Some _ _ _ Ex) as Hi.
    pose proof (lookup_lt_Some _ _ _ Ey) as Hj.
    rewrite Hidx in Ex, Ey, Hi, Hj. destruct m; simpl.
    - rewrite length_reverse in Hi, Hj.
      rewrite reverse_lookup in Ex, Ey by done.
      assert (length (argsort (lay_images L)) - S j
              ≤ length (argsort (lay_images L)) - S i) as Hle by lia.
      exact (argsort_sorts (lay_images L) _ _ _ _ _ _ Hle Ey Ex Hvy Hvx).
    - pose proof (argsort_sorts (lay_images L) i j x y vx vy) as Hle.
      specialize (Hle ltac:(lia) Ex Ey Hvx Hvy). lia. }
  destruct (ikey_order m dt vy vx Hhy Hhx Hk) as [Hle|Hw].
  - left. by apply rank_of_le.
  - right. split; [rewrite (Hrkv _ _ Hvx); by apply wrapped_rank|].
    intros Hxs.
    destruct (lookup_lt_is_Some_2 (lay_images L) (x + s)) as [vc Hvc]; [lia|].
    pose proof (build_images_hold argsort seed mask m pad fp off _ _ Hvc) as Hhc.
    fold dt in Hhc.
    replace (Z.of_nat x + Z.of_nat s)%Z with (Z.of_nat (x + s)) by lia.
    rewrite (Hrkv _ _ Hvc).
    assert (key m vx ≤ key m vc)%Z as Hb.
    { apply (buffer_ordered argsort seed mask m pad fp off x); try done.
      fold L s. lia. }
    pose proof (wrapped_top m dt vx vc Hw Hhc).
    assert (vc = vx) as -> by (apply (key_inj m); lia).
    by apply wrapped_rank.
Qed.

(** The ranks that the loop returns are stable at every position of the
    seed channel. *)
Lemma run_loop_stable :
  ∃ rk, run_loop L = Ok rk ∧ all_stable s (lay_nb L) rk.
Proof.
  destruct (run_loop_inv argsort seed mask m pad fp off argsort_ok Hacc
              (λ a l p, descending s (ranks a) l
                        ∧ prefix_stable s (lay_nb L) (ranks a) l p))
    as (a' & l' & p' & Hrun & He' & [_ Hpre] & Hst').
  - fold L s.
    intros a l a' l' p He He' Hp
      (r & cap & cand & link & l1 & l2 & k1 & k2 & Hr & Hcap
       & Hlink & Hcand & Hlp & Hranks & -> & Hk & -> & _) [Hdesc Hpre].
    pose proof (listed_ranks _ _ _ (engine_listed _ _ _ _ _ He)) as Hlen.
    pose proof (listed_nodup _ _ _ (engine_listed _ _ _ _ _ He)) as Hnd.
    pose proof (listed_nodup _ _ _ (engine_listed _ _ _ _ _ He')) as Hnd'.
    rewrite Hranks. split.
    + apply (descending_raise _ _ _ _ link l1 l2); try done; [lia| |lia].
      by apply rk_at_Some.
    + apply (prefix_stable_raise _ _ _ _ r cap _ link l1 l2); try done;
        [|lia..].
      by apply rk_at_Some.
  - fold L s. intros a l1 p nx l2 He Hst [Hdesc Hpre]. split; [done|].
    apply prefix_stable_advance; [|done..].
    apply (listed_nodup _ _ _ (engine_listed _ _ _ _ _ He)).
  - fold L s. intros start rest Hl0. split.
    + apply descending_initial.
    + intros m1 m2 x Heq Hx. exfalso.
      pose proof (engine_initial argsort seed mask m pad fp off argsort_ok Hacc)
        as He.
      pose proof (listed_nodup _ _ _ (engine_listed _ _ _ _ _ He)) as Hnd.
      fold L in Hnd. rewrite Heq in Hnd. rewrite Hl0 in Heq.
      change (start :: rest) with ([] ++ start :: rest) in Heq.
      symmetry in Heq.
      destruct (NoDup_split_unique _ _ _ _ _ Hnd Heq) as [-> _].
      by apply elem_of_nil in Hx.
  - fold L s in Hrun, He', Hpre, Hst'.
    exists (ranks a'). split; [done|].
    intros x Hx d Hd.
    assert (x ∈ l' ++ [p']) as Hin.
    { apply (engine_complete _ _ _ _ _ He'). lia. }
    apply elem_of_app in Hin as [Hin|Hin%list_elem_of_singleton].
    + by apply (Hpre l' [] x).
    + subst x. by apply Hst'.
Qed.

End Stable.

(** ** Reconstruction from a stable seed *)

(** On a layout whose initial ranks are stable the loop changes nothing. *)
Lemma run_loop_fixed argsort seed mask m pad fp off :
  argsort_permutes argsort → accepted seed mask fp off →
  all_stable (lay_stride (build argsort seed mask m pad fp off))
             (lay_nb (build argsort seed mask m pad fp off))
             (lay_rank (build argsort seed mask m pad fp off)) →
  run_loop (build argsort seed mask m pad fp off)
  = Ok (lay_rank (build argsort seed mask m pad fp off)).
Proof.
  intros Hsort Hacc Hstable.
  destruct (run_loop_inv argsort seed mask m pad fp off Hsort Hacc
              (λ a _ _, ranks a = lay_rank (build argsort seed mask m pad fp off)))
    as (a' & l' & p' & Hrun & _ & HI & _).
  - intros a l a' l' p He _ Hp
      (r & cap & cand & link & l1 & l2 & k1 & k2 & Hr & Hcap
       & Hlink & Hcand & Hlp & Hranks & _ & _ & _ & d & rq & Hd & Hrq & Hmin)
      Heq.
    exfalso. rewrite Heq in Hr, Hcap, Hrq.
    pose proof (Hstable p Hp d Hd r cap rq Hr Hcap Hrq). lia.
  - done.
  - done.
  - by rewrite Hrun, HI.
Qed.

(** The pad value is the least sample of the array in the internal
    ordering. *)
Lemma pad_value_least m a pad i v :
  pad_value m a = Ok pad → arr_data a !! i = Some v → (key m pad ≤ key m v)%Z.
Proof.
  unfold pad_value, array_min, array_max.
  destruct (arr_data a) as [|v0 vs] eqn:E; [by destruct m|].
  assert (∀ l, (foldr Z.min v0 l ≤ v0)%Z
               ∧ ∀ j w, l !! j = Some w → (foldr Z.min v0 l ≤ w)%Z) as Hmin.
  { induction l as [|w l [IH1 IH2]]; simpl; [split; [lia|done]|].
    split; [lia|]. intros [|j] w' Hw; simplify_eq/=; [lia|].
    specialize (IH2 _ _ Hw). lia. }
  assert (∀ l, (v0 ≤ foldr Z.max v0 l)%Z
               ∧ ∀ j w, l !! j = Some w → (w ≤ foldr Z.max v0 l)%Z) as Hmax.
  { induction l as [|w l [IH1 IH2]]; simpl; [split; [lia|done]|].
    split; [lia|]. intros [|j] w' Hw; simplify_eq/=; [lia|].
    specialize (IH2 _ _ Hw). lia. }
  destruct m; intros [= <-] Hv; simpl;
    destruct i as [|i]; simplify_eq/=.
  - apply Hmin.
  - by eapply Hmin.
  - pose proof (proj1 (Hmax vs)). lia.
  - pose proof (proj2 (Hmax vs) _ _ Hv). lia.
Qed.

(** The pad value is a sample of the array. *)
Lemma pad_value_attained m a pad : pad_value m a = Ok pad → pad ∈ arr_data a.
Proof.
  unfold pad_value, array_min, array_max.
  destruct (arr_data a) as [|v0 vs]; [by destruct m|].
  assert (∀ l, foldr Z.min v0 l ∈ v0 :: l) as Hmin.
  { induction l as [|w l IH]; simpl; [by left|].
    destruct (Z.min_spec w (foldr Z.min v0 l)) as [[_ ->]|[_ ->]].
    - right. by left.
    - apply elem_of_cons in IH as [->|IH]; [by left|]. right. by right. }
  assert (∀ l, foldr Z.max v0 l ∈ v0 :: l) as Hmax.
  { induction l as [|w l IH]; simpl; [by left|].
    destruct (Z.max_spec w (foldr Z.max v0 l)) as [[_ ->]|[_ ->]].
    - apply elem_of_cons in IH as [->|IH]; [by left|]. right. by right.
    - right. by left. }
  destruct m; intros [= <-]; [apply Hmin|apply Hmax].
Qed.

(** An inside cell of the padded shape comes from a seed index. *)
Lemma unshift_index sshape : ∀ off idx,
  length off = length sshape → length idx = length sshape →
  inside off sshape idx = true →
  valid_index sshape (zip_with Nat.sub idx off)
  ∧ zip_with Nat.add (zip_with Nat.sub idx off) off = idx.
Proof.
  unfold valid_index.
  induction sshape as [|s ss IH]; intros [|o off] [|i idx] Hlo Hli Hin;
    simplify_eq/=.
  - split; [constructor|done].
  - apply andb_true_iff in Hin as [Hio Hin].
    apply andb_true_iff in Hio as [Hoi His].
    apply Nat.leb_le in Hoi. apply Nat.ltb_lt in His.
    destruct (IH off idx) as [Hv Heq]; [done..|].
    split; [constructor; [lia|done]|]. rewrite Heq. f_equal. lia.
Qed.

Lemma promote_types_absorb a b :
  promote_types (promote_types a b) b = promote_types a b.
Proof. destruct a, b; reflexivity. Qed.

Section Rerun.

Context (argsort : list Z → list nat).
Context (seed mask : ndarray) (m : method_kind) (pad : Z) (fp : ndarray)
        (off : list nat).

Hypothesis Hacc : accepted seed mask fp off.
Hypothesis Hord :
  ∀ i vs vm, arr_data seed !! i = Some vs → arr_data mask !! i = Some vm →
    (key m (cast (promote_types (arr_dtype seed) (arr_dtype mask)) vs)
     ≤ key m (cast (promote_types (arr_dtype seed) (arr_dtype mask)) vm))%Z.

Let L1 := build argsort seed mask m pad fp off.
Let s := lay_stride L1.
Let pshape := padded_shape (arr_shape seed) (arr_shape fp).
Let dt := promote_types (arr_dtype seed) (arr_dtype mask).
Let V1 := distinct_sorted (ikey m dt <$> lay_images L1).

(** The ranks that the first run returned. *)
Context (rk1 : list nat).
Hypothesis Hgrows : grows s (lay_rank L1) rk1.
Hypothesis Hstable : all_stable s (lay_nb L1) rk1.

(** Its result, and the layout of the second run from it. *)
Let out :=
  crop (promote_types (arr_dtype seed) (arr_dtype mask)) off (arr_shape seed)
       pshape
       ((λ r, default 0%Z (lay_map L1 !! r)) <$> take s rk1).

Context (pad2 : Z).
Hypothesis Hpad2 : pad_value m out = Ok pad2.

Let L2 := build argsort out mask m pad2 fp off.

Lemma out_shape : arr_shape out = arr_shape seed.
Proof. apply crop_shape; apply Hacc. Qed.

Lemma out_dtype : promote_types (arr_dtype out) (arr_dtype mask) = dt.
Proof. apply promote_types_absorb. Qed.

Lemma stride_eq : s = size_of pshape.
Proof. apply build_stride. Qed.

Lemma rerun_stride : lay_stride L2 = s.
Proof. unfold L2. by rewrite build_stride, out_shape, stride_eq. Qed.

Lemma rerun_nb : lay_nb L2 = lay_nb L1.
Proof. unfold L2, L1. by rewrite !build_nb, out_shape. Qed.

(** The sample of the result at a seed index: what the rank of its cell
    stands for, a value of the element type of the buffer between the two
    samples of the cell. *)
Lemma out_cell i idx vs vm :
  indices (arr_shape seed) !! i = Some idx →
  arr_data seed !! i = Some vs → arr_data mask !! i = Some vm →
  ∃ r vo,
    rk1 !! ravel pshape (zip_with Nat.add idx off) = Some r
    ∧ arr_data out !! i = Some vo
    ∧ V1 !! r = Some (ikey m dt vo)
    ∧ holds dt vo
    ∧ (key m vo ≤ key m (cast dt vm))%Z.
Proof.
  intros Hidx Hvs Hvm.
  destruct (cell_bounds argsort seed mask m pad fp off Hacc rk1 i idx vs vm
              Hgrows (Hord _ _ _ Hvs Hvm) Hidx Hvs Hvm)
    as (r & vo & Hr & Hmap & Hh & _ & Hb).
  destruct (cell_layout argsort seed mask m pad fp off Hacc i idx vs vm
              Hidx Hvs Hvm) as (Hp & _).
  rewrite build_shape in Hr, Hp. fold pshape in Hr, Hp.
  destruct (map_sample argsort seed mask m pad fp off r vo Hmap)
    as (_ & _ & HV).
  exists r, vo. split_and!; [done| |done|done|apply Hb].
  etrans; [exact (crop_lookup _ _ _ _ _ _ _ _ out_shape Hidx)|].
  fold L1 s in Hp.
  rewrite list_lookup_fmap, lookup_take_lt, Hr by done. simpl.
  fold L1 in Hmap. by rewrite Hmap.
Qed.

Lemma out_holds v : v ∈ arr_data out → holds dt v.
Proof.
  intros [i Hi]%list_elem_of_lookup_1.
  destruct Hacc as [Hsh Hwfs Hwfm Hne Hn Ho].
  pose proof (lookup_lt_Some _ _ _ Hi) as Hlt.
  unfold out in Hlt. rewrite length_crop in Hlt. fold out in Hlt.
  rewrite out_shape in Hlt. unfold wf_array in Hwfs, Hwfm.
  destruct (lookup_lt_is_Some_2 (indices (arr_shape seed)) i) as [idx Hidx];
    [by rewrite length_indices|].
  destruct (lookup_lt_is_Some_2 (arr_data seed) i) as [vs Hvs]; [lia|].
  destruct (lookup_lt_is_Some_2 (arr_data mask) i) as [vm Hvm];
    [rewrite Hwfm, <-Hsh; lia|].
  destruct (out_cell i idx vs vm Hidx Hvs Hvm) as (r & vo & _ & Ho' & _ & Hh & _).
  by simplify_eq.
Qed.

Lemma pad2_holds : holds dt pad2.
Proof. eapply out_holds, pad_value_attained, Hpad2. Qed.

(** The samples of the second buffer at a cell: both channels hold the new
    pad value, or they hold what the ranks of the first run stand for. *)
Lemma image2_cell x r c :
  x < s → rk1 !! x = Some r → rk1 !! (x + s) = Some c →
  ∃ v vc, lay_images L2 !! x = Some v ∧ lay_images L2 !! (x + s) = Some vc
          ∧ holds dt v ∧ holds dt vc
          ∧ ((v = pad2 ∧ vc = pad2)
             ∨ (V1 !! r = Some (ikey m dt v) ∧ V1 !! c = Some (ikey m dt vc)
                ∧ (key m pad2 ≤ key m v)%Z ∧ (key m v ≤ key m vc)%Z)).
Proof.
  intros Hx Hr Hc.
  pose proof Hacc as [Hsh Hwfs Hwfm Hne Hn Ho].
  pose proof out_shape as Hos. pose proof stride_eq as Hs.
  pose proof rerun_stride as Hs2. pose proof pad2_holds as Hp2.
  destruct (lookup_lt_is_Some_2 (indices pshape) x) as [idx Hidx].
  { rewrite length_indices. lia. }
  assert (indices (padded_shape (arr_shape out) (arr_shape fp)) !! x = Some idx)
    as Hidx2 by by rewrite Hos.
  pose proof (build_images_seed argsort out mask m pad2 fp off x idx Hidx2) as H0.
  pose proof (build_images_mask argsort out mask m pad2 fp off x idx Hidx2) as H1.
  fold L2 in H0, H1. rewrite Hs2 in H1. rewrite Hos in H0. rewrite <-Hsh in H1.
  rewrite out_dtype in H0, H1.
  do 2 eexists. split; [exact H0|]. split; [exact H1|].
  split; [apply holds_cast|]. split; [apply holds_cast|].
  destruct (inside off (arr_shape seed) idx) eqn:Hin; [right|left; by rewrite Hp2].
  pose proof (indices_lookup_inv _ _ _ Hidx) as [Hv Hrav].
  apply Forall2_length in Ho as Hlo. unfold ndim in Hn.
  destruct (unshift_index (arr_shape seed) off idx) as [Hj Hadd];
    [lia| |done|].
  { rewrite (valid_index_length _ _ Hv). unfold pshape, padded_shape.
    rewrite length_zip_with. lia. }
  set (jdx := zip_with Nat.sub idx off) in *.
  pose proof (indices_lookup _ _ Hj) as Hjl.
  pose proof (ravel_lt _ _ Hj) as Hjlt.
  unfold wf_array in Hwfs, Hwfm.
  destruct (lookup_lt_is_Some_2 (arr_data seed) (ravel (arr_shape seed) jdx))
    as [vs Hvs]; [lia|].
  destruct (lookup_lt_is_Some_2 (arr_data mask) (ravel (arr_shape seed) jdx))
    as [vm Hvm]; [rewrite Hwfm, <-Hsh; done|].
  destruct (out_cell _ _ vs vm Hjl Hvs Hvm)
    as (r' & vo & Hr' & Hout & HV & Hh & Hb).
  rewrite Hadd, Hrav, Hr in Hr'. injection Hr' as <-.
  rewrite Hout, Hvm. simpl. rewrite Hh. split_and!; [done| | |done].
  - pose proof (build_images_mask argsort seed mask m pad fp off x idx Hidx) as H1'.
    fold L1 s jdx in H1'. rewrite <-Hsh in H1'. fold jdx in H1'.
    rewrite Hin, Hvm in H1'. simpl in H1'.
    pose proof (build_rank_lookup argsort seed mask m pad fp off _ _ H1') as Hr0.
    fold L1 dt V1 in Hr0.
    destruct Hgrows as [_ Hg]. destruct (Hg _ _ _ Hr0 Hc) as (_ & Hfix & _).
    rewrite Hfix by lia.
    apply lookup_rank_of; [apply distinct_sorted_ascending|].
    by eapply key_elem_of_V.
  - by eapply pad_value_least.
Qed.

(** What a position of the second buffer holds: the new pad value, or
    what its rank after the first run stands for. *)
Lemma image2_any y rq :
  rk1 !! y = Some rq →
  ∃ vq, lay_images L2 !! y = Some vq ∧ holds dt vq
        ∧ (vq = pad2 ∨ V1 !! rq = Some (ikey m dt vq)).
Proof.
  intros Hrq. destruct Hgrows as [Hlen _].
  pose proof (length_build_rank argsort seed mask m pad fp off) as Hlen0.
  fold L1 s in Hlen0.
  pose proof (lookup_lt_Some _ _ _ Hrq) as Hy. rewrite Hlen, Hlen0 in Hy.
  destruct (decide (y < s)) as [Hlt|Hge].
  - destruct (lookup_lt_is_Some_2 rk1 (y + s)) as [c Hc]; [lia|].
    destruct (image2_cell y rq c Hlt Hrq Hc)
      as (v & vc & Hv & _ & Hh & _ & Hcase).
    exists v. split_and!; [done..|]. tauto.
  - destruct (lookup_lt_is_Some_2 rk1 (y - s)) as [r Hr]; [lia|].
    replace y with (y - s + s) in Hrq |- * by lia.
    destruct (image2_cell (y - s) r rq ltac:(lia) Hr Hrq)
      as (v & vc & _ & Hvc & _ & Hh & Hcase).
    exists vc. split_and!; [done..|]. tauto.
Qed.

(** The initial ranks of the second run are stable. *)
Lemma rerun_stable : all_stable s (lay_nb L2) (lay_rank L2).
Proof.
  intros x Hx d Hd r2 cap2 rq2 [_ Hr2]%getZ_Some [_ Hcap2]%getZ_Some
    [Hq Hrq2]%getZ_Some.
  rewrite Z2Nat.inj_add, Nat2Z.id in Hcap2 by lia.
  destruct Hgrows as [Hlen _].
  pose proof (length_build_rank argsort seed mask m pad fp off) as Hlen0.
  fold L1 s in Hlen0.
  pose proof (length_build_rank argsort out mask m pad2 fp off) as Hlen2.
  fold L2 in Hlen2. rewrite rerun_stride in Hlen2.
  set (xn := Z.to_nat x) in *. set (y := Z.to_nat (x + d)) in *.
  assert (xn < s) as Hxn by lia.
  pose proof (lookup_lt_Some _ _ _ Hrq2) as Hy. rewrite Hlen2 in Hy.
  destruct (lookup_lt_is_Some_2 rk1 xn) as [r1 Hr1]; [lia|].
  destruct (lookup_lt_is_Some_2 rk1 (xn + s)) as [c1 Hc1]; [lia|].
  destruct (lookup_lt_is_Some_2 rk1 y) as [rq1 Hrq1]; [lia|].
  destruct (image2_cell xn r1 c1 Hxn Hr1 Hc1)
    as (v & vc & Hv & Hvc & Hhv & Hhc & Hcase).
  destruct (image2_any y rq1 Hrq1) as (vq & Hvq & Hhq & Hqcase).
  unfold L2 in Hr2, Hcap2, Hrq2.
  rewrite (build_rank_lookup argsort out mask m pad2 fp off _ _ Hv) in Hr2.
  rewrite (build_rank_lookup argsort out mask m pad2 fp off _ _ Hvc) in Hcap2.
  rewrite (build_rank_lookup argsort out mask m pad2 fp off _ _ Hvq) in Hrq2.
  rewrite out_dtype in Hr2, Hcap2, Hrq2.
  simplify_eq. fold L2.
  set (V2 := distinct_sorted (ikey m dt <$> lay_images L2)).
  destruct Hcase as [[-> ->]|(H1 & H1c & Hpad & Hvvc)]; [lia|].
  assert ((ikey m dt vq ≤ ikey m dt v)%Z ∨ (ikey m dt vc ≤ ikey m dt v)%Z)
    as [Hle|Hle].
  { destruct Hqcase as [->|H1q].
    - destruct (ikey_order m dt pad2 v Hhq Hhv Hpad) as [?|Hw]; [by left|].
      right. pose proof (wrapped_top m dt v vc Hw Hhc).
      assert (vc = v) as -> by (apply (key_inj m); lia). done.
    - rewrite rerun_nb in Hd.
      assert (rq1 `min` c1 ≤ r1) as Hmin.
      { apply (Hstable x Hx d Hd); apply getZ_Some; (split; [lia|]);
          [done| |done].
        by rewrite Z2Nat.inj_add, Nat2Z.id by lia. }
      pose proof (distinct_sorted_ascending (ikey m dt <$> lay_images L1))
        as Hasc.
      fold V1 in Hasc.
      destruct (decide (rq1 ≤ r1)).
      + left. by eapply (ascending_lookup_le V1 rq1 r1).
      + right. eapply (ascending_lookup_le V1 c1 r1); [done..|lia]. }
  - pose proof (rank_of_le V2 _ _ Hle). lia.
  - pose proof (rank_of_le V2 _ _ Hle). lia.
Qed.

Lemma rerun_all_stable : all_stable (lay_stride L2) (lay_nb L2) (lay_rank L2).
Proof. rewrite rerun_stride. apply rerun_stable. Qed.

End Rerun.

(** From a seed whose ranks are stable the later stages return the samples
    of the seed, as the buffer holds them. *)
Lemma propagate_fixed argsort seed mask m pad fp off :
  argsort_permutes argsort → accepted seed mask fp off →
  all_stable (lay_stride (build argsort seed mask m pad fp off))
             (lay_nb (build argsort seed mask m pad fp off))
             (lay_rank (build argsort seed mask m pad fp off)) →
  propagate argsort seed mask m pad fp off
  = Ok (NdArray (promote_types (arr_dtype seed) (arr_dtype mask))
                (arr_shape seed)
                (cast (promote_types (arr_dtype seed) (arr_dtype mask))
                   <$> arr_data seed)).
Proof.
  intros Hsort Hacc Hstable.
  unfold propagate. rewrite run_loop_fixed, build_shape by done.
  f_equal.
  match goal with |- context [crop ?dt ?o ?ss ?ps ?ri] =>
    pose proof (crop_shape dt o ss (arr_shape fp) ri
                  (acc_offset _ _ _ _ Hacc) (acc_ndim _ _ _ _ Hacc)) as Hshape;
    pose proof (length_crop dt o ss ps ri) as Hlen;
    pose proof (λ i idx, crop_lookup dt o ss ps ri _ i idx Hshape) as Hlook;
    destruct (crop dt o ss ps ri) as [dt' shape' data'] eqn:Hcrop
  end.
  simpl in *. assert (dt' = promote_types (arr_dtype seed) (arr_dtype mask))
    as -> by (unfold crop in Hcrop; by simplify_eq).
  subst shape'. f_equal.
  pose proof (acc_seed _ _ _ _ Hacc) as Hwf. unfold wf_array in Hwf.
  apply list_eq_same_length with (length data');
    [rewrite ?length_fmap; lia..|].
  intros i vo vs' Hi Hvo Hvs'.
  rewrite list_lookup_fmap in Hvs'.
  destruct (arr_data seed !! i) as [vs|] eqn:Hvs; simplify_eq/=.
  destruct (lookup_lt_is_Some_2 (indices (arr_shape seed)) i) as [idx Hidx].
  { rewrite length_indices. lia. }
  destruct (lookup_lt_is_Some_2 (arr_data mask) i) as [vm Hvm].
  { pose proof (acc_mask _ _ _ _ Hacc) as Hwfm. unfold wf_array in Hwfm.
    rewrite Hwfm, <-(acc_shape _ _ _ _ Hacc). lia. }
  rewrite (Hlook i idx Hidx) in Hvo.
  destruct (cell_layout argsort seed mask m pad _ off Hacc i idx vs vm
              Hidx Hvs Hvm) as (Hp & Himg & _ & Hr & _).
  rewrite build_shape in Hp, Himg, Hr.
  rewrite list_lookup_fmap, lookup_take_lt, Hr in Hvo by done.
  simpl in Hvo. rewrite build_map, list_lookup_fmap in Hvo.
  rewrite lookup_rank_of in Hvo.
  - simpl in Hvo. rewrite ikey_involutive in Hvo by apply holds_cast.
    by simplify_eq.
  - apply distinct_sorted_ascending.
  - by eapply key_elem_of_V.
Qed.

Lemma any_gt_intro a b :
  (∀ i x y, arr_data a !! i = Some x → arr_data b !! i = Some y →
            (cast (promote_types (arr_dtype a) (arr_dtype b)) x
             ≤ cast (promote_types (arr_dtype a) (arr_dtype b)) y)%Z) →
  any_gt a b = false.
Proof.
  intros H. unfold any_gt. apply not_true_is_false.
  intros ([x y] & Hin & Hlt)%existsb_exists.
  apply list_elem_of_In, list_elem_of_lookup_1 in Hin as [i Hi].
  apply lookup_zip_Some in Hi as [Hx Hy]. simpl in *.
  specialize (H i x y Hx Hy). lia.
Qed.

Lemma any_lt_intro a b :
  (∀ i x y, arr_data a !! i = Some x → arr_data b !! i = Some y →
            (cast (promote_types (arr_dtype a) (arr_dtype b)) y
             ≤ cast (promote_types (arr_dtype a) (arr_dtype b)) x)%Z) →
  any_lt a b = false.
Proof.
  intros H. unfold any_lt. apply not_true_is_false.
  intros ([x y] & Hin & Hlt)%existsb_exists.
  apply list_elem_of_In, list_elem_of_lookup_1 in Hin as [i Hi].
  apply lookup_zip_Some in Hi as [Hx Hy]. simpl in *.
  specialize (H i x y Hx Hy). lia.
Qed.

Lemma ordering_ok_intro a b method m :
  parse_method method = Ok m →
  (∀ i x y, arr_data a !! i = Some x → arr_data b !! i = Some y →
            (key m (cast (promote_types (arr_dtype a) (arr_dtype b)) x)
             ≤ key m (cast (promote_types (arr_dtype a) (arr_dtype b)) y))%Z) →
  ordering_ok a b method = true.
Proof.
  unfold parse_method, ordering_ok. intros Hm H.
  destruct (String.eqb method "dilation") eqn:Ed.
  - simplify_eq. apply String.eqb_eq in Ed as ->. simpl.
    rewrite any_gt_intro; [done|]. exact H.
  - destruct (String.eqb method "erosion") eqn:Ee; [|done].
    simplify_eq. simpl. rewrite any_lt_intro; [done|].
    intros i x y Hx Hy. specialize (H i x y Hx Hy). simpl in H. lia.
Qed.


(** ** The stable sort is an [argsort] *)

#[global] Instance key_le_trans : Transitive key_le.
Proof. intros a b c. unfold key_le. lia. Qed.

#[global] Instance key_le_total : Total key_le.
Proof. intros a b. unfold key_le. lia. Qed.

Lemma argsort_stable_permutes : argsort_permutes argsort_stable.
Proof.
  intros l. unfold argsort_stable.
  rewrite merge_sort_Permutation, snd_zip; [done|]. by rewrite length_seq.
Qed.

Lemma StronglySorted_lookup_le {A} (R : A → A → Prop) l i j a b :
  StronglySorted R l → i < j → l !! i = Some a → l !! j = Some b → R a b.
Proof.
  intros Hl. revert i j. induction Hl as [|x l Hl IH Hx]; intros i j Hij Ha Hb.
  - done.
  - destruct j as [|j]; [lia|]. destruct i as [|i]; simplify_eq/=.
    + eapply Forall_lookup_1 in Hx; done.
    + eapply IH; [|done..]. lia.
Qed.

Lemma argsort_stable_ascends : argsort_ascends argsort_stable.
Proof.
  intros l i j x y vx vy Hij Hx Hy Hvx Hvy. unfold argsort_stable in *.
  rewrite list_lookup_fmap in Hx, Hy.
  destruct (merge_sort key_le (zip l (seq 0 (length l))) !! i)
    as [[ux x']|] eqn:Ei; simplify_eq/=.
  destruct (merge_sort key_le (zip l (seq 0 (length l))) !! j)
    as [[uy y']|] eqn:Ej; simplify_eq/=.
  assert (∀ k u z, merge_sort key_le (zip l (seq 0 (length l))) !! k
                   = Some (u, z) → l !! z = Some u) as Hel.
  { intros k u z Hk. apply list_elem_of_lookup_2 in Hk.
    rewrite merge_sort_Permutation in Hk.
    apply list_elem_of_lookup_1 in Hk as [n Hn].
    apply lookup_zip_Some in Hn as [Hu Hz]. simpl in *.
    apply lookup_seq in Hz as [-> _]. done. }
  pose proof (Hel _ _ _ Ei) as Hux. pose proof (Hel _ _ _ Ej) as Huy.
  simplify_eq.
  destruct (decide (i = j)) as [->|Hne]; [by simplify_eq|].
  pose proof (StronglySorted_merge_sort key_le (zip l (seq 0 (length l))))
    as Hsorted.
  apply (StronglySorted_lookup_le _ _ i j _ _ Hsorted ltac:(lia) Ei Ej).
Qed.

(** ** The theorems at concrete calls *)





(** * Further properties of the stages *)

(** ** The ordering tests and the later guards *)

Lemma promote_types_comm a b : promote_types a b = promote_types b a.
Proof. destruct a, b; reflexivity. Qed.

Lemma any_gt_exceeds a b : any_gt a b = true ↔ exceeds a b.
Proof.
  unfold any_gt, exceeds. rewrite existsb_exists. split.
  - intros ([x y] & Hin & Hlt).
    apply list_elem_of_In, list_elem_of_lookup_1 in Hin as [i Hi].
    apply lookup_zip_Some in Hi as [Hx Hy]. apply Z.ltb_lt in Hlt.
    exists i, x, y. split_and!; done.
  - intros (i & x & y & Hx & Hy & Hlt). exists (x, y).
    split; [|by apply Z.ltb_lt].
    apply list_elem_of_In. eapply list_elem_of_lookup_2.
    apply lookup_zip_Some. eauto.
Qed.

Lemma any_lt_exceeds a b : any_lt a b = true ↔ exceeds b a.
Proof.
  unfold any_lt, exceeds. rewrite existsb_exists.
  rewrite (promote_types_comm (arr_dtype b)). split.
  - intros ([x y] & Hin & Hlt).
    apply list_elem_of_In, list_elem_of_lookup_1 in Hin as [i Hi].
    apply lookup_zip_Some in Hi as [Hx Hy]. apply Z.ltb_lt in Hlt.
    exists i, y, x. split_and!; done.
  - intros (i & x & y & Hx & Hy & Hlt). exists (y, x).
    split; [|by apply Z.ltb_lt].
    apply list_elem_of_In. eapply list_elem_of_lookup_2.
    apply lookup_zip_Some. eauto.
Qed.

(** A call whose seed and mask fail an ordering test stops there. *)
Lemma reconstruction_order_error argsort seed mask method footprint offset h :
  arr_shape seed = arr_shape mask →
  ordering_ok seed mask method = false →
  reconstruction argsort seed mask method footprint offset h
  = (h, Err InvalidSeedMask).
Proof.
  intros Hshape Hord.
  unfold reconstruction, bind at 1, guard at 1.
  rewrite bool_decide_eq_true_2 by done. simpl.
  unfold ordering_ok in Hord. apply andb_false_iff in Hord.
  unfold bind at 1, guard at 1.
  destruct (negb (String.eqb method "dilation" && any_gt seed mask));
    simpl; [|done].
  unfold bind at 1, guard at 1.
  destruct (negb (String.eqb method "erosion" && any_lt seed mask));
    simpl; [|done].
  by destruct Hord.
Qed.

(** The errors of a call whose shapes agree and whose seed and mask pass the
    ordering tests. *)
Lemma reconstruction_late_errors argsort seed mask method footprint offset h e :
  arr_shape seed = arr_shape mask →
  ordering_ok seed mask method = true →
  (reconstruction argsort seed mask method footprint offset h).2 = Err e →
  e ≠ ShapeMismatch ∧ e ≠ InvalidSeedMask
  ∧ (e = InvalidFootprint → offset = None).
Proof.
  intros Hshape Hord.
  destruct (local_footprint h seed footprint) as [fp0|] eqn:Hfp.
  - rewrite (reconstruction_result _ _ _ _ _ _ _ _ Hshape Hord Hfp).
    destruct (offset_result _ _) as [off|e'] eqn:Hoff.
    + intros He%after_offset_errors.
      destruct He as [->|[->|[->|[->| ->]]]]; done.
    + intros [= ->]. split_and!.
      * apply offset_result_errors in Hoff.
        destruct Hoff as [->|[->|[w ->]]]; done.
      * apply offset_result_errors in Hoff.
        destruct Hoff as [->|[->|[w ->]]]; done.
      * intros ->. destruct offset as [o|]; [|done].
        unfold offset_result, resolve_offset, bind, guard in Hoff.
        repeat (case_bool_decide; simpl in Hoff; [|by simplify_eq]).
        destruct (offset_inside _ _); simpl in Hoff; by simplify_eq.
  - apply andb_true_iff in Hord as [Hd He].
    unfold reconstruction, bind at 1, guard at 1.
    rewrite bool_decide_eq_true_2 by done. simpl.
    unfold bind at 1, guard at 1. rewrite Hd. simpl.
    unfold bind at 1, guard at 1. rewrite He. simpl.
    unfold bind at 1.
    destruct footprint as [l|]; simpl in *; [|done].
    unfold bind at 1, load at 1. destruct (h !! l); [done|]. simpl.
    by intros [= <-].
Qed.

(** X1: once the shapes agree, the call ends in the ordering error exactly
    when the method is 'dilation' and some seed sample exceeds its mask
    sample, or the method is 'erosion' and some mask sample exceeds its seed
    sample, the two samples compared in the promoted element type of the
    arrays; the call has then touched nothing. *)
Theorem ordering_error_iff argsort seed mask method footprint offset h :
  arr_shape seed = arr_shape mask →
  ((reconstruction argsort seed mask method footprint offset h).2
     = Err InvalidSeedMask
   ↔ (method = "dilation" ∧ exceeds seed mask)
     ∨ (method = "erosion" ∧ exceeds mask seed))
  ∧ ((reconstruction argsort seed mask method footprint offset h).2
       = Err InvalidSeedMask →
     (reconstruction argsort seed mask method footprint offset h).1 = h).
Proof.
  intros Hshape.
  destruct (ordering_ok seed mask method) eqn:Hord.
  - assert ((reconstruction argsort seed mask method footprint offset h).2
            ≠ Err InvalidSeedMask) as Hne.
    { intros Hr.
      by destruct (reconstruction_late_errors _ _ _ _ _ _ _ _ Hshape Hord Hr)
        as (_ & ? & _). }
    split; [|done]. split; [done|].
    apply andb_true_iff in Hord as [Hd He].
    rewrite negb_true_iff, andb_false_iff in Hd, He.
    intros [[-> Hex]|[-> Hex]].
    + apply any_gt_exceeds in Hex. destruct Hd as [Hd|Hd]; [done|congruence].
    + apply any_lt_exceeds in Hex. destruct He as [He|He]; [done|congruence].
  - rewrite (reconstruction_order_error _ _ _ _ _ _ _ Hshape Hord).
    split; [|done]. split; [|done]. intros _.
    unfold ordering_ok in Hord. apply andb_false_iff in Hord.
    rewrite !negb_false_iff, !andb_true_iff in Hord.
    destruct Hord as [[Hm Hany]|[Hm Hany]]; apply String.eqb_eq in Hm.
    + left. split; [done|]. by apply any_gt_exceeds.
    + right. split; [done|]. by apply any_lt_exceeds.
Qed.

Lemma ordering_error_iff_witness :
  ((reconstruction argsort_stable (NdArray int64 [1] [9007199254740993]%Z)
      (NdArray float64 [1] [9007199254740992]%Z) "dilation" None None ∅).2
     = Err InvalidSeedMask
   ↔ ("dilation" = "dilation"
      ∧ exceeds (NdArray int64 [1] [9007199254740993]%Z)
                (NdArray float64 [1] [9007199254740992]%Z))
     ∨ ("dilation" = "erosion"
        ∧ exceeds (NdArray float64 [1] [9007199254740992]%Z)
                  (NdArray int64 [1] [9007199254740993]%Z)))
  ∧ ((reconstruction argsort_stable (NdArray int64 [1] [9007199254740993]%Z)
        (NdArray float64 [1] [9007199254740992]%Z) "dilation" None None ∅).2
       = Err InvalidSeedMask →
     (reconstruction argsort_stable (NdArray int64 [1] [9007199254740993]%Z)
        (NdArray float64 [1] [9007199254740992]%Z) "dilation" None None ∅).1
     = ∅).
Proof.
  apply (ordering_error_iff argsort_stable
           (NdArray int64 [1] [9007199254740993]%Z)
           (NdArray float64 [1] [9007199254740992]%Z) "dilation" None None ∅).
  reflexivity.
Defined.

(** X2: a seed without samples makes the call fail at the reduction that
    computes the pad value, once the footprint and the offset are accepted
    and the method is one of the two. *)
Theorem empty_seed_fails argsort seed mask method footprint offset h fp0 off m :
  arr_shape seed = arr_shape mask →
  arr_data seed = [] →
  local_footprint h seed footprint = Some fp0 →
  offset_result (arr_shape fp0) offset = Ok off →
  length off ≤ ndim fp0 →
  parse_method method = Ok m →
  (reconstruction argsort seed mask method footprint offset h).2
  = Err EmptyReduction.
Proof.
  intros Hshape Hempty Hfp Hoff Hlen Hm.
  assert (ordering_ok seed mask method = true) as Hord.
  { unfold ordering_ok, any_gt, any_lt. rewrite Hempty. simpl.
    by rewrite !andb_false_r. }
  rewrite (reconstruction_result _ _ _ _ _ _ _ _ Hshape Hord Hfp), Hoff.
  unfold after_offset. rewrite bool_decide_eq_true_2 by done.
  rewrite Hm. destruct m; unfold pad_value, array_min, array_max;
    by rewrite Hempty.
Qed.

Lemma empty_seed_fails_witness :
  (reconstruction argsort_stable (NdArray int64 [0] []) (NdArray int64 [0] [])
     "erosion" None None ∅).2
  = Err EmptyReduction.
Proof.
  apply (empty_seed_fails argsort_stable (NdArray int64 [0] [])
           (NdArray int64 [0] []) "erosion" None None ∅
           (default_footprint 1) [1] Erosion); reflexivity.
Defined.

(** X3: an offset given as a vector of coordinates is rejected for its rank
    whenever the footprint is not one-dimensional, wherever it points: the
    source compares the rank of the offset array with the rank of the
    footprint. *)
Theorem offset_vector_needs_flat_footprint argsort seed mask method footprint o
    h fshape :
  arr_shape seed = arr_shape mask →
  ordering_ok seed mask method = true →
  footprint_shape h seed footprint = Some fshape →
  ndim o = 1 → length fshape ≠ 1 →
  (reconstruction argsort seed mask method footprint (Some o) h).2
  = Err (InvalidOffset NdimMismatch).
Proof.
  intros Hshape Hord Hfs Ho Hf. rewrite local_footprint_shape in Hfs.
  destruct (local_footprint h seed footprint) as [fp0|] eqn:Hfp; [|done].
  simpl in Hfs. simplify_eq.
  rewrite (reconstruction_result _ _ _ _ _ _ _ _ Hshape Hord Hfp).
  unfold offset_result, resolve_offset, bind, guard.
  rewrite bool_decide_eq_false_2; [done|]. by rewrite Ho.
Qed.

Lemma offset_vector_needs_flat_footprint_witness :
  (reconstruction argsort_stable ex_seed2 ex_mask2 "dilation" None
     (Some (NdArray int64 [2] [1; 1]%Z)) ∅).2
  = Err (InvalidOffset NdimMismatch).
Proof.
  apply (offset_vector_needs_flat_footprint argsort_stable ex_seed2 ex_mask2
           "dilation" None (NdArray int64 [2] [1; 1]%Z) ∅ [3; 3]);
    [reflexivity..|]. simpl. lia.
Defined.

(** X4: with an explicit offset the call never ends in the footprint error:
    the extents of the footprint are required to be odd only when the offset
    is left to its default. *)
Theorem explicit_offset_skips_odd_check argsort seed mask method footprint o h :
  (reconstruction argsort seed mask method footprint (Some o) h).2
  ≠ Err InvalidFootprint.
Proof.
  destruct (decide (arr_shape seed = arr_shape mask)) as [Hshape|Hshape].
  2:{ unfold reconstruction, bind at 1, guard at 1.
      by rewrite bool_decide_eq_false_2. }
  destruct (ordering_ok seed mask method) eqn:Hord.
  2:{ by rewrite (reconstruction_order_error _ _ _ _ _ _ _ Hshape Hord). }
  intros Hr.
  by destruct (reconstruction_late_errors _ _ _ _ _ _ _ _ Hshape Hord Hr)
    as (_ & _ & Hnone); specialize (Hnone eq_refl).
Qed.

(** ** The neighbor offsets *)

Lemma in_slices_eq off idx :
  length idx = length off → in_slices off idx = true ↔ idx = off.
Proof.
  revert idx. induction off as [|o off IH]; intros [|i idx] Hlen;
    simplify_eq/=; [done|].
  rewrite andb_true_iff, Nat.eqb_eq, IH by done.
  split; [intros [-> ->]; done|intros [= -> ->]; done].
Qed.

Lemma displacement_zero off idx :
  length idx = length off →
  displacement off idx = replicate (length off) 0%Z ↔ idx = off.
Proof.
  unfold displacement.
  revert idx. induction off as [|o off IH]; intros [|i idx] Hlen;
    simplify_eq/=; [done|].
  split.
  - intros [= H0 H]. apply IH in H; [|done]. f_equal; [lia|done].
  - intros [= -> ->]. f_equal; [lia|]. by apply IH.
Qed.

Lemma length_displacement off c :
  length (displacement off c) = length c `min` length off.
Proof. unfold displacement. by rewrite length_zip_with. Qed.

Lemma displacement_inj off c c' :
  length c = length off → length c' = length off →
  displacement off c = displacement off c' → c = c'.
Proof.
  unfold displacement. revert c c'.
  induction off as [|o off IH]; intros [|i c] [|i' c'] Hc Hc' Heq;
    simplify_eq/=; [done|].
  f_equal; [lia|]. by apply IH.
Qed.

Lemma displacement_sub_zero off c c' n :
  length c = length off → length c' = length off →
  zip_with Z.sub (displacement off c) (displacement off c') = replicate n 0%Z →
  c = c'.
Proof.
  unfold displacement. revert c c' n.
  induction off as [|o off IH]; intros [|i c] [|i' c'] n Hc Hc' Hz;
    simplify_eq/=; [done|].
  destruct n as [|n]; simplify_eq/=.
  f_equal; [lia|]. by eapply IH.
Qed.

(** Clearing the cells that a test selects removes their images from the
    list of the cells that are set. *)
Lemma offsets_crossed {A B} `{EqDecision B} (f : A → B) (P : A → bool) (z : B)
    (idxs : list A) (data : list Z) :
  (∀ i, i ∈ idxs → P i = true ↔ f i = z) →
  (λ c : A * Z, f c.1)
    <$> filter (λ c : A * Z, c.2 ≠ 0%Z)
          (zip idxs (zip_with (λ idx v, if P idx then 0%Z else v) idxs data))
  = filter (λ δ, δ ≠ z)
      ((λ c : A * Z, f c.1) <$> filter (λ c : A * Z, c.2 ≠ 0%Z) (zip idxs data)).
Proof.
  revert data. induction idxs as [|i idxs IH]; intros [|v data] HP;
    [done..|].
  cbn [zip_with]. rewrite !filter_cons. cbn [fst snd].
  pose proof (HP i ltac:(by left)) as Hi.
  assert (∀ j, j ∈ idxs → P j = true ↔ f j = z) as HP'
    by (intros j Hj; apply HP; by right).
  specialize (IH data HP').
  destruct (P i) eqn:Ei.
  - rewrite decide_False by (intros H; by apply H).
    rewrite IH.
    destruct (decide (v ≠ 0%Z)); [|done].
    rewrite fmap_cons, filter_cons. cbn [fst].
    rewrite decide_False; [done|]. intros H. apply H. by apply Hi.
  - destruct (decide (v ≠ 0%Z)); [|done].
    rewrite !fmap_cons, filter_cons, IH. cbn [fst].
    rewrite decide_True; [done|]. intros H. apply Hi in H. done.
Qed.

Lemma footprint_offsets_clear fp off :
  length off = ndim fp →
  footprint_offsets (clear_center off fp) off
  = filter (λ δ, δ ≠ replicate (ndim fp) 0%Z) (footprint_offsets fp off).
Proof.
  intros Hlen. unfold footprint_offsets, clear_center. simpl.
  apply (offsets_crossed (displacement off) (in_slices off)).
  intros c (k & Hk)%list_elem_of_lookup_1.
  apply indices_lookup_inv in Hk as [Hv%valid_index_length _].
  rewrite <-Hlen. unfold ndim in Hlen.
  rewrite in_slices_eq, displacement_zero by lia. done.
Qed.

(** X5: crossing out the center of the footprint removes the zero
    displacement from the neighbor offsets, and nothing else: the other
    offsets stay, in their order. *)
Theorem center_crossed_out fp off :
  length off = ndim fp →
  footprint_offsets (clear_center off fp) off
  = filter (λ δ, δ ≠ replicate (ndim fp) 0%Z) (footprint_offsets fp off)
  ∧ replicate (ndim fp) 0%Z ∉ footprint_offsets (clear_center off fp) off.
Proof.
  intros Hlen. rewrite footprint_offsets_clear by done. split; [done|].
  intros [Hne _]%list_elem_of_filter. by apply Hne.
Qed.

Lemma center_crossed_out_witness :
  footprint_offsets (clear_center [1; 1] (default_footprint 2)) [1; 1]
  = filter (λ δ, δ ≠ replicate (ndim (default_footprint 2)) 0%Z)
           (footprint_offsets (default_footprint 2) [1; 1])
  ∧ replicate (ndim (default_footprint 2)) 0%Z
    ∉ footprint_offsets (clear_center [1; 1] (default_footprint 2)) [1; 1].
Proof.
  apply (center_crossed_out (default_footprint 2) [1; 1]). reflexivity.
Defined.

Lemma NoDup_indices shape : NoDup (indices shape).
Proof.
  apply NoDup_alt. intros i j idx Hi Hj.
  apply indices_lookup_inv in Hi as [_ <-].
  by apply indices_lookup_inv in Hj as [_ <-].
Qed.

Lemma elem_of_indices shape idx : idx ∈ indices shape ↔ valid_index shape idx.
Proof.
  split.
  - intros (k & Hk)%list_elem_of_lookup_1.
    by apply indices_lookup_inv in Hk as [Hv _].
  - intros Hv. eapply list_elem_of_lookup_2. by apply indices_lookup.
Qed.

Lemma footprint_offsets_cells fp off :
  footprint_offsets fp off = displacement off <$> set_cells fp.
Proof. unfold footprint_offsets, set_cells. by rewrite <-list_fmap_compose. Qed.

Lemma set_cells_sublist fp : set_cells fp `sublist_of` indices (arr_shape fp).
Proof.
  unfold set_cells. generalize (indices (arr_shape fp)) as idxs.
  generalize (arr_data fp) as data.
  intros data idxs. revert data.
  induction idxs as [|i idxs IH]; intros [|v data]; simpl;
    try by apply sublist_nil_l.
  rewrite filter_cons. simpl. destruct (decide (v ≠ 0%Z)).
  - rewrite fmap_cons. simpl. by apply sublist_skip.
  - by apply sublist_cons.
Qed.

Lemma set_cells_valid fp c : c ∈ set_cells fp → valid_index (arr_shape fp) c.
Proof.
  intros Hc. apply elem_of_indices.
  eapply elem_of_sublist; [done|apply set_cells_sublist].
Qed.

Lemma set_cells_ones {A} (l : list A) :
  fst <$> filter (λ c : A * Z, c.2 ≠ 0%Z) (zip l (replicate (length l) 1%Z)) = l.
Proof.
  induction l as [|c l IH]; [done|].
  cbn [length replicate zip_with]. rewrite filter_cons. cbn [snd].
  rewrite decide_True by done. by rewrite fmap_cons, IH.
Qed.

Lemma set_cells_default n :
  set_cells (default_footprint n) = indices (replicate n 3).
Proof.
  unfold set_cells, default_footprint. simpl.
  rewrite <-(length_indices (replicate n 3)). apply set_cells_ones.
Qed.

(** The displacements of the cells of a 3 x ... x 3 window from its
    center. *)
Lemma unit_displacement n δ :
  (∃ c, valid_index (replicate n 3) c ∧ δ = displacement (replicate n 1) c)
  ↔ length δ = n ∧ Forall (λ z, (-1 ≤ z ≤ 1)%Z) δ.
Proof.
  unfold valid_index, displacement. revert δ.
  induction n as [|n IH]; intros δ; simpl.
  - split.
    + intros (c & Hc & ->). inversion Hc; subst. done.
    + intros [Hlen _]. destruct δ; [|done]. exists []. split; [constructor|done].
  - split.
    + intros (c & Hc & ->).
      inversion Hc as [|i ? c' ? Hi Hc']; subst. cbn [zip_with].
      destruct (proj1 (IH _) (ex_intro _ c' (conj Hc' eq_refl))) as [Hl Hf].
      split; [simpl; by rewrite Hl|]. constructor; [lia|done].
    + intros [Hlen Hf]. destruct δ as [|z δ]; [done|].
      apply Forall_cons in Hf as [Hz Hf].
      destruct (proj2 (IH δ)) as (c & Hc & ->); [split; [simpl in Hlen; lia|done]|].
      exists (Z.to_nat (z + 1) :: c). split.
      * constructor; [lia|done].
      * cbn [zip_with]. f_equal. lia.
Qed.

Lemma size_of_replicate n d : size_of (replicate n d) = d ^ n.
Proof. induction n as [|n IH]; simpl; [done|]. by rewrite IH. Qed.

Lemma length_filter_ne {A} `{EqDecision A} (z : A) (l : list A) :
  NoDup l → z ∈ l → length (filter (λ x, x ≠ z) l) = length l - 1.
Proof.
  induction 1 as [|x l Hx Hnd IH]; [by intros ?%elem_of_nil|].
  rewrite filter_cons. intros [Heq|Hz]%elem_of_cons.
  - subst x. rewrite decide_False by (intros H; by apply H).
    assert (filter (λ x, x ≠ z) l = l) as ->; [|simpl; lia].
    clear IH Hnd. induction l as [|y l IH]; [done|].
    apply not_elem_of_cons in Hx as [Hy Hx].
    rewrite filter_cons, decide_True by done. by rewrite IH.
  - rewrite decide_True by (intros ->; done).
    simpl. rewrite IH by done.
    destruct l; [by apply elem_of_nil in Hz|simpl; lia].
Qed.

(** X6: without a footprint and without an offset the offset stage returns
    the center of the 3 x ... x 3 window, and the neighbor offsets are all
    the displacements with coordinates -1, 0, 1 except the zero
    displacement: [3 ^ n - 1] of them. *)
Theorem default_neighbors n :
  offset_result (arr_shape (default_footprint n)) None = Ok (replicate n 1)
  ∧ (∀ δ, δ ∈ footprint_offsets
                (clear_center (replicate n 1) (default_footprint n))
                (replicate n 1)
          ↔ length δ = n ∧ Forall (λ z, (-1 ≤ z ≤ 1)%Z) δ
            ∧ δ ≠ replicate n 0%Z)
  ∧ (∀ pshape,
       length (nb_strides pshape
                 (clear_center (replicate n 1) (default_footprint n))
                 (replicate n 1)) = 3 ^ n - 1).
Proof.
  assert (ndim (default_footprint n) = n) as Hn.
  { unfold ndim, default_footprint. simpl. by rewrite length_replicate. }
  assert (∀ δ, δ ∈ footprint_offsets (default_footprint n) (replicate n 1)
               ↔ length δ = n ∧ Forall (λ z, (-1 ≤ z ≤ 1)%Z) δ) as Hall.
  { intros δ. rewrite footprint_offsets_cells, set_cells_default.
    rewrite <-unit_displacement, list_elem_of_fmap.
    split; intros (c & H1 & H2); exists c; rewrite ?elem_of_indices in *; done. }
  split_and!.
  - unfold offset_result, resolve_offset, default_footprint, bind, guard.
    simpl. assert (all_odd (replicate n 3) = true) as ->.
    { apply all_odd_spec, Forall_replicate. by exists 1. }
    simpl. f_equal. rewrite fmap_replicate. done.
  - intros δ.
    rewrite footprint_offsets_clear by by rewrite length_replicate.
    rewrite list_elem_of_filter, Hall, Hn. tauto.
  - intros pshape. unfold nb_strides. rewrite length_fmap.
    rewrite footprint_offsets_clear by by rewrite length_replicate.
    rewrite Hn, length_filter_ne.
    + rewrite footprint_offsets_cells, set_cells_default, length_fmap,
        length_indices, size_of_replicate. done.
    + rewrite footprint_offsets_cells, set_cells_default.
      apply NoDup_fmap_2_strong; [|apply NoDup_indices].
      intros c c' Hc%elem_of_indices%valid_index_length
             Hc'%elem_of_indices%valid_index_length.
      rewrite length_replicate in Hc, Hc'.
      apply displacement_inj; by rewrite length_replicate.
    + apply Hall. rewrite length_replicate. split; [done|].
      apply Forall_replicate. lia.
Qed.

Lemma default_offset_half fshape off :
  offset_result fshape None = Ok off →
  Forall2 (λ o d, 2 * o + 1 = d) off fshape.
Proof.
  unfold offset_result, resolve_offset, bind, guard.
  destruct (all_odd fshape) eqn:Hodd; cbn -[Nat.div]; [|done].
  intros [= <-]. apply all_odd_spec in Hodd.
  apply Forall2_fmap_l, Forall_Forall2_diag.
  eapply Forall_impl; [exact Hodd|]. intros d [k ->].
  assert ((2 * k + 1) / 2 = k) as Hk
    by (symmetry; apply (Nat.div_unique _ _ _ 1); lia).
  change (2 * ((2 * k + 1) / 2) + 1 = 2 * k + 1). rewrite Hk. lia.
Qed.

(** X7: the default offset is the center of the footprint: every extent is
    twice the offset plus one, and every neighbor offset reaches at most as
    far as the offset along each axis, in both directions. *)
Theorem default_offset_centered fp off :
  offset_result (arr_shape fp) None = Ok off →
  Forall2 (λ o d, 2 * o + 1 = d) off (arr_shape fp)
  ∧ ∀ δ, δ ∈ footprint_offsets fp off →
         Forall2 (λ z o, (- Z.of_nat o ≤ z ≤ Z.of_nat o)%Z) δ off.
Proof.
  intros Hoff%default_offset_half. split; [done|].
  intros δ (c & Hc & ->)%elem_of_footprint_offsets.
  unfold valid_index in Hc. revert c Hc.
  induction Hoff as [|o d off fshape Hod Hoff IH]; intros c Hc.
  - inversion Hc; subst. constructor.
  - inversion Hc as [|i ? c' ? Hi Hc']; subst. cbn [zip_with].
    constructor; [lia|]. by apply IH.
Qed.

Lemma default_offset_centered_witness :
  Forall2 (λ o d, 2 * o + 1 = d) [2; 1] [5; 3]
  ∧ ∀ δ, δ ∈ footprint_offsets (NdArray bool_ [5; 3] (replicate 15 1%Z)) [2; 1] →
         Forall2 (λ z o, (- Z.of_nat o ≤ z ≤ Z.of_nat o)%Z) δ [2; 1].
Proof.
  apply (default_offset_centered (NdArray bool_ [5; 3] (replicate 15 1%Z)) [2; 1]).
  reflexivity.
Defined.

(** The flat offset of a displacement whose coordinates are smaller than the
    extents of the shape. *)
Lemma stride_sum_small ps e :
  Forall2 (λ p z, (Z.abs z < Z.of_nat p)%Z) ps e →
  (Z.abs (stride_sum (strides ps) e) < Z.of_nat (size_of ps))%Z.
Proof.
  unfold stride_sum. induction 1 as [|p z ps e Hz _ IH]; simpl; [lia|].
  nia.
Qed.

Lemma stride_sum_zero ps e :
  Forall2 (λ p z, (Z.abs z < Z.of_nat p)%Z) ps e →
  stride_sum (strides ps) e = 0%Z → e = replicate (length ps) 0%Z.
Proof.
  induction 1 as [|p z ps e Hz He IH]; [done|].
  pose proof (stride_sum_small _ _ He) as Hsmall.
  unfold stride_sum in *. simpl. intros Hsum.
  assert (z = 0%Z) as -> by nia.
  f_equal. apply IH. lia.
Qed.

Lemma stride_sum_sub st u v :
  length u = length v →
  stride_sum st (zip_with Z.sub u v) = (stride_sum st u - stride_sum st v)%Z.
Proof.
  unfold stride_sum. revert u v.
  induction st as [|s st IH]; intros [|x u] [|y v] Hlen; simplify_eq/=;
    try done.
  rewrite IH by done. lia.
Qed.

Lemma stride_sum_zeros st n : stride_sum st (replicate n 0%Z) = 0%Z.
Proof.
  unfold stride_sum. revert n.
  induction st as [|s st IH]; intros [|n]; simpl; try done.
  rewrite IH. lia.
Qed.

(** Two cells of the footprint whose flat offsets agree are the same cell. *)
Lemma flat_offset_inj sshape fshape off c c' :
  Forall (lt 0) sshape → length fshape = length sshape →
  length off = length sshape →
  valid_index fshape c → valid_index fshape c' →
  stride_sum (strides (padded_shape sshape fshape)) (displacement off c)
  = stride_sum (strides (padded_shape sshape fshape)) (displacement off c') →
  c = c'.
Proof.
  intros Hpos Hlf Hlo Hc Hc' Heq.
  assert (zip_with Z.sub (displacement off c) (displacement off c')
          = replicate (length (padded_shape sshape fshape)) 0%Z) as Hz.
  { apply stride_sum_zero.
    - unfold padded_shape, displacement, valid_index in *.
      clear Heq. revert fshape off c c' Hlf Hlo Hc Hc'.
      induction Hpos as [|s ss Hs Hpos IH];
        intros [|f fs] [|o off] c c' Hlf Hlo Hc Hc'; simplify_eq/=.
      + inversion Hc; inversion Hc'; subst. constructor.
      + inversion Hc as [|i ? ci ? Hi Hci]; subst.
        inversion Hc' as [|i' ? ci' ? Hi' Hci']; subst.
        cbn [zip_with]. constructor; [lia|]. by apply IH.
    - rewrite stride_sum_sub; [lia|].
      rewrite !length_displacement.
      apply valid_index_length in Hc, Hc'. lia. }
  apply valid_index_length in Hc, Hc'.
  eapply (displacement_sub_zero off); [lia|lia|done].
Qed.





(** ** The padded buffer *)

(** Every sample of a channel of the buffer is the pad value or a sample of
    the embedded array, converted to the element type of the buffer. *)
Lemma embed_sample t pad off a pshape p v :
  embed t pad off a pshape !! p = Some v →
  v = cast t pad ∨ ∃ w, w ∈ arr_data a ∧ v = cast t w.
Proof.
  unfold embed. rewrite list_lookup_fmap.
  destruct (indices pshape !! p) as [idx|]; [|done]. simpl.
  destruct (inside _ _ _); [|intros [= <-]; by left].
  destruct (arr_data a !! _) as [w|] eqn:Hw; simpl; intros [= <-].
  - right. exists w. split; [|done]. by eapply list_elem_of_lookup_2.
  - by left.
Qed.

(** X10: the buffer holds two channels of [image_stride] cells each, in the
    promoted element type of seed and mask: the seed sample of a position,
    converted to that type, sits at the position shifted by the offset, its
    mask sample, converted as well, exactly [image_stride] cells later, and
    every cell holds the conversion of the pad value, of a seed sample
    (first channel) or of a mask sample (second channel). *)
Theorem buffer_layout argsort seed mask m pad fp off :
  arr_shape seed = arr_shape mask → wf_array seed → wf_array mask →
  ndim fp = ndim seed → Forall2 lt off (arr_shape fp) →
  length (lay_images (build argsort seed mask m pad fp off))
  = 2 * lay_stride (build argsort seed mask m pad fp off)
  ∧ (∀ i idx vs vm,
       indices (arr_shape seed) !! i = Some idx →
       arr_data seed !! i = Some vs → arr_data mask !! i = Some vm →
       lay_images (build argsort seed mask m pad fp off)
         !! ravel (lay_shape (build argsort seed mask m pad fp off))
                  (zip_with Nat.add idx off)
       = Some (cast (promote_types (arr_dtype seed) (arr_dtype mask)) vs)
       ∧ lay_images (build argsort seed mask m pad fp off)
           !! (ravel (lay_shape (build argsort seed mask m pad fp off))
                     (zip_with Nat.add idx off)
               + lay_stride (build argsort seed mask m pad fp off))
         = Some (cast (promote_types (arr_dtype seed) (arr_dtype mask)) vm))
  ∧ (∀ p v,
       lay_images (build argsort seed mask m pad fp off) !! p = Some v →
       v = cast (promote_types (arr_dtype seed) (arr_dtype mask)) pad
       ∨ (p < lay_stride (build argsort seed mask m pad fp off)
          ∧ ∃ w, w ∈ arr_data seed
                 ∧ v = cast (promote_types (arr_dtype seed) (arr_dtype mask)) w)
       ∨ (lay_stride (build argsort seed mask m pad fp off) ≤ p
          ∧ ∃ w, w ∈ arr_data mask
                 ∧ v = cast (promote_types (arr_dtype seed) (arr_dtype mask)) w)).
Proof.
  intros Hshape Hwfs Hwfm Hn Hoff. split_and!.
  - apply length_build_images.
  - intros i idx vs vm Hidx Hvs Hvm.
    assert (accepted seed mask fp off) as Hacc.
    { constructor; try done. intros Hnil. by rewrite Hnil in Hvs. }
    destruct (cell_layout argsort seed mask m pad fp off Hacc i idx vs vm
                Hidx Hvs Hvm) as (_ & H0 & H1 & _). done.
  - intros p v. rewrite build_images, build_stride.
    intros [Hp|[Hp1 Hp2]]%lookup_app_Some.
    + destruct (embed_sample _ _ _ _ _ _ _ Hp) as [->|Hv]; [by left|].
      right. left. split; [|done].
      apply lookup_lt_Some in Hp. by rewrite length_embed in Hp.
    + destruct (embed_sample _ _ _ _ _ _ _ Hp2) as [->|Hv]; [by left|].
      right. right. split; [|done]. by rewrite length_embed in Hp1.
Qed.

Lemma buffer_layout_witness :
  length (lay_images (build argsort_stable
                        (NdArray int64 [1] [9007199254740993]%Z)
                        (NdArray uint64 [1] [9007199254740995]%Z) Dilation 0
                        (clear_center [1] (default_footprint 1)) [1]))
  = 2 * lay_stride (build argsort_stable
                      (NdArray int64 [1] [9007199254740993]%Z)
                      (NdArray uint64 [1] [9007199254740995]%Z) Dilation 0
                      (clear_center [1] (default_footprint 1)) [1])
  ∧ (∀ i idx vs vm,
       indices [1] !! i = Some idx →
       [9007199254740993]%Z !! i = Some vs →
       [9007199254740995]%Z !! i = Some vm →
       lay_images (build argsort_stable
                     (NdArray int64 [1] [9007199254740993]%Z)
                     (NdArray uint64 [1] [9007199254740995]%Z) Dilation 0
                     (clear_center [1] (default_footprint 1)) [1])
         !! ravel (lay_shape (build argsort_stable
                                (NdArray int64 [1] [9007199254740993]%Z)
                                (NdArray uint64 [1] [9007199254740995]%Z)
                                Dilation 0
                                (clear_center [1] (default_footprint 1)) [1]))
                  (zip_with Nat.add idx [1])
       = Some (cast float64 vs)
       ∧ lay_images (build argsort_stable
                       (NdArray int64 [1] [9007199254740993]%Z)
                       (NdArray uint64 [1] [9007199254740995]%Z) Dilation 0
                       (clear_center [1] (default_footprint 1)) [1])
           !! (ravel (lay_shape (build argsort_stable
                                   (NdArray int64 [1] [9007199254740993]%Z)
                                   (NdArray uint64 [1] [9007199254740995]%Z)
                                   Dilation 0
                                   (clear_center [1] (default_footprint 1)) [1]))
                     (zip_with Nat.add idx [1])
               + lay_stride (build argsort_stable
                               (NdArray int64 [1] [9007199254740993]%Z)
                               (NdArray uint64 [1] [9007199254740995]%Z)
                               Dilation 0
                               (clear_center [1] (default_footprint 1)) [1]))
         = Some (cast float64 vm))
  ∧ (∀ p v,
       lay_images (build argsort_stable
                     (NdArray int64 [1] [9007199254740993]%Z)
                     (NdArray uint64 [1] [9007199254740995]%Z) Dilation 0
                     (clear_center [1] (default_footprint 1)) [1]) !! p
       = Some v →
       v = cast float64 0
       ∨ (p < lay_stride (build argsort_stable
                            (NdArray int64 [1] [9007199254740993]%Z)
                            (NdArray uint64 [1] [9007199254740995]%Z)
                            Dilation 0
                            (clear_center [1] (default_footprint 1)) [1])
          ∧ ∃ w, w ∈ [9007199254740993]%Z ∧ v = cast float64 w)
       ∨ (lay_stride (build argsort_stable
                        (NdArray int64 [1] [9007199254740993]%Z)
                        (NdArray uint64 [1] [9007199254740995]%Z) Dilation 0
                        (clear_center [1] (default_footprint 1)) [1]) ≤ p
          ∧ ∃ w, w ∈ [9007199254740995]%Z ∧ v = cast float64 w)).
Proof.
  apply (buffer_layout argsort_stable
           (NdArray int64 [1] [9007199254740993]%Z)
           (NdArray uint64 [1] [9007199254740995]%Z) Dilation 0%Z
           (clear_center [1] (default_footprint 1)) [1]);
    [reflexivity..|]. repeat constructor.
Defined.

(** X11: when seed and mask pass the ordering test of the method and the
    promoted element type holds the seed samples as they are, the pad value
    is extreme in the whole buffer: no cell of either channel is below it
    for dilation, none is above it for erosion. *)
Theorem padding_is_extreme argsort seed mask method m pad fp off p v :
  ordering_ok seed mask method = true → parse_method method = Ok m →
  pad_value m seed = Ok pad →
  arr_shape seed = arr_shape mask → wf_array seed → wf_array mask →
  Forall (holds (promote_types (arr_dtype seed) (arr_dtype mask)))
         (arr_data seed) →
  lay_images (build argsort seed mask m pad fp off) !! p = Some v →
  (key m pad ≤ key m v)%Z.
Proof.
  intros Hord Hm Hpad Hshape Hwfs Hwfm Hh. rewrite build_images.
  rewrite Forall_forall in Hh.
  pose proof (Hh _ (pad_value_attained _ _ _ Hpad)) as Hhp.
  intros [Hp|[_ Hp]]%lookup_app_Some;
    apply embed_sample in Hp as [->|(w & Hw & ->)];
    try (rewrite Hhp; lia).
  - rewrite (Hh _ Hw). apply list_elem_of_lookup_1 in Hw as [i Hi].
    by eapply pad_value_least.
  - apply list_elem_of_lookup_1 in Hw as [i Hi].
    destruct (lookup_lt_is_Some_2 (arr_data seed) i) as [vs Hvs].
    { apply lookup_lt_Some in Hi. unfold wf_array in *.
      rewrite Hwfs, Hshape, <-Hwfm. done. }
    pose proof (pad_value_least _ _ _ _ _ Hpad Hvs).
    pose proof (ordering_pointwise _ _ _ _ _ _ _ Hord Hm Hvs Hi) as Ho.
    rewrite (Hh vs) in Ho by by eapply list_elem_of_lookup_2. lia.
Qed.

Lemma padding_is_extreme_witness :
  (key Erosion 3 ≤ key Erosion 0)%Z.
Proof.
  apply (padding_is_extreme argsort_stable (NdArray uint8 [3] [3; 0; 3]%Z)
           (NdArray uint8 [3] [1; 0; 1]%Z) "erosion" Erosion 3%Z
           (clear_center [1] (default_footprint 1)) [1] 7 0%Z);
    try reflexivity.
  repeat constructor.
Defined.

Lemma lookup_indices_lt shape i :
  i < size_of shape → ∃ idx, indices shape !! i = Some idx.
Proof.
  intros Hi. apply lookup_lt_is_Some_2. by rewrite length_indices.
Qed.

(** X12: writing an array into a padded buffer of the element type [t] at
    [inside_slices] and reading the buffer back at the same slices returns
    the samples of the array converted to [t], whatever the pad value. *)
Theorem crop_embed_roundtrip t pad dt a fshape off :
  wf_array a → Forall2 lt off fshape → length fshape = ndim a →
  crop dt off (arr_shape a) (padded_shape (arr_shape a) fshape)
       (embed t pad off a (padded_shape (arr_shape a) fshape))
  = NdArray dt (arr_shape a) (cast t <$> arr_data a).
Proof.
  intros Hwf Hoff Hlen. unfold wf_array, ndim in *.
  pose proof (crop_shape dt off (arr_shape a) fshape
                (embed t pad off a (padded_shape (arr_shape a) fshape))
                Hoff Hlen) as Hshape.
  pose proof (length_crop dt off (arr_shape a)
                (padded_shape (arr_shape a) fshape)
                (embed t pad off a (padded_shape (arr_shape a) fshape))) as Hlc.
  rewrite Hshape in Hlc.
  destruct (crop _ _ _ _ _) as [dt' shape' data'] eqn:Hcrop.
  assert (dt' = dt) as -> by (unfold crop in Hcrop; by simplify_eq).
  simpl in Hshape, Hlc. subst shape'. f_equal.
  apply list_eq. intros i. rewrite list_lookup_fmap.
  destruct (decide (i < size_of (arr_shape a))) as [Hi|Hi].
  2:{ rewrite !lookup_ge_None_2; [done|lia..]. }
  destruct (lookup_indices_lt _ _ Hi) as [idx Hidx].
  pose proof (crop_lookup dt off (arr_shape a)
                (padded_shape (arr_shape a) fshape)
                (embed t pad off a (padded_shape (arr_shape a) fshape))
                (arr_shape a) i idx) as Hl.
  rewrite Hcrop in Hl. simpl in Hl. rewrite Hl by done.
  apply indices_lookup_inv in Hidx as [Hv Hrav].
  destruct (shifted_index (arr_shape a) fshape off idx)
    as (Hw & Hin & Hsub); [done..|].
  rewrite (embed_lookup _ _ _ _ _ _ _ (indices_lookup _ _ Hw)).
  rewrite Hin, Hsub, Hrav. simpl.
  destruct (lookup_lt_is_Some_2 (arr_data a) i) as [v Hv']; [lia|].
  by rewrite Hv'.
Qed.

Lemma crop_embed_roundtrip_witness :
  crop float64 [1; 0] [2; 2] (padded_shape [2; 2] [3; 1])
       (embed float64 7 [1; 0]
          (NdArray int64 [2; 2] [0; 2; 9007199254740993; 1]%Z)
          (padded_shape [2; 2] [3; 1]))
  = NdArray float64 [2; 2] (cast float64 <$> [0; 2; 9007199254740993; 1]%Z).
Proof.
  apply (crop_embed_roundtrip float64 7 float64
           (NdArray int64 [2; 2] [0; 2; 9007199254740993; 1]%Z) [3; 1] [1; 0]).
  - reflexivity.
  - repeat constructor.
  - reflexivity.
Defined.

(** ** The width of the indices *)


(** X13: with the loop of scikit-image 0.20 or later the index type is the
    narrowest of [int32] and [int64] that holds the negated buffer size
    ([int32] up to [2^31] samples, [int64] up to [2^63]), and the ranks get
    the unsigned type of the same width; with the older loop both are
    32 bits wide. *)
Theorem index_width_selection (isize : nat) :
  (signed_int_dtype false isize = int32 ↔ (Z.of_nat isize ≤ 2 ^ 31)%Z)
  ∧ (signed_int_dtype false isize = int64
     ↔ (2 ^ 31 < Z.of_nat isize ≤ 2 ^ 63)%Z)
  ∧ (signed_int_dtype false isize = object_ ↔ (2 ^ 63 < Z.of_nat isize)%Z)
  ∧ (unsigned_int_dtype false isize = uint32
     ↔ signed_int_dtype false isize = int32)
  ∧ (unsigned_int_dtype false isize = uint64
     ↔ signed_int_dtype false isize = int64)
  ∧ signed_int_dtype true isize = int32
  ∧ unsigned_int_dtype true isize = uint32.
Proof.
  assert (signed_int_dtype false isize = int32 ∧ (Z.of_nat isize ≤ 2 ^ 31)%Z
          ∨ signed_int_dtype false isize = int64
            ∧ (2 ^ 31 < Z.of_nat isize ≤ 2 ^ 63)%Z
          ∨ signed_int_dtype false isize = object_
            ∧ (2 ^ 63 < Z.of_nat isize)%Z) as Hcases.
  { unfold signed_int_dtype, min_scalar_type.
    change (2 ^ 7)%Z with 128%Z. change (2 ^ 15)%Z with 32768%Z.
    change (2 ^ 31)%Z with 2147483648%Z.
    change (2 ^ 63)%Z with 9223372036854775808%Z.
    repeat case_match; rewrite ?Z.eqb_eq, ?Z.eqb_neq, ?Z.leb_le,
      ?Z.leb_gt in *;
      [left|left|left|left|right; left|right; right];
      (split; [reflexivity|lia]). }
  unfold unsigned_int_dtype.
  change (2 ^ 31)%Z with 2147483648%Z in *.
  change (2 ^ 63)%Z with 9223372036854775808%Z in *.
  destruct Hcases as [[-> H]|[[-> H]|[-> H]]];
    split_and!; try done; split; try done; lia.
Qed.

(** ** The traversal list *)


(** The links that the two scatters leave along [idx]. *)
Lemma links_of_index n idx :
  NoDup idx → (∀ x, x ∈ idx → x < n) →
  (∀ k x y, idx !! k = Some x → idx !! S k = Some y →
            make_next n idx !! x = Some (Z.of_nat y)
            ∧ make_prev n idx !! y = Some (Z.of_nat x))
  ∧ (∀ x, idx !! 0 = Some x → make_prev n idx !! x = Some (-1)%Z)
  ∧ (∀ x, last idx = Some x → make_next n idx !! x = Some (-1)%Z).
Proof.
  intros Hnd Hrange. split_and!.
  - intros k x y Hx Hy.
    pose proof (lookup_lt_Some _ _ _ Hy) as Hk.
    split.
    + unfold make_next. eapply (scatter_hit _ _ _ k).
      * unfold but_last. eapply sublist_NoDup; [|apply sublist_take]. done.
      * by rewrite lookup_but_last.
      * by rewrite lookup_tail.
      * rewrite length_replicate. apply Hrange.
        by eapply list_elem_of_lookup_2.
    + unfold make_prev. eapply (scatter_hit _ _ _ k).
      * destruct idx; [done|]. by apply NoDup_cons in Hnd as [_ ?].
      * by rewrite lookup_tail.
      * rewrite lookup_but_last by lia. done.
      * rewrite length_replicate. apply Hrange.
        by eapply list_elem_of_lookup_2.
  - intros x Hx. unfold make_prev.
    rewrite scatter_miss, lookup_replicate_2; [done| |].
    + apply Hrange. by eapply list_elem_of_lookup_2.
    + destruct idx as [|z idx]; simplify_eq/=.
      by apply NoDup_cons in Hnd as [? _].
  - intros x Hx. unfold make_next.
    rewrite last_lookup in Hx.
    rewrite scatter_miss, lookup_replicate_2; [done| |].
    + apply Hrange. by eapply list_elem_of_lookup_2.
    + intros (j & Hj)%list_elem_of_lookup_1.
      pose proof (lookup_lt_Some _ _ _ Hj) as Hjl.
      pose proof (lookup_lt_Some _ _ _ Hx) as Hxl.
      unfold but_last in Hj, Hjl. rewrite length_take in Hjl.
      rewrite lookup_take_lt in Hj by lia.
      pose proof (NoDup_lookup _ _ _ _ Hnd Hj Hx). lia.
Qed.

Lemma build_index_permutes argsort seed mask m pad fp off :
  argsort_permutes argsort →
  lay_index (build argsort seed mask m pad fp off)
  ≡ₚ seq 0 (length (lay_images (build argsort seed mask m pad fp off))).
Proof.
  intros Hsort. rewrite build_index.
  destruct m; [rewrite reverse_Permutation|]; apply Hsort.
Qed.





(** ** The samples of the result *)





(** ** The method and the footprint as the call reads them *)

(** X18: in a call that reaches the footprint stage, the method error is
    raised exactly when the method is neither 'dilation' nor 'erosion' and
    the footprint and the offset have been accepted: the method is looked at
    only after them. *)
Theorem method_error_iff argsort seed mask method footprint offset h fp0 :
  arr_shape seed = arr_shape mask →
  local_footprint h seed footprint = Some fp0 →
  (reconstruction argsort seed mask method footprint offset h).2
    = Err InvalidMethod
  ↔ method ≠ "dilation" ∧ method ≠ "erosion"
    ∧ ∃ off, offset_result (arr_shape fp0) offset = Ok off
             ∧ length off ≤ ndim fp0.
Proof.
  intros Hshape Hfp.
  destruct (ordering_ok seed mask method) eqn:Hord.
  2:{ rewrite (reconstruction_order_error _ _ _ _ _ _ _ Hshape Hord).
      split; [done|]. intros (Hd%String.eqb_neq & He%String.eqb_neq & _).
      unfold ordering_ok in Hord. by rewrite Hd, He in Hord. }
  rewrite (reconstruction_result _ _ _ _ _ _ _ _ Hshape Hord Hfp).
  destruct (offset_result _ _) as [off|e] eqn:Hoff.
  2:{ split.
      - intros [= ->]. apply offset_result_errors in Hoff.
        destruct Hoff as [?|[?|[w ?]]]; done.
      - by intros (_ & _ & off & [=] & _). }
  unfold after_offset, parse_method.
  case_bool_decide as Hlen.
  2:{ split; [done|]. intros (_ & _ & off' & [= <-] & ?). done. }
  destruct (String.eqb method "dilation") eqn:Hd.
  { split; [|by intros (?%String.eqb_neq & _); congruence].
    destruct (pad_value Dilation seed) as [pad|e] eqn:Hpad.
    - case_bool_decide; [|done]. intros He%propagate_errors.
      destruct He as [?|[?|?]]; done.
    - intros [= ->]. unfold pad_value, array_min in Hpad.
      by destruct (arr_data seed). }
  destruct (String.eqb method "erosion") eqn:He.
  { split; [|by intros (_ & ?%String.eqb_neq & _); congruence].
    destruct (pad_value Erosion seed) as [pad|e] eqn:Hpad.
    - case_bool_decide; [|done]. intros Hp%propagate_errors.
      destruct Hp as [?|[?|?]]; done.
    - intros [= ->]. unfold pad_value, array_max in Hpad.
      by destruct (arr_data seed). }
  split; [|done]. intros _.
  apply String.eqb_neq in Hd, He. eauto.
Qed.

Lemma method_error_iff_witness :
  (reconstruction argsort_stable ex_seed ex_mask "closing" None None ∅).2
    = Err InvalidMethod
  ↔ "closing" ≠ "dilation" ∧ "closing" ≠ "erosion"
    ∧ ∃ off, offset_result (arr_shape (default_footprint 1)) None = Ok off
             ∧ length off ≤ ndim (default_footprint 1).
Proof.
  apply (method_error_iff argsort_stable ex_seed ex_mask "closing" None None ∅
           (default_footprint 1)); reflexivity.
Defined.

(** X19: the footprint is read as an array of booleans: two footprints of
    the same shape that are zero at the same cells give the same outcome,
    whatever the other values are. *)
Theorem footprint_read_as_bool argsort seed mask method offset h h' l l' fp fp' :
  h !! l = Some fp → h' !! l' = Some fp' →
  astype_bool fp = astype_bool fp' →
  (reconstruction argsort seed mask method (Some l) offset h).2
  = (reconstruction argsort seed mask method (Some l') offset h').2.
Proof.
  intros Hl Hl' Heq.
  destruct (decide (arr_shape seed = arr_shape mask)) as [Hshape|Hshape].
  2:{ unfold reconstruction, bind at 1 3, guard at 1 4.
      by rewrite bool_decide_eq_false_2. }
  destruct (ordering_ok seed mask method) eqn:Hord.
  2:{ by rewrite !(reconstruction_order_error _ _ _ _ _ _ _ Hshape Hord). }
  rewrite (reconstruction_result argsort seed mask method (Some l) offset h
             (astype_bool fp) Hshape Hord) by (simpl; by rewrite Hl).
  rewrite (reconstruction_result argsort seed mask method (Some l') offset h'
             (astype_bool fp') Hshape Hord) by (simpl; by rewrite Hl').
  by rewrite Heq.
Qed.

Lemma footprint_read_as_bool_witness :
  (reconstruction argsort_stable ex_seed ex_mask "dilation" (Some 1%positive)
     None ex_store).2
  = (reconstruction argsort_stable ex_seed ex_mask "dilation" (Some 2%positive)
       None {[ 2%positive := NdArray int8 [3] [5; -1; 2]%Z ]}).2.
Proof.
  apply (footprint_read_as_bool argsort_stable ex_seed ex_mask "dilation" None
           ex_store {[ 2%positive := NdArray int8 [3] [5; -1; 2]%Z ]}
           1%positive 2%positive ex_footprint (NdArray int8 [3] [5; -1; 2]%Z));
    reflexivity.
Defined.
